(** * A shallow embedding of the maze generator, solver and interactive player

    The development follows [static/js/maze.js] (page globals, maze carving,
    door installation, recursive solver) and [static/js/solver.js] (the
    interactive session: moves, jumps, finish detection, end statistics).

    Modelling conventions.
    - A cell is the five-slot array [top, right, bottom, left, visited]; wall
      slots hold the numbers 1 (wall up) and 0 (wall knocked down).
    - [Maze] is the two-dimensional array of cells, kept as a finite map from
      coordinates to cells.  Reading [Maze[x][y][k]] at a coordinate with no
      cell is a JavaScript [TypeError]; it is modelled by [Throw].
    - JavaScript globals are threaded through a state-and-exception monad.
      An uncaught exception ends the running handler and leaves the globals
      as mutated so far.
    - [Math.random] is an arbitrary sequence of naturals [R]; the k-th call of
      [Math.floor(Math.random()*n)] is [R k mod n].
    - Recursive functions take a recursion budget ([fuel]); the theorems give
      a budget that is always enough. *)

From Stdlib Require Import ZArith Lia Floats Uint63.
From stdpp Require Import gmap strings list.

Open Scope Z_scope.
Set Warnings "-clear-no-such-hyp".

(** ** Cells *)

Record Cell := mkCell {
  wall_top : Z;      (* [0] *)
  wall_right : Z;    (* [1] *)
  wall_bottom : Z;   (* [2] *)
  wall_left : Z;     (* [3] *)
  visited : bool     (* [4] *)
}.

#[global] Instance Cell_eq_dec : EqDecision Cell.
Proof. solve_decision. Defined.

(** [cell[k]] for a wall slot [k] in 0..3. *)
Definition wall (c : Cell) (k : Z) : Z :=
  if decide (k = 0) then wall_top c
  else if decide (k = 1) then wall_right c
  else if decide (k = 2) then wall_bottom c
  else wall_left c.

(** [cell[k] = v] for a wall slot [k] in 0..3. *)
Definition set_wall (k v : Z) (c : Cell) : Cell :=
  if decide (k = 0) then mkCell v (wall_right c) (wall_bottom c) (wall_left c) (visited c)
  else if decide (k = 1) then mkCell (wall_top c) v (wall_bottom c) (wall_left c) (visited c)
  else if decide (k = 2) then mkCell (wall_top c) (wall_right c) v (wall_left c) (visited c)
  else mkCell (wall_top c) (wall_right c) (wall_bottom c) v (visited c).

(** [cell[4] = b]. *)
Definition set_visited (b : bool) (c : Cell) : Cell :=
  mkCell (wall_top c) (wall_right c) (wall_bottom c) (wall_left c) b.

(** The cell written by [LoadMaze]'s initialisation loop. *)
Definition fresh_cell : Cell := mkCell 1 1 1 1 false.

(** ** Outcomes of running JavaScript code over a global state *)

Inductive Outcome (St A : Type) : Type :=
| Ret (a : A) (s : St)      (* normal completion *)
| Throw (s : St)            (* uncaught TypeError; [s] is the state reached *)
| OutOfFuel.                (* the recursion budget of the model ran out *)

Arguments Ret {St A} a s.
Arguments Throw {St A} s.
Arguments OutOfFuel {St A}.

Definition M (St A : Type) : Type := St -> Outcome St A.

Definition ret {St A} (a : A) : M St A := fun s => Ret a s.

Definition bind {St A B} (m : M St A) (k : A -> M St B) : M St B :=
  fun s => match m s with
           | Ret a s' => k a s'
           | Throw s' => Throw s'
           | OutOfFuel => OutOfFuel
           end.

Definition throw {St A} : M St A := fun s => Throw s.
Definition get {St} : M St St := fun s => Ret s s.
Definition modify {St} (f : St -> St) : M St unit := fun s => Ret tt (f s).
Definition out_of_fuel {St A} : M St A := fun _ => OutOfFuel.

Notation "'do' x <- m ; k" := (bind m (fun x => k))
  (at level 10, x name, m at level 100, k at level 200, only parsing).
Notation "'exec' m ; k" := (bind m (fun _ => k))
  (at level 10, m at level 100, k at level 200, only parsing).

(** [for (i = 0; i < l.length; i++) body(l[i])] *)
Fixpoint for_each {St A} (body : A -> M St unit) (l : list A) : M St unit :=
  match l with
  | [] => ret tt
  | a :: l' => exec body a ; for_each body l'
  end.

(** The integers [0, 1, ..., n-1] of a counting loop [for (i = 0; i < n; i++)]. *)
Definition upto (n : Z) : list Z := seqZ 0 n.

(** ** The maze array

    Both scripts work on the same array object: the interactive page takes
    [window.opener.Maze].  The accesses they share are written once, over any
    global state that holds the array. *)

Class MazeStore (St : Type) := {
  the_Maze : St -> gmap (Z * Z) Cell;
  with_Maze : gmap (Z * Z) Cell -> St -> St
}.

(** Assigning the array and reading it back. *)
Class MazeStoreLaws (St : Type) `{MazeStore St} := {
  the_with_Maze : forall m s, the_Maze (with_Maze m s) = m;
  with_with_Maze : forall m1 m2 s, with_Maze m2 (with_Maze m1 s) = with_Maze m2 s;
  with_the_Maze : forall s, with_Maze (the_Maze s) s = s
}.

(** [Maze[x][y]], a [TypeError] when there is no such cell. *)
Definition cell_at `{MazeStore St} (x y : Z) : M St Cell :=
  fun s => match the_Maze s !! (x, y) with
           | Some c => Ret c s
           | None => Throw s
           end.

(** [Maze[x][y][k] = v], as the slot update [f]. *)
Definition update_cell `{MazeStore St} (x y : Z) (f : Cell -> Cell) : M St unit :=
  do c <- cell_at x y ;
  modify (fun s => with_Maze (<[(x, y) := f c]> (the_Maze s)) s).

(** The clean-up loop found in [SolveMaze] and at the top of solver.js:
    [for (i < WIDTH) for (j < HEIGHT) Maze[i][j][4] = false]. *)
Definition reset_visited `{MazeStore St} (width height : Z) : M St unit :=
  for_each (fun i =>
    for_each (fun j => update_cell i j (set_visited false)) (upto height))
    (upto width).

(** ** maze.js: globals *)

Module MazeJS.

(** The configuration globals. *)
Record Config := mkConfig {
  WIDTH : Z;
  HEIGHT : Z;
  STARTING_X : Z;     (* the exit cell, where carving starts *)
  STARTING_Y : Z;
  ENTRANCE_X : Z;
  ENTRANCE_Y : Z;
  CELL_SIZE : Z;
  BORDER_WIDTH : Z;
  ENTER : Z;          (* 0 = top, 1 = right, 2 = bottom, 3 = left *)
  EXIT : Z
}.

(** All globals the generator and the solver read or write, the messages
    shown by [alert] so far, and the number of [Math.random] calls made so
    far. *)
Record Globals := mkGlobals {
  config : Config;
  Maze : gmap (Z * Z) Cell;
  Steps_to_Solve : Z;
  Solution_List : list (Z * Z);
  alerts : list string;
  random_calls : nat
}.

(** The values of the form fields [LoadMaze] reads: the two corner menus
    ("tl", "tr", "br", "bl"), the two wall menus and the three number boxes
    (already through [parseInt]). *)
Record Form := mkForm {
  entrance : string;
  exit : string;
  wall_entrance : Z;
  wall_exit : Z;
  dim_width : Z;
  dim_height : Z;
  cell_size : Z
}.

Definition set_config (c : Config) (g : Globals) : Globals :=
  mkGlobals c (Maze g) (Steps_to_Solve g) (Solution_List g) (alerts g) (random_calls g).
Definition set_Maze (m : gmap (Z * Z) Cell) (g : Globals) : Globals :=
  mkGlobals (config g) m (Steps_to_Solve g) (Solution_List g) (alerts g) (random_calls g).
Definition set_Steps_to_Solve (n : Z) (g : Globals) : Globals :=
  mkGlobals (config g) (Maze g) n (Solution_List g) (alerts g) (random_calls g).
Definition set_Solution_List (l : list (Z * Z)) (g : Globals) : Globals :=
  mkGlobals (config g) (Maze g) (Steps_to_Solve g) l (alerts g) (random_calls g).
Definition set_alerts (l : list string) (g : Globals) : Globals :=
  mkGlobals (config g) (Maze g) (Steps_to_Solve g) (Solution_List g) l (random_calls g).
Definition set_random_calls (n : nat) (g : Globals) : Globals :=
  mkGlobals (config g) (Maze g) (Steps_to_Solve g) (Solution_List g) (alerts g) n.

Definition set_ENTRANCE (x y : Z) (c : Config) : Config :=
  mkConfig (WIDTH c) (HEIGHT c) (STARTING_X c) (STARTING_Y c) x y
           (CELL_SIZE c) (BORDER_WIDTH c) (ENTER c) (EXIT c).
Definition set_STARTING (x y : Z) (c : Config) : Config :=
  mkConfig (WIDTH c) (HEIGHT c) x y (ENTRANCE_X c) (ENTRANCE_Y c)
           (CELL_SIZE c) (BORDER_WIDTH c) (ENTER c) (EXIT c).
Definition set_ENTER_EXIT (enter exit_ : Z) (c : Config) : Config :=
  mkConfig (WIDTH c) (HEIGHT c) (STARTING_X c) (STARTING_Y c)
           (ENTRANCE_X c) (ENTRANCE_Y c) (CELL_SIZE c) (BORDER_WIDTH c) enter exit_.
Definition set_sizes (height width cellsz : Z) (c : Config) : Config :=
  mkConfig width height (STARTING_X c) (STARTING_Y c) (ENTRANCE_X c) (ENTRANCE_Y c)
           cellsz (BORDER_WIDTH c) (ENTER c) (EXIT c).

Abbreviation JS := (M Globals).

#[global] Instance Globals_MazeStore : MazeStore Globals :=
  {| the_Maze := Maze; with_Maze := set_Maze |}.

(** [Math.floor(Math.random() * n)] *)
Definition random_below (R : nat -> nat) (n : nat) : JS nat :=
  fun g => Ret (R (random_calls g) mod n)%nat (set_random_calls (S (random_calls g)) g).

(** ** maze.js: reading the form *)

Definition GetEntrance (f : Form) (c : Config) : Config :=
  let location := entrance f in
  let c := if decide (location = "tl") then set_ENTRANCE 0 0 c else c in
  let c := if decide (location = "tr") then set_ENTRANCE (WIDTH c - 1) 0 c else c in
  let c := if decide (location = "br") then set_ENTRANCE (WIDTH c - 1) (HEIGHT c - 1) c else c in
  let c := if decide (location = "bl") then set_ENTRANCE 0 (HEIGHT c - 1) c else c in
  c.

Definition GetExit (f : Form) (c : Config) : Config :=
  let location := exit f in
  let c := if decide (location = "tl") then set_STARTING 0 0 c else c in
  let c := if decide (location = "tr") then set_STARTING (WIDTH c - 1) 0 c else c in
  let c := if decide (location = "br") then set_STARTING (WIDTH c - 1) (HEIGHT c - 1) c else c in
  let c := if decide (location = "bl") then set_STARTING 0 (HEIGHT c - 1) c else c in
  c.

Definition UpdateEWall (f : Form) (c : Config) : Config :=
  set_ENTER_EXIT (wall_entrance f) (wall_exit f) c.

(** The wall menus of the page: the options [HTML_EXIT_INPUT] and
    [HTML_ENTRANCE_INPUT] start with, and the options [UpdateExit] and
    [UpdateEntrance] install when a corner is chosen (value and label). *)
Definition HTML_ENTRANCE_INPUT_walls : list (Z * string) :=
  [(3, "Left Wall"); (0, "Top Wall")].
Definition HTML_EXIT_INPUT_walls : list (Z * string) :=
  [(1, "Right Wall"); (3, "Bottom Wall")].
Definition corner_walls (location : string) : list (Z * string) :=
  if decide (location = "tl") then [(3, "Left Wall"); (0, "Top Wall")]
  else if decide (location = "tr") then [(1, "Right Wall"); (0, "Top Wall")]
  else if decide (location = "br") then [(1, "Right Wall"); (2, "Bottom Wall")]
  else if decide (location = "bl") then [(3, "Left Wall"); (2, "Bottom Wall")]
  else [].
Definition UpdateEntrance_walls := corner_walls.
Definition UpdateExit_walls := corner_walls.

(** ** maze.js: generation *)

Definition ResetValues : JS unit :=
  modify (fun g => set_Steps_to_Solve 0 (set_Solution_List [] (set_Maze ∅ g))).

Definition alert (message : string) : JS unit :=
  modify (fun g => set_alerts (alerts g ++ [message]) g).

(** The message of the first check of [ICanHazErrors] that fails. *)
Definition config_error (c : Config) : option string :=
  if bool_decide (STARTING_X c = ENTRANCE_X c) && bool_decide (STARTING_Y c = ENTRANCE_Y c)
  then Some "You cannot have the same cell be both the entrance and exit!"
  else if bool_decide (HEIGHT c <= 0) || bool_decide (WIDTH c <= 0)
  then Some "Error with dimensions...please check to make sure height and width are above zero!"
  else if bool_decide (BORDER_WIDTH c <= 0)
  then Some "No border will result in a white box.  Please make sure your border is at least 1."
  else if bool_decide (BORDER_WIDTH c >= CELL_SIZE c)
  then Some "Your border is the size of your cells - this is really ugly and probably won't work...please fix this!"
  else if bool_decide (CELL_SIZE c < 4)
  then Some "The cell size is awfully small - please make it bigger?"
  else None.

Definition ICanHazErrors : JS bool :=
  do g <- get ;
  match config_error (config g) with
  | Some message => exec alert message ; ret true
  | None => ret false
  end.

Definition GetNeighbors (c : Config) (w h : Z) : list (Z * Z) :=
  (if decide (h ≠ 0) then [(w, h - 1)] else []) ++
  (if decide (w < WIDTH c - 1) then [(w + 1, h)] else []) ++
  (if decide (h < HEIGHT c - 1) then [(w, h + 1)] else []) ++
  (if decide (w ≠ 0) then [(w - 1, h)] else []).

(** One round of the loop of [ShuffleNeighbors]: the entries at [i] and at
    [random_index] trade their contents. *)
Definition swap_entries (i random_index : nat) (neighbors : list (Z * Z)) : list (Z * Z) :=
  let temp_array := neighbors !!! i in
  let neighbors := <[i := neighbors !!! random_index]> neighbors in
  <[random_index := temp_array]> neighbors.

Fixpoint ShuffleNeighbors_from (R : nat -> nat) (rounds i : nat)
    (neighbors : list (Z * Z)) : JS (list (Z * Z)) :=
  match rounds with
  | O => ret neighbors
  | S rounds' =>
      do random_index <- random_below R (length neighbors) ;
      ShuffleNeighbors_from R rounds' (S i) (swap_entries i random_index neighbors)
  end.

Definition ShuffleNeighbors (R : nat -> nat) (neighbors : list (Z * Z)) : JS (list (Z * Z)) :=
  ShuffleNeighbors_from R (length neighbors) 0 neighbors.

Definition RemoveWall (w h : Z) (neighbor : Z * Z) : JS unit :=
  if decide (neighbor.2 < h) then
    exec update_cell w h (set_wall 0 0) ;
    update_cell neighbor.1 neighbor.2 (set_wall 2 0)
  else if decide (neighbor.2 > h) then
    exec update_cell w h (set_wall 2 0) ;
    update_cell neighbor.1 neighbor.2 (set_wall 0 0)
  else if decide (neighbor.1 > w) then
    exec update_cell w h (set_wall 1 0) ;
    update_cell neighbor.1 neighbor.2 (set_wall 3 0)
  else if decide (neighbor.1 < w) then
    exec update_cell w h (set_wall 3 0) ;
    update_cell neighbor.1 neighbor.2 (set_wall 1 0)
  else ret tt.

Fixpoint GenerateMaze (R : nat -> nat) (fuel : nat) (w h : Z) : JS unit :=
  match fuel with
  | O => out_of_fuel
  | S fuel' =>
      exec update_cell w h (set_visited true) ;
      do g <- get ;
      let neighbors_unshuffled := GetNeighbors (config g) w h in
      do neighbors <- ShuffleNeighbors R neighbors_unshuffled ;
      for_each (fun n =>
        do c <- cell_at n.1 n.2 ;
        if visited c then ret tt
        else exec RemoveWall w h n ; GenerateMaze R fuel' n.1 n.2) neighbors
  end.

Definition InstallDoors : JS unit :=
  do g <- get ;
  let c := config g in
  exec (if decide (ENTER c = 0) then update_cell (ENTRANCE_X c) (ENTRANCE_Y c) (set_wall 0 0) else ret tt) ;
  exec (if decide (ENTER c = 1) then update_cell (ENTRANCE_X c) (ENTRANCE_Y c) (set_wall 1 0) else ret tt) ;
  exec (if decide (ENTER c = 2) then update_cell (ENTRANCE_X c) (ENTRANCE_Y c) (set_wall 2 0) else ret tt) ;
  exec (if decide (ENTER c = 3) then update_cell (ENTRANCE_X c) (ENTRANCE_Y c) (set_wall 3 0) else ret tt) ;
  exec (if decide (EXIT c = 0) then update_cell (STARTING_X c) (STARTING_Y c) (set_wall 0 0) else ret tt) ;
  exec (if decide (EXIT c = 1) then update_cell (STARTING_X c) (STARTING_Y c) (set_wall 1 0) else ret tt) ;
  exec (if decide (EXIT c = 2) then update_cell (STARTING_X c) (STARTING_Y c) (set_wall 2 0) else ret tt) ;
  (if decide (EXIT c = 3) then update_cell (STARTING_X c) (STARTING_Y c) (set_wall 3 0) else ret tt).

(** ** maze.js: solving *)

(** One test of [GetNeighborAccess]:
    [Maze[x][y][k] == 0 && inside && Maze[nx][ny][4] == false], evaluated
    left to right with [&&] cutting short. *)
Definition can_go (x y k : Z) (inside : bool) (nx ny : Z) : JS bool :=
  do c <- cell_at x y ;
  if bool_decide (wall c k = 0) && inside then
    do n <- cell_at nx ny ;
    ret (negb (visited n))
  else ret false.

Definition GetNeighborAccess (x y : Z) : JS (list (Z * Z)) :=
  do g <- get ;
  let c := config g in
  do up <- can_go x y 0 (bool_decide (y ≠ 0)) x (y - 1) ;
  do right <- can_go x y 1 (bool_decide (x ≠ WIDTH c - 1)) (x + 1) y ;
  do down <- can_go x y 2 (bool_decide (y ≠ HEIGHT c - 1)) x (y + 1) ;
  do left <- can_go x y 3 (bool_decide (x ≠ 0)) (x - 1) y ;
  ret ((if up then [(x, y - 1)] else []) ++
       (if right then [(x + 1, y)] else []) ++
       (if down then [(x, y + 1)] else []) ++
       (if left then [(x - 1, y)] else [])).

(** [Solution_List.push(new Array(x, y))] *)
Definition push_solution (x y : Z) : JS unit :=
  modify (fun g => set_Solution_List (Solution_List g ++ [(x, y)]) g).

(** The [for] loop of [Solver(x, y)] over the accessible neighbours; [solve]
    is the recursive call. *)
Fixpoint Solver_loop (solve : Z -> Z -> JS bool) (x y : Z)
    (neighbors : list (Z * Z)) : JS bool :=
  match neighbors with
  | [] => ret false
  | n :: rest =>
      do found <- solve n.1 n.2 ;
      if found then
        exec push_solution x y ;
        exec modify (fun g => set_Steps_to_Solve (Steps_to_Solve g + 1) g) ;
        ret true
      else Solver_loop solve x y rest
  end.

Fixpoint Solver (fuel : nat) (x y : Z) : JS bool :=
  match fuel with
  | O => out_of_fuel
  | S fuel' =>
      do g <- get ;
      if bool_decide (x = STARTING_X (config g)) && bool_decide (y = STARTING_Y (config g)) then
        exec push_solution x y ;
        ret true
      else
        exec update_cell x y (set_visited true) ;
        do neighbors <- GetNeighborAccess x y ;
        Solver_loop (Solver fuel') x y neighbors
  end.

(** [SolveMaze]; it drops what [Solver] returns.  The drawing of the answer
    page is left out. *)
Definition SolveMaze (fuel : nat) : JS unit :=
  do g <- get ;
  let c := config g in
  exec reset_visited (WIDTH c) (HEIGHT c) ;
  do found <- Solver fuel (ENTRANCE_X c) (ENTRANCE_Y c) ;
  ret tt.

(** The first loop of [LoadMaze]: every cell gets four walls and no mark. *)
Definition fill_Maze (width height : Z) : JS unit :=
  for_each (fun i =>
    for_each (fun j =>
      modify (fun g => set_Maze (<[(i, j) := fresh_cell]> (Maze g)) g))
      (upto height))
    (upto width).

(** What [LoadMaze] has read into the configuration globals when it reaches
    [ICanHazErrors]. *)
Definition config_read (f : Form) (c : Config) : Config :=
  set_sizes (dim_height f) (dim_width f) (cell_size f)
    (UpdateEWall f (GetExit f (GetEntrance f c))).

(** [LoadMaze].  The HTML drawing ([DrawMaze], [DrawMazeAnswer]) and the
    link buttons only render the state and are left out. *)
Definition LoadMaze (R : nat -> nat) (fuel : nat) (f : Form) : JS unit :=
  exec ResetValues ;
  exec modify (fun g => set_config (GetEntrance f (config g)) g) ;
  exec modify (fun g => set_config (GetExit f (config g)) g) ;
  exec modify (fun g => set_config (UpdateEWall f (config g)) g) ;
  exec modify (fun g =>
         set_config (set_sizes (dim_height f) (dim_width f) (cell_size f) (config g)) g) ;
  do errors <- ICanHazErrors ;
  if errors then ret tt
  else
    do g <- get ;
    let c := config g in
    exec fill_Maze (WIDTH c) (HEIGHT c) ;
    exec GenerateMaze R fuel (STARTING_X c) (STARTING_Y c) ;
    exec InstallDoors ;
    exec SolveMaze fuel ;
    alert "New Maze Generated!".

(** The globals as the script's top-level declarations leave them. *)
Definition initial_globals : Globals :=
  mkGlobals (mkConfig 40 40 (40 - 1) (40 - 1) 0 0 20 1 3 1) ∅ 0 [] [] 0.

(** [UpdateDims], the change handler of the two dimension boxes. *)
Definition UpdateDims (f : Form) : JS unit :=
  modify (fun g =>
    set_config (set_sizes (dim_height f) (dim_width f) (CELL_SIZE (config g)) (config g)) g).

End MazeJS.

(** ** solver.js: the interactive page *)

Module SolverJS.

(** What the page copies from [window.opener] when it loads. *)
Record Opener := mkOpener {
  Start_X : Z;            (* window.opener.ENTRANCE_X *)
  Start_Y : Z;
  End_X : Z;              (* window.opener.STARTING_X *)
  End_Y : Z;
  WIDTH : Z;
  HEIGHT : Z;
  Exit : Z;
  Enter : Z;
  Steps_to_Solve : Z;
  Solution_List : list (Z * Z)
}.

(** The table [ShowStats] writes into the [livestats] element. *)
Record EndingStatistics := mkEndingStatistics {
  total_move_count : Z;
  minimum_move_count : Z;
  percentage_of_accuracy : float;
  total_jump_count : Z
}.

(** The globals of the page.  [alerts] counts the "Congratulations!" alerts
    shown so far and [livestats] is what [ShowStats] last displayed. *)
Record Session := mkSession {
  opener : Opener;
  Maze : gmap (Z * Z) Cell;
  Current_Location : Z * Z;
  User_Moves : Z;
  User_Jumps : Z;
  alerts : nat;
  livestats : option EndingStatistics
}.

Definition set_Maze (m : gmap (Z * Z) Cell) (s : Session) : Session :=
  mkSession (opener s) m (Current_Location s) (User_Moves s) (User_Jumps s)
            (alerts s) (livestats s).
Definition set_Current_Location (p : Z * Z) (s : Session) : Session :=
  mkSession (opener s) (Maze s) p (User_Moves s) (User_Jumps s) (alerts s) (livestats s).
Definition set_User_Moves (n : Z) (s : Session) : Session :=
  mkSession (opener s) (Maze s) (Current_Location s) n (User_Jumps s) (alerts s) (livestats s).
Definition set_User_Jumps (n : Z) (s : Session) : Session :=
  mkSession (opener s) (Maze s) (Current_Location s) (User_Moves s) n (alerts s) (livestats s).
Definition set_alerts (n : nat) (s : Session) : Session :=
  mkSession (opener s) (Maze s) (Current_Location s) (User_Moves s) (User_Jumps s) n (livestats s).
Definition set_livestats (t : option EndingStatistics) (s : Session) : Session :=
  mkSession (opener s) (Maze s) (Current_Location s) (User_Moves s) (User_Jumps s) (alerts s) t.

Abbreviation JS := (M Session).

#[global] Instance Session_MazeStore : MazeStore Session :=
  {| the_Maze := Maze; with_Maze := set_Maze |}.

(** [document.getElementById(x + '_' + y).style]: the page holds one element
    per cell drawn by [DrawMaze], with ids [i_j] for [0 <= i < WIDTH] and
    [0 <= j < HEIGHT]; for any other id the lookup gives [null] and reading
    [.style] is a [TypeError]. *)
Definition cell_style (x y : Z) : JS unit :=
  fun s => if bool_decide (0 <= x < WIDTH (opener s) ∧ 0 <= y < HEIGHT (opener s))
           then Ret tt s else Throw s.

(** A JavaScript number as [parseFloat] of a non-negative integer counter
    gives it. *)
Definition parseFloat (n : Z) : float := PrimFloat.of_uint63 (Uint63.of_Z n).

(** [(parseFloat(Steps_to_Solve) / parseFloat(User_Moves)) * 100] *)
Definition accuracy (steps moves : Z) : float :=
  PrimFloat.mul (PrimFloat.div (parseFloat steps) (parseFloat moves)) (parseFloat 100).

Definition ShowStats : JS unit :=
  modify (fun s =>
    set_livestats
      (Some (mkEndingStatistics (User_Moves s) (Steps_to_Solve (opener s))
               (accuracy (Steps_to_Solve (opener s)) (User_Moves s)) (User_Jumps s))) s).

(** The colouring done by [ClearCurrentCell] only touches the style of the
    current cell's element. *)
Definition ClearCurrentCell : JS unit :=
  do s <- get ;
  cell_style (Current_Location s).1 (Current_Location s).2.

Definition UpdatePosition : JS unit :=
  do s <- get ;
  exec update_cell (Current_Location s).1 (Current_Location s).2 (set_visited true) ;
  cell_style (Current_Location s).1 (Current_Location s).2.

Definition CheckFinish (direction : Z) : JS bool :=
  do s <- get ;
  if bool_decide ((Current_Location s).1 = End_X (opener s))
     && bool_decide ((Current_Location s).2 = End_Y (opener s))
     && bool_decide (direction = Exit (opener s))
  then
    exec modify (fun s => set_alerts (S (alerts s)) s) ;
    exec modify (set_Current_Location (-1, -1)) ;
    exec ShowStats ;
    ret true
  else ret false.

Definition CheckStart (direction : Z) : JS bool :=
  do s <- get ;
  if bool_decide ((Current_Location s).1 = Start_X (opener s))
     && bool_decide ((Current_Location s).2 = Start_Y (opener s))
     && bool_decide (direction = Enter (opener s))
  then ret true
  else ret false.

(** The common shape of [MoveUp], [MoveDown], [MoveLeft] and [MoveRight]:
    [direction] is the wall slot tested and [(dx, dy)] the change of
    [Current_Location]. *)
Definition Move (direction dx dy : Z) : JS unit :=
  do start <- CheckStart direction ;
  if start then ret tt
  else
    do s <- get ;
    do c <- cell_at (Current_Location s).1 (Current_Location s).2 ;
    if bool_decide (wall c direction = 0) then
      exec ClearCurrentCell ;
      do finished <- CheckFinish direction ;
      if finished then ret tt
      else
        exec modify (fun s =>
               set_Current_Location ((Current_Location s).1 + dx, (Current_Location s).2 + dy) s) ;
        exec UpdatePosition ;
        modify (fun s => set_User_Moves (User_Moves s + 1) s)
    else ret tt.

Definition MoveUp : JS unit := Move 0 0 (-1).
Definition MoveDown : JS unit := Move 2 0 1.
Definition MoveLeft : JS unit := Move 3 (-1) 0.
Definition MoveRight : JS unit := Move 1 1 0.

(** [JumpHere(w + '_' + h)] *)
Definition JumpHere (w h : Z) : JS unit :=
  do c <- cell_at w h ;
  if visited c then
    exec ClearCurrentCell ;
    exec modify (set_Current_Location (w, h)) ;
    exec UpdatePosition ;
    modify (fun s => set_User_Jumps (User_Jumps s + 1) s)
  else ret tt.

(** The top-level code of the page: copy the opener's values, reset every
    visited flag, then [Start()]. *)
Definition page_load_globals (g : MazeJS.Globals) : Session :=
  let c := MazeJS.config g in
  mkSession
    (mkOpener (MazeJS.ENTRANCE_X c) (MazeJS.ENTRANCE_Y c)
              (MazeJS.STARTING_X c) (MazeJS.STARTING_Y c)
              (MazeJS.WIDTH c) (MazeJS.HEIGHT c) (MazeJS.EXIT c) (MazeJS.ENTER c)
              (MazeJS.Steps_to_Solve g) (MazeJS.Solution_List g))
    (MazeJS.Maze g)
    (MazeJS.ENTRANCE_X c, MazeJS.ENTRANCE_Y c)
    0 0 0 None.

Definition Start : JS unit := UpdatePosition.

Definition page_load : JS unit :=
  do s <- get ;
  exec reset_visited (WIDTH (opener s)) (HEIGHT (opener s)) ;
  Start.

(** ** solver.js: the session as a transition system *)

(** The four move keys and a click on the cell with id [w_h]. *)
Inductive Input := KeyW | KeyS | KeyA | KeyD | Click (w h : Z).

Definition handler (i : Input) : JS unit :=
  match i with
  | KeyW => MoveUp
  | KeyS => MoveDown
  | KeyA => MoveLeft
  | KeyD => MoveRight
  | Click w h => JumpHere w h
  end.

(** The globals after a piece of code ran, whether it completed or stopped
    at an uncaught exception. *)
Definition after {A} (m : JS A) (s : Session) : Session :=
  match m s with
  | Ret _ s' => s'
  | Throw s' => s'
  | OutOfFuel => s
  end.

Definition step (s : Session) (i : Input) : Session := after (handler i) s.

Definition play (s : Session) (inputs : list Input) : Session := foldl step s inputs.

(** [move(direction)] by wall slot: 0 up, 1 right, 2 down, 3 left. *)
Definition move (direction : Z) : JS unit :=
  if decide (direction = 0) then MoveUp
  else if decide (direction = 1) then MoveRight
  else if decide (direction = 2) then MoveDown
  else MoveLeft.

End SolverJS.

(** * Specification vocabulary *)

(** The cells of a [width] by [height] grid. *)
Definition in_grid (width height : Z) (p : Z * Z) : Prop :=
  0 <= p.1 < width ∧ 0 <= p.2 < height.

#[global] Instance in_grid_dec width height p : Decision (in_grid width height p).
Proof. unfold in_grid. apply _. Defined.

(** The array holds exactly the cells of the grid. *)
Definition grid_array (width height : Z) (m : gmap (Z * Z) Cell) : Prop :=
  ∀ p, is_Some (m !! p) ↔ in_grid width height p.

(** The coordinate one step away through wall slot [k]
    (0 up, 1 right, 2 down, 3 left). *)
Definition toward (p : Z * Z) (k : Z) : Z * Z :=
  if decide (k = 0) then (p.1, p.2 - 1)
  else if decide (k = 1) then (p.1 + 1, p.2)
  else if decide (k = 2) then (p.1, p.2 + 1)
  else (p.1 - 1, p.2).

(** The slot of the wall on the other side: 0 and 2, 1 and 3. *)
Definition opposite (k : Z) : Z :=
  if decide (k = 0) then 2
  else if decide (k = 1) then 3
  else if decide (k = 2) then 0
  else 1.

(** Wall slot [k] of the cell at [p] holds 0. *)
Definition open_side (m : gmap (Z * Z) Cell) (p : Z * Z) (k : Z) : Prop :=
  ∃ c, m !! p = Some c ∧ wall c k = 0.

(** The cell at [p] carries the visited mark. *)
Definition marked (m : gmap (Z * Z) Cell) (p : Z * Z) : Prop :=
  ∃ c, m !! p = Some c ∧ visited c = true.

#[global] Instance open_side_dec m p k : Decision (open_side m p k).
Proof.
  unfold open_side. destruct (m !! p) as [c|].
  - destruct (decide (wall c k = 0)); [left; eauto|right; intros (? & [= <-] & ?); done].
  - right. by intros (? & ? & ?).
Defined.

#[global] Instance marked_dec m p : Decision (marked m p).
Proof.
  unfold marked. destruct (m !! p) as [c|].
  - destruct (visited c) eqn:Hv; [left; eauto|right; intros (? & [= <-] & ?); congruence].
  - right. by intros (? & ? & ?).
Defined.

(** The wall between [p] and its neighbour [q] is removed: the two slots
    that face each other both hold 0, as [RemoveWall] leaves them. *)
Definition passage (m : gmap (Z * Z) Cell) (p q : Z * Z) : Prop :=
  ∃ k, 0 <= k <= 3 ∧ q = toward p k ∧ open_side m p k ∧ open_side m q (opposite k).

(** [q] is a cell next to [p] that [GetNeighborAccess] looks at from [p]:
    the slot of [p] facing [q] holds 0. *)
Definition access (m : gmap (Z * Z) Cell) (p q : Z * Z) : Prop :=
  ∃ k, 0 <= k <= 3 ∧ q = toward p k ∧ open_side m p k ∧ is_Some (m !! q).

(** [walk E p l q]: [l] lists the cells of a walk from [p] to [q], both ends
    included, each step along [E]. *)
Inductive walk {V : Type} (E : V → V → Prop) : V → list V → V → Prop :=
| walk_one p : walk E p [p] p
| walk_step p q l r : E p q → walk E q l r → walk E p (p :: l) r.

(** The cells of the grid, column by column. *)
Definition cells (width height : Z) : list (Z * Z) :=
  list_prod (upto width) (upto height).

(** The walls between two cells of the grid, each named by the cell on its
    left (slot 1) or above it (slot 2). *)
Definition internal_walls (width height : Z) : list ((Z * Z) * Z) :=
  ((λ p, (p, 1)) <$> cells (width - 1) height) ++
  ((λ p, (p, 2)) <$> cells width (height - 1)).

Definition wall_removed (m : gmap (Z * Z) Cell) (w : (Z * Z) * Z) : Prop :=
  open_side m w.1 w.2 ∧ open_side m (toward w.1 w.2) (opposite w.2).

#[global] Instance wall_removed_dec m w : Decision (wall_removed m w).
Proof. unfold wall_removed. apply _. Defined.

(** How many internal walls are removed. *)
Definition removed_walls (width height : Z) (m : gmap (Z * Z) Cell) : nat :=
  length (filter (wall_removed m) (internal_walls width height)).

(** How many cells of the grid bear the visited mark, and how many do not. *)
Definition marked_cells (width height : Z) (m : gmap (Z * Z) Cell) : nat :=
  length (filter (marked m) (cells width height)).
Definition unmarked_cells (width height : Z) (m : gmap (Z * Z) Cell) : nat :=
  length (filter (λ p, ¬ marked m p) (cells width height)).

(** Exactly one walk without repeated cells leads from [p] to [q]. *)
Definition one_simple_path (m : gmap (Z * Z) Cell) (p q : Z * Z) : Prop :=
  ∃ l, (walk (passage m) p l q ∧ NoDup l) ∧
       ∀ l', walk (passage m) p l' q → NoDup l' → l' = l.

(** The state of the array while [GenerateMaze] runs: the marked cells and
    the removed walls form a tree. *)
Record carving (width height : Z) (m : gmap (Z * Z) Cell) : Prop := {
  carving_grid : grid_array width height m;
  carving_paired :
    ∀ p k, 0 <= k <= 3 → open_side m p k → open_side m (toward p k) (opposite k);
  carving_marked : ∀ p k, 0 <= k <= 3 → open_side m p k → marked m p;
  carving_count : marked_cells width height m = S (removed_walls width height m);
  carving_paths : ∀ p q, marked m p → marked m q → one_simple_path m p q
}.

(** Two arrays that differ in visited marks only. *)
Definition same_walls (m m' : gmap (Z * Z) Cell) : Prop :=
  ∀ p, set_visited false <$> m !! p = set_visited false <$> m' !! p.

(** *** Vocabulary for the generated maze *)

Module Generated.
Import MazeJS.

Definition entrance_cell (c : Config) : Z * Z := (ENTRANCE_X c, ENTRANCE_Y c).
Definition exit_cell (c : Config) : Z * Z := (STARTING_X c, STARTING_Y c).

(** The configuration passes [ICanHazErrors], both corner cells are cells of
    the grid, and the entrance opening is cut in the outer boundary, as with
    every choice the entrance wall menu offers. *)
Definition can_generate (c : Config) : Prop :=
  config_error c = None ∧
  in_grid (WIDTH c) (HEIGHT c) (entrance_cell c) ∧
  in_grid (WIDTH c) (HEIGHT c) (exit_cell c) ∧
  ¬ in_grid (WIDTH c) (HEIGHT c) (toward (entrance_cell c) (ENTER c)).

#[global] Instance can_generate_dec c : Decision (can_generate c).
Proof. unfold can_generate. apply _. Defined.

(** The globals when [LoadMaze] reaches [ICanHazErrors]. *)
Definition globals_read (f : Form) (g : Globals) : Globals :=
  mkGlobals (config_read f (config g)) ∅ 0 [] (alerts g) (random_calls g).

(** The part of [LoadMaze] between [ICanHazErrors] and [SolveMaze]. *)
Definition carve (R : nat → nat) (fuel : nat) : JS unit :=
  do g <- get ;
  let c := config g in
  exec fill_Maze (WIDTH c) (HEIGHT c) ;
  exec GenerateMaze R fuel (STARTING_X c) (STARTING_Y c) ;
  InstallDoors.

End Generated.

(** *** Vocabulary for the shuffle *)

Module Shuffle.
Import MazeJS.

(** Every sequence of [k] draws, each one of 0 .. n-1. *)
Fixpoint draw_sequences (n k : nat) : list (list nat) :=
  match k with
  | O => [[]]
  | S k' => ds ← draw_sequences n k'; (λ d, d :: ds) <$> seq 0 n
  end.

(** The list [ShuffleNeighbors] returns when [Math.random] produces the
    indices [draws], in this order. *)
Definition ShuffleNeighbors_with (draws : list nat) (neighbors : list (Z * Z)) : list (Z * Z) :=
  match ShuffleNeighbors (λ k, nth k draws 0%nat) neighbors initial_globals with
  | Ret l _ => l
  | _ => neighbors
  end.

(** With each of the n draws uniform on 0 .. n-1 and independent, all n^n
    sequences of draws are equally likely; [ways neighbors target] counts the
    sequences that produce [target], so the probability of [target] is
    [ways neighbors target / n^n]. *)
Definition ways (neighbors target : list (Z * Z)) : nat :=
  length (filter (λ draws, ShuffleNeighbors_with draws neighbors = target)
                 (draw_sequences (length neighbors) (length neighbors))).

(** Every arrangement of the list comes out with the same probability. *)
Definition unbiased (neighbors : list (Z * Z)) : Prop :=
  ∀ p q, p ≡ₚ neighbors → q ≡ₚ neighbors → ways neighbors p = ways neighbors q.

End Shuffle.

Module Play.
Import SolverJS.

(** The session is over: [CheckFinish] has put the sentinel in
    [Current_Location]. *)
Definition Finished (s : Session) : Prop := Current_Location s = (-1, -1).

(** The session plays on a grid: the array holds exactly the cells that
    have an element on the page. *)
Definition on_grid (s : Session) : Prop :=
  grid_array (WIDTH (opener s)) (HEIGHT (opener s)) (Maze s).

Definition start_cell (s : Session) : Z * Z := (Start_X (opener s), Start_Y (opener s)).
Definition end_cell (s : Session) : Z * Z := (End_X (opener s), End_Y (opener s)).

(** What holds of a session as long as no move was counted: the player is
    on the entrance cell, or was carried off the grid by a step that then
    failed, and no cell but the entrance bears the visited mark. *)
Definition not_moved_yet (s : Session) : Prop :=
  Current_Location s ≠ (-1, -1) ∧
  (in_grid (WIDTH (opener s)) (HEIGHT (opener s)) (Current_Location s) →
   Current_Location s = start_cell s) ∧
  (∀ p, marked (Maze s) p → p = start_cell s).

Definition session_inv (s : Session) : Prop :=
  on_grid s ∧
  in_grid (WIDTH (opener s)) (HEIGHT (opener s)) (start_cell s) ∧
  start_cell s ≠ end_cell s ∧
  0 <= User_Moves s ∧
  (User_Moves s = 0 → not_moved_yet s).


(** One of the four unit steps. *)
Definition unit_step (dx dy : Z) : Prop :=
  (dx = 0 ∧ (dy = 1 ∨ dy = -1)) ∨ (dy = 0 ∧ (dx = 1 ∨ dx = -1)).

End Play.

(** *** Pages used as examples *)

Module Pages.
Import MazeJS.

(** The globals after a handler of the generator page ran. *)
Definition page_after {A} (m : JS A) (g : Globals) : Globals :=
  match m g with
  | Ret _ g' => g'
  | Throw g' => g'
  | OutOfFuel => g
  end.

(** Entrance at the top-left corner through its left wall, exit at the
    bottom-right corner through its right wall, 2 cells wide and 1 high. *)
Definition form_2x1 : Form := mkForm "tl" "br" 3 1 2 1 10.

(** The exit menu as the page first shows it, with its second option
    chosen: the option is labelled Bottom Wall and its value is 3. *)
Definition form_2x2_bottom_wall : Form := mkForm "tl" "br" 3 3 2 2 10.


(** The page once [UpdateDims] has read the dimension boxes of the form. *)
Definition page (f : Form) : Globals := page_after (UpdateDims f) initial_globals.

(** Two runs of [Math.random]: every draw picks index 0; the k-th draw
    picks index k modulo the length. *)
Definition always_first : nat → nat := λ _, 0%nat.
Definition counting : nat → nat := λ k, k.

(** The page after the Generate button was pressed. *)
Definition generated (R : nat → nat) (fuel : nat) (f : Form) : Globals :=
  page_after (LoadMaze R fuel f) (page f).

(** The play window opened on the page, once it has loaded. *)
Definition session (g : Globals) : SolverJS.Session :=
  SolverJS.after SolverJS.page_load (SolverJS.page_load_globals g).

(** A 3 by 3 configuration. *)
Definition config_3x3 : Config := mkConfig 3 3 2 2 0 0 10 1 3 1.

End Pages.

(** ** maze.js: the handlers of the form *)

Module MazePage.
Import MazeJS.

(** The options of a wall menu, in order: value and label. *)
Definition Options : Type := list (Z * string).

(** The values of the options of the two corner menus, as
    [HTML_ENTRANCE_INPUT] and [HTML_EXIT_INPUT] write them. *)
Definition HTML_ENTRANCE_INPUT_corners : list string := ["tl"; "tr"; "br"; "bl"].
Definition HTML_EXIT_INPUT_corners : list string := ["br"; "bl"; "tr"; "Tl"].

(** [UpdateEntrance(location)]: the entrance globals and the options of the
    [wall_entrance] menu, which the handler empties first. *)
Definition UpdateEntrance (location : string) (c : Config) : Config * Options :=
  let page := (c, []) in
  let page :=
    if decide (location = "tl")
    then (set_ENTRANCE 0 0 page.1, [(3, "Left Wall"); (0, "Top Wall")])
    else page in
  let page :=
    if decide (location = "tr")
    then (set_ENTRANCE (WIDTH page.1 - 1) 0 page.1, [(1, "Right Wall"); (0, "Top Wall")])
    else page in
  let page :=
    if decide (location = "br")
    then (set_ENTRANCE (WIDTH page.1 - 1) (HEIGHT page.1 - 1) page.1,
          [(1, "Right Wall"); (2, "Bottom Wall")])
    else page in
  let page :=
    if decide (location = "bl")
    then (set_ENTRANCE 0 (HEIGHT page.1 - 1) page.1, [(3, "Left Wall"); (2, "Bottom Wall")])
    else page in
  page.

(** [UpdateExit(location)], the same for the exit. *)
Definition UpdateExit (location : string) (c : Config) : Config * Options :=
  let page := (c, []) in
  let page :=
    if decide (location = "tl")
    then (set_STARTING 0 0 page.1, [(3, "Left Wall"); (0, "Top Wall")])
    else page in
  let page :=
    if decide (location = "tr")
    then (set_STARTING (WIDTH page.1 - 1) 0 page.1, [(1, "Right Wall"); (0, "Top Wall")])
    else page in
  let page :=
    if decide (location = "br")
    then (set_STARTING (WIDTH page.1 - 1) (HEIGHT page.1 - 1) page.1,
          [(1, "Right Wall"); (2, "Bottom Wall")])
    else page in
  let page :=
    if decide (location = "bl")
    then (set_STARTING 0 (HEIGHT page.1 - 1) page.1, [(3, "Left Wall"); (2, "Bottom Wall")])
    else page in
  page.

(** [CheckValue(element)], on the characters of [element.value]. *)
Definition Valid : list Ascii.ascii := String.list_ascii_of_string "0123456789".

(** [value.replace(ch, '')] for a string [ch] of one character: its first
    occurrence goes. *)
Fixpoint replace_first (ch : Ascii.ascii) (value : list Ascii.ascii) : list Ascii.ascii :=
  match value with
  | [] => []
  | a :: rest => if decide (a = ch) then rest else a :: replace_first ch rest
  end.

(** The loop of [CheckValue] from index [i] on.  It ends when [i] reaches
    [value.length]; the value never grows, so with [rounds] at least the
    length minus [i] the rounds never run out first. *)
Fixpoint CheckValue_from (rounds i : nat) (value : list Ascii.ascii) : list Ascii.ascii :=
  match rounds with
  | O => value
  | S rounds' =>
      match value !! i with
      | None => value
      | Some ch =>
          CheckValue_from rounds' (S i)
            (if decide (ch ∈ Valid) then value else replace_first ch value)
      end
  end.

Definition CheckValue (value : list Ascii.ascii) : list Ascii.ascii :=
  CheckValue_from (length value) 0 value.

(** [IsAnswer(x, y)], on the list it searches. *)
Fixpoint IsAnswer_in (Solution_List : list (Z * Z)) (x y : Z) : bool :=
  match Solution_List with
  | [] => false
  | entry :: rest =>
      if bool_decide (entry.1 = x) && bool_decide (entry.2 = y) then true
      else IsAnswer_in rest x y
  end.

Definition IsAnswer (x y : Z) : JS bool :=
  do g <- get ; ret (IsAnswer_in (Solution_List g) x y).

End MazePage.

(** ** solver.js: keys, split-offs and the answer *)

Module SolverPage.
Import SolverJS.

(** [CountOpenings(w, h)]: the loop over the four wall slots. *)
Fixpoint CountOpenings_from (w h count : Z) (slots : list Z) : JS Z :=
  match slots with
  | [] => ret count
  | i :: rest =>
      do c <- cell_at w h ;
      CountOpenings_from w h (if bool_decide (wall c i = 0) then count + 1 else count) rest
  end.

Definition CountOpenings (w h : Z) : JS Z := CountOpenings_from w h 0 (upto 4).

(** [IsAnswer(x, y)] of the play page. *)
Definition IsAnswer (x y : Z) : JS bool :=
  do s <- get ; ret (MazePage.IsAnswer_in (Solution_List (opener s)) x y).

(** The values [keyDown] compares: numbers, and strings as lists of UTF-16
    code units. *)
Inductive Value := Number (n : Z) | Text (units : list Z).

#[global] Instance Value_eq_dec : EqDecision Value.
Proof. solve_decision. Defined.

(** [a === b], as the [switch] statement compares. *)
Definition strict_equal (a b : Value) : bool := bool_decide (a = b).

(** [String.fromCharCode(keycode)]; [None] is [undefined]. *)
Definition String_fromCharCode (keycode : option Z) : Value :=
  match keycode with
  | Some n => Text [n mod 65536]
  | None => Text [0]
  end.

(** The two fields of the event that [keyDown] reads. *)
Record KeyEvent := mkKeyEvent { keyCode : Z; which : Z }.

(** [keyDown(event)]; [window_event] tells whether [window.event] is set. *)
Definition keyDown (window_event : bool) (event : KeyEvent) : JS unit :=
  let keycode :=
    if window_event then Some (keyCode event)
    else if bool_decide (which event ≠ 0) then Some (which event)
    else None in
  let keycode := String_fromCharCode keycode in
  if strict_equal keycode (Number 38) || strict_equal keycode (Text [119]) then MoveUp
  else if strict_equal keycode (Number 40) || strict_equal keycode (Text [115]) then MoveDown
  else if strict_equal keycode (Number 37) || strict_equal keycode (Text [97]) then MoveLeft
  else if strict_equal keycode (Number 39) || strict_equal keycode (Text [100]) then MoveRight
  else ret tt.

End SolverPage.

(** *** Vocabulary for the form *)

Module Menus.
Import MazeJS MazePage.

(** The wall a slot number stands for. *)
Definition wall_name (k : Z) : string :=
  if decide (k = 0) then "Top Wall"
  else if decide (k = 1) then "Right Wall"
  else if decide (k = 2) then "Bottom Wall"
  else "Left Wall".

(** The four corners the handlers know. *)
Definition corners : list string := ["tl"; "tr"; "br"; "bl"].

(** A form as the page holds it once [UpdateDims], [UpdateEntrance] and
    [UpdateExit] have followed the user's choices: the corner codes are
    handled ones and each wall is an option of the refreshed menu. *)
Definition refreshed (f : Form) (c : Config) : Prop :=
  WIDTH c = dim_width f ∧ HEIGHT c = dim_height f ∧
  entrance f ∈ corners ∧ exit f ∈ corners ∧
  wall_entrance f ∈ (UpdateEntrance (entrance f) c).2.*1 ∧
  wall_exit f ∈ (UpdateExit (exit f) c).2.*1.

End Menus.

(** * Proofs *)

Ltac unfold_monad :=
  unfold bind, ret, get, modify, throw, out_of_fuel in *.

#[global] Instance Globals_MazeStoreLaws : MazeStoreLaws MazeJS.Globals.
Proof. split; [done | done | by intros []]. Qed.

#[global] Instance Session_MazeStoreLaws : MazeStoreLaws SolverJS.Session.
Proof. split; [done | done | by intros []]. Qed.

(** ** Walks, and what attaching a leaf does to them *)

Section Walks.
Context {V : Type} `{EqDecision V}.
Implicit Types (E : V → V → Prop) (p q r : V) (l : list V).

Lemma walk_head E p l q : walk E p l q → ∃ l', l = p :: l'.
Proof. destruct 1; eauto. Qed.

Lemma walk_first_in E p l q : walk E p l q → p ∈ l.
Proof. intros Hw. destruct (walk_head _ _ _ _ Hw) as [l' ->]. left. Qed.

Lemma walk_last_in E p l q : walk E p l q → q ∈ l.
Proof. induction 1; [left|by right]. Qed.

Lemma walk_last E p l q : walk E p l q → last l = Some q.
Proof.
  induction 1 as [|p q l r HE Hw IH]; [done|].
  destruct (walk_head _ _ _ _ Hw) as [l' ->]. done.
Qed.

Lemma walk_mono E E' p l q :
  (∀ x y, E x y → E' x y) → walk E p l q → walk E' p l q.
Proof. intros HE. induction 1; [constructor|econstructor; eauto]. Qed.

Lemma walk_snoc E p l q r : walk E p l q → E q r → walk E p (l ++ [r]) r.
Proof.
  intros Hw HE. induction Hw as [p|p x l q HE' Hw IH]; simpl.
  - econstructor; [done|constructor].
  - econstructor; eauto.
Qed.

Lemma walk_reverse E p l q :
  (∀ x y, E x y → E y x) → walk E p l q → walk E q (reverse l) p.
Proof.
  intros Hsym. induction 1 as [p|p x l q HE Hw IH]; [constructor|].
  rewrite reverse_cons. eapply walk_snoc; eauto.
Qed.

(** Growing the edge relation [E] into [E'] by one edge between an old
    vertex [a] and a vertex [n] that has no edge yet. *)
Section Leaf.
Variables (E E' : V → V → Prop) (a n : V).
Hypothesis E_sym : ∀ x y, E x y → E y x.
Hypothesis fresh_l : ∀ x, ¬ E n x.
Hypothesis fresh_r : ∀ x, ¬ E x n.
Hypothesis a_old : a ≠ n.
Hypothesis E'_spec : ∀ x y, E' x y ↔ E x y ∨ (x = a ∧ y = n) ∨ (x = n ∧ y = a).

Lemma leaf_sym x y : E' x y → E' y x.
Proof. rewrite !E'_spec. intros [?|[[-> ->]|[-> ->]]]; auto. Qed.

Lemma leaf_from_fresh x : E' n x → x = a.
Proof. rewrite E'_spec. intros [?|[[? ?]|[_ ->]]]; [by destruct (fresh_l x)|done|done]. Qed.

Lemma leaf_to_fresh x : E' x n → x = a.
Proof. intros Hx. by apply leaf_from_fresh, leaf_sym. Qed.

Lemma walk_old_avoids p l q : walk E p l q → p ≠ n → n ∉ l.
Proof.
  induction 1 as [p|p x l q HE Hw IH]; intros Hp.
  - by intros ->%list_elem_of_singleton.
  - intros [->|Hin]%elem_of_cons; [done|].
    apply IH; [|done]. intros ->. by destruct (fresh_r p).
Qed.

Lemma walk_avoiding p l q : walk E' p l q → n ∉ l → walk E p l q.
Proof.
  induction 1 as [p|p x l q HE Hw IH]; intros Hn; [constructor|].
  apply not_elem_of_cons in Hn as [Hp Hn].
  econstructor; [|by apply IH].
  apply E'_spec in HE as [?|[[_ ->]|[-> _]]]; [done| |done].
  destruct Hn. by eapply walk_first_in.
Qed.

(** A walk without repeats that meets the leaf stops there. *)
Lemma walk_meets_leaf p l q :
  walk E' p l q → NoDup l → p ≠ n → n ∈ l → q = n.
Proof.
  induction 1 as [p|p x l q HE Hw IH]; intros Hnd Hp Hin.
  - by apply list_elem_of_singleton in Hin.
  - apply NoDup_cons in Hnd as [Hpl Hnd].
    apply elem_of_cons in Hin as [->|Hin]; [done|].
    destruct (decide (x = n)) as [->|Hx]; [|by apply IH].
    inversion Hw as [|? y l' ? HE' Hw']; subst; [done|].
    apply leaf_from_fresh in HE'. apply leaf_to_fresh in HE. subst.
    destruct Hpl. right. by eapply walk_first_in.
Qed.

Lemma walk_from_leaf q l :
  walk E' n l q → NoDup l →
  (l = [n] ∧ q = n) ∨ ∃ l', l = n :: l' ∧ walk E a l' q ∧ NoDup l'.
Proof.
  intros Hw Hnd. inversion Hw as [|? x l' ? HE Hw']; subst; [by left|right].
  apply NoDup_cons in Hnd as [Hn Hnd]. apply leaf_from_fresh in HE as ->.
  exists l'. split; [done|]. split; [|done]. by apply walk_avoiding.
Qed.

Hypothesis E_unique :
  ∀ p q l1 l2, walk E p l1 q → walk E p l2 q → NoDup l1 → NoDup l2 → l1 = l2.

Lemma leaf_unique_from_leaf q l1 l2 :
  walk E' n l1 q → walk E' n l2 q → NoDup l1 → NoDup l2 → l1 = l2.
Proof.
  intros Hw1 Hw2 Hnd1 Hnd2.
  destruct (walk_from_leaf _ _ Hw1 Hnd1) as [[-> ->]|(l1' & -> & Hw1' & Hnd1')];
  destruct (walk_from_leaf _ _ Hw2 Hnd2) as [[-> Hq]|(l2' & -> & Hw2' & Hnd2')].
  - done.
  - apply NoDup_cons in Hnd2 as [Hn _]. destruct Hn. by eapply walk_last_in.
  - subst q. apply NoDup_cons in Hnd1 as [Hn _]. destruct Hn. by eapply walk_last_in.
  - f_equal. by eapply E_unique.
Qed.

Lemma leaf_unique p q l1 l2 :
  walk E' p l1 q → walk E' p l2 q → NoDup l1 → NoDup l2 → l1 = l2.
Proof.
  intros Hw1 Hw2 Hnd1 Hnd2.
  destruct (decide (p = n)) as [->|Hp]; [by eapply leaf_unique_from_leaf|].
  destruct (decide (q = n)) as [->|Hq].
  - apply (inj reverse). eapply leaf_unique_from_leaf.
    + eapply walk_reverse; [apply leaf_sym|done].
    + eapply walk_reverse; [apply leaf_sym|done].
    + by rewrite reverse_Permutation.
    + by rewrite reverse_Permutation.
  - eapply E_unique; [| |done|done]; apply walk_avoiding; try done.
    + intros Hin. by apply Hq, (walk_meets_leaf p l1).
    + intros Hin. by apply Hq, (walk_meets_leaf p l2).
Qed.

Variable old : V → Prop.
Hypothesis old_a : old a.
Hypothesis old_not_fresh : ¬ old n.
Hypothesis E_connected : ∀ p q, old p → old q → ∃ l, walk E p l q ∧ NoDup l.

Lemma leaf_grows x y : E x y → E' x y.
Proof. rewrite E'_spec. auto. Qed.

Lemma leaf_connected p q :
  old p ∨ p = n → old q ∨ q = n → ∃ l, walk E' p l q ∧ NoDup l.
Proof.
  intros [Hp| ->] [Hq| ->].
  - destruct (E_connected p q Hp Hq) as (l & Hw & Hnd). exists l. split; [|done].
    eapply walk_mono; [apply leaf_grows|done].
  - destruct (E_connected p a Hp old_a) as (l & Hw & Hnd). exists (l ++ [n]). split.
    + eapply walk_snoc; [eapply walk_mono; [apply leaf_grows|done]|].
      apply E'_spec. auto.
    + apply NoDup_app. split; [done|]. split; [|apply NoDup_singleton].
      intros x Hx ->%list_elem_of_singleton. revert Hx. eapply walk_old_avoids; [done|].
      intros ->. done.
  - destruct (E_connected a q old_a Hq) as (l & Hw & Hnd). exists (n :: l). split.
    + econstructor; [apply E'_spec; auto|]. eapply walk_mono; [apply leaf_grows|done].
    + apply NoDup_cons. split; [|done]. eapply walk_old_avoids; done.
  - exists [n]. split; [constructor|apply NoDup_singleton].
Qed.

End Leaf.
End Walks.

(** ** Sides, cells and walls of the grid *)

Lemma pair_eta (p : Z * Z) : (p.1, p.2) = p.
Proof. by destruct p. Qed.

Ltac sides :=
  unfold toward, opposite, in_grid in *; simpl in *;
  repeat case_decide; simpl in *; try lia; try congruence.

Lemma grid_array_insert (width height : Z) (m : gmap (Z * Z) Cell) (p : Z * Z) (c : Cell) :
  grid_array width height m → is_Some (m !! p) → grid_array width height (<[p := c]> m).
Proof.
  intros Hg Hp q. destruct (decide (p = q)) as [->|Hne].
  - rewrite lookup_insert_eq. split; [intros _; by apply Hg|eauto].
  - rewrite lookup_insert_ne by done. apply Hg.
Qed.

Lemma opposite_range k : 0 <= k <= 3 → 0 <= opposite k <= 3.
Proof. sides. Qed.

Lemma opposite_opposite k : 0 <= k <= 3 → opposite (opposite k) = k.
Proof. sides. Qed.

Lemma toward_back p k : 0 <= k <= 3 → toward (toward p k) (opposite k) = p.
Proof. destruct p as [x y]. intros Hk. sides; f_equal; lia. Qed.

Lemma toward_other p k : toward p k ≠ p.
Proof. destruct p as [x y]. sides; intros Heq; inversion Heq; lia. Qed.

Lemma toward_side p j k :
  0 <= j <= 3 → 0 <= k <= 3 → toward p j = toward p k → j = k.
Proof. destruct p as [x y]. intros Hj Hk. sides; intros Heq; inversion Heq; lia. Qed.

Lemma wall_set_wall c k v j :
  0 <= j <= 3 → 0 <= k <= 3 →
  wall (set_wall k v c) j = if decide (j = k) then v else wall c j.
Proof. intros Hj Hk. unfold wall, set_wall. repeat case_decide; simpl; try lia; done. Qed.

Lemma visited_set_wall c k v : visited (set_wall k v c) = visited c.
Proof. unfold set_wall. by repeat case_decide. Qed.

Lemma wall_set_visited c b j : wall (set_visited b c) j = wall c j.
Proof. done. Qed.

Lemma elem_of_cells width height p : p ∈ cells width height ↔ in_grid width height p.
Proof.
  unfold cells. rewrite list_elem_of_In. destruct p as [x y].
  rewrite in_prod_iff, <- !list_elem_of_In. unfold upto, in_grid.
  rewrite !elem_of_seqZ. simpl. lia.
Qed.

Lemma NoDup_list_prod {A B} (l : list A) (k : list B) :
  NoDup l → NoDup k → NoDup (list_prod l k).
Proof.
  intros Hl Hk. induction Hl as [|x l Hx Hl IH]; simpl; [constructor|].
  apply NoDup_app. split; [|split; [|done]].
  - change (NoDup (pair x <$> k)). apply NoDup_fmap_2; [by intros ?? [= ->]|done].
  - intros [a b] Hab Hin. change (( a, b) ∈ pair x <$> k) in Hab.
    apply list_elem_of_fmap in Hab as (b' & [= -> ->] & _).
    apply list_elem_of_In, in_prod_iff in Hin as [Hin _]. by apply list_elem_of_In in Hin.
Qed.

Lemma NoDup_cells width height : NoDup (cells width height).
Proof. unfold cells, upto. apply NoDup_list_prod; apply NoDup_seqZ. Qed.

Lemma length_cells width height :
  length (cells width height) = (Z.to_nat width * Z.to_nat height)%nat.
Proof. unfold cells, upto. by rewrite length_prod, !length_seqZ. Qed.

Lemma elem_of_internal_walls width height p k :
  (p, k) ∈ internal_walls width height ↔
  in_grid width height p ∧ in_grid width height (toward p k) ∧ (k = 1 ∨ k = 2).
Proof.
  unfold internal_walls. rewrite elem_of_app, !list_elem_of_fmap.
  setoid_rewrite elem_of_cells. destruct p as [x y]. split.
  - intros [(q & [= <- ->] & Hq)|(q & [= <- ->] & Hq)]; sides.
  - intros (Hp & Hq & [-> | ->]); [left|right]; exists (x, y); (split; [done|]); sides.
Qed.

Lemma NoDup_internal_walls width height : NoDup (internal_walls width height).
Proof.
  unfold internal_walls. apply NoDup_app. split; [|split].
  - apply NoDup_fmap_2; [by intros ?? [= ->]|apply NoDup_cells].
  - intros w (q & -> & _)%list_elem_of_fmap (q' & [=] & _)%list_elem_of_fmap.
  - apply NoDup_fmap_2; [by intros ?? [= ->]|apply NoDup_cells].
Qed.

Lemma filter_agree {A} (P Q : A → Prop)
    `{∀ x, Decision (P x)} `{∀ x, Decision (Q x)} (l : list A) :
  (∀ x, x ∈ l → (P x ↔ Q x)) → filter P l = filter Q l.
Proof.
  intros Hsame. induction l as [|x l IH]; [done|].
  rewrite !filter_cons.
  assert (filter P l = filter Q l) as -> by (apply IH; intros; apply Hsame; by right).
  destruct (decide (P x)) as [HPx|HPx].
  - by rewrite decide_True by (apply Hsame; [left|done]).
  - by rewrite decide_False by (rewrite <- Hsame; [done|left]).
Qed.

(** Counting with a test that changes at one element only. *)
Lemma filter_length_one_more {A} `{EqDecision A} (P Q : A → Prop)
    `{∀ x, Decision (P x)} `{∀ x, Decision (Q x)} (l : list A) (a : A) :
  NoDup l → a ∈ l → ¬ P a → Q a →
  (∀ x, x ∈ l → x ≠ a → (P x ↔ Q x)) →
  length (filter Q l) = S (length (filter P l)).
Proof.
  intros Hnd Ha HP HQ Hsame. induction l as [|x l IH]; [by apply elem_of_nil in Ha|].
  apply NoDup_cons in Hnd as [Hx Hnd].
  destruct (decide (x = a)) as [->|Hne].
  - rewrite (filter_cons_True Q), (filter_cons_False P) by done. simpl. do 2 f_equal.
    apply filter_agree. intros y Hy. symmetry. apply Hsame; [by right|].
    intros ->. done.
  - apply elem_of_cons in Ha as [->|Ha]; [done|].
    rewrite !filter_cons.
    destruct (decide (P x)) as [HPx|HPx].
    + rewrite decide_True by (apply Hsame; [left|done|done]). simpl.
      rewrite IH; [done..|]. intros y Hy. apply Hsame. by right.
    + rewrite decide_False by (rewrite <- Hsame; [done|left|done]).
      apply IH; [done..|]. intros y Hy. apply Hsame. by right.
Qed.

Lemma filter_length_same {A} (P Q : A → Prop)
    `{∀ x, Decision (P x)} `{∀ x, Decision (Q x)} (l : list A) :
  (∀ x, x ∈ l → (P x ↔ Q x)) → length (filter P l) = length (filter Q l).
Proof. intros Hsame. f_equal. by apply filter_agree. Qed.

Lemma filter_length_le {A} (P Q : A → Prop)
    `{∀ x, Decision (P x)} `{∀ x, Decision (Q x)} (l : list A) :
  (∀ x, x ∈ l → P x → Q x) → (length (filter P l) ≤ length (filter Q l))%nat.
Proof.
  intros Himp. induction l as [|x l IH]; [done|].
  rewrite !filter_cons.
  assert (length (filter P l) ≤ length (filter Q l))%nat
    by (apply IH; intros; apply Himp; [by right|done]).
  destruct (decide (P x)) as [HPx|HPx].
  - rewrite decide_True by (apply Himp; [left|done]). simpl. lia.
  - case_decide; simpl; lia.
Qed.

(** ** Accesses to the maze array *)

Section Store.
Context `{MazeStoreLaws St}.

Lemma cell_at_present (s : St) x y c :
  the_Maze s !! (x, y) = Some c → cell_at x y s = Ret c s.
Proof. intros Hc. unfold cell_at. by rewrite Hc. Qed.

Lemma cell_at_missing (s : St) x y :
  the_Maze s !! (x, y) = None → cell_at x y s = Throw s.
Proof. intros Hc. unfold cell_at. by rewrite Hc. Qed.

Lemma update_cell_present (s : St) x y f c :
  the_Maze s !! (x, y) = Some c →
  update_cell x y f s = Ret tt (with_Maze (<[(x, y) := f c]> (the_Maze s)) s).
Proof. intros Hc. unfold update_cell, bind. by rewrite (cell_at_present _ _ _ c). Qed.

Lemma update_cell_missing (s : St) x y f :
  the_Maze s !! (x, y) = None → update_cell x y f s = Throw s.
Proof. intros Hc. unfold update_cell, bind. by rewrite cell_at_missing. Qed.

(** A row of slot updates: [for (j in rows) Maze[i][j][k] = v]. *)
Lemma for_each_update_row (f : Cell → Cell) (i : Z) (rows : list Z) (s : St) :
  (∀ c, f (f c) = f c) →
  (∀ j, j ∈ rows → is_Some (the_Maze s !! (i, j))) →
  ∃ m', for_each (λ j, update_cell i j f) rows s = Ret tt (with_Maze m' s) ∧
        ∀ p, m' !! p = if decide (p.1 = i ∧ p.2 ∈ rows)
                       then f <$> the_Maze s !! p else the_Maze s !! p.
Proof.
  intros Hf. revert s. induction rows as [|j rows IH]; intros s Hin.
  - exists (the_Maze s). split.
    + simpl. unfold ret. by rewrite with_the_Maze.
    + intros p. case_decide as Hp; [|done]. destruct Hp as [_ Hp]. by apply elem_of_nil in Hp.
  - destruct (Hin j) as [c Hc]; [left|].
    simpl. unfold bind. rewrite (update_cell_present _ _ _ _ c Hc).
    destruct (IH (with_Maze (<[(i, j) := f c]> (the_Maze s)) s)) as (m' & Hrun & Hm').
    { intros j' Hj'. rewrite the_with_Maze.
      destruct (decide (j' = j)) as [->|Hne].
      - rewrite lookup_insert_eq. eauto.
      - rewrite lookup_insert_ne by congruence. apply Hin. by right. }
    exists m'. split.
    + rewrite Hrun. by rewrite with_with_Maze.
    + intros p. rewrite Hm', the_with_Maze.
      destruct (decide (p = (i, j))) as [->|Hne].
      * rewrite lookup_insert_eq, Hc. simpl.
        rewrite (decide_True (P := _ ∧ j ∈ j :: rows)) by (split; [done|left]).
        case_decide; simpl; by rewrite ?Hf.
      * rewrite lookup_insert_ne by done.
        destruct (decide (p.1 = i ∧ p.2 ∈ rows)) as [[Hp1 Hp2]|Hn].
        -- rewrite decide_True; [done|]. split; [done|by right].
        -- rewrite decide_False; [done|]. intros [Hp1 Hp2].
           apply elem_of_cons in Hp2 as [Hp2|Hp2]; [|by apply Hn].
           apply Hne. destruct p; simpl in *; congruence.
Qed.

(** The two nested loops over columns and rows. *)
Lemma for_each_update_grid (f : Cell → Cell) (cols rows : list Z) (s : St) :
  (∀ c, f (f c) = f c) →
  (∀ i j, i ∈ cols → j ∈ rows → is_Some (the_Maze s !! (i, j))) →
  ∃ m', for_each (λ i, for_each (λ j, update_cell i j f) rows) cols s
          = Ret tt (with_Maze m' s) ∧
        ∀ p, m' !! p = if decide (p.1 ∈ cols ∧ p.2 ∈ rows)
                       then f <$> the_Maze s !! p else the_Maze s !! p.
Proof.
  intros Hf. revert s. induction cols as [|i cols IH]; intros s Hin.
  - exists (the_Maze s). split.
    + simpl. unfold ret. by rewrite with_the_Maze.
    + intros p. case_decide as Hp; [|done]. destruct Hp as [Hp _]. by apply elem_of_nil in Hp.
  - destruct (for_each_update_row f i rows s Hf) as (m1 & Hrun1 & Hm1).
    { intros j Hj. apply Hin; [left|done]. }
    destruct (IH (with_Maze m1 s)) as (m' & Hrun & Hm').
    { intros i' j' Hi' Hj'. rewrite the_with_Maze, Hm1.
      destruct (Hin i' j') as [c Hc]; [by right|done|].
      rewrite Hc. case_decide; simpl; eauto. }
    exists m'. split.
    + simpl. unfold bind. rewrite Hrun1, Hrun. by rewrite with_with_Maze.
    + intros p. rewrite Hm', the_with_Maze, Hm1.
      destruct (decide (p.1 = i ∧ p.2 ∈ rows)) as [[Hp1 Hp2]|Hn].
      * rewrite (decide_True (P := p.1 ∈ i :: cols ∧ _)) by (split; [rewrite Hp1; left|done]).
        case_decide; [|done].
        destruct (the_Maze s !! p); simpl; by rewrite ?Hf.
      * destruct (decide (p.1 ∈ cols ∧ p.2 ∈ rows)) as [[Hp1 Hp2]|Hn'].
        -- rewrite decide_True; [done|]. split; [by right|done].
        -- rewrite decide_False; [done|]. intros [Hp1 Hp2].
           apply elem_of_cons in Hp1 as [Hp1|Hp1]; [by apply Hn|by apply Hn'].
Qed.

Lemma in_grid_upto width height p :
  in_grid width height p ↔ p.1 ∈ upto width ∧ p.2 ∈ upto height.
Proof. unfold in_grid, upto. rewrite !elem_of_seqZ. lia. Qed.

(** The clean-up loop clears every visited flag of the grid and nothing
    else. *)
Lemma reset_visited_grid (width height : Z) (s : St) :
  (∀ p, in_grid width height p → is_Some (the_Maze s !! p)) →
  ∃ m', reset_visited width height s = Ret tt (with_Maze m' s) ∧
        ∀ p, m' !! p = if decide (in_grid width height p)
                       then set_visited false <$> the_Maze s !! p else the_Maze s !! p.
Proof.
  intros Hin.
  destruct (for_each_update_grid (set_visited false) (upto width) (upto height) s)
    as (m' & Hrun & Hm'); [done| |].
  { intros i j Hi Hj. apply Hin. by apply in_grid_upto. }
  exists m'. split; [done|].
  intros p. rewrite Hm'.
  destruct (decide (in_grid width height p)) as [Hp|Hp].
  - rewrite decide_True; [done|]. by apply in_grid_upto.
  - rewrite decide_False; [done|]. by rewrite <- in_grid_upto.
Qed.

End Store.

(** ** Carving one more cell *)

Lemma open_side_lookup m p k c : m !! p = Some c → open_side m p k ↔ wall c k = 0.
Proof.
  intros Hc. unfold open_side. split; [|eauto].
  intros (c' & Hc' & Hw). congruence.
Qed.

Lemma marked_lookup m p c : m !! p = Some c → marked m p ↔ visited c = true.
Proof.
  intros Hc. unfold marked. split; [|eauto].
  intros (c' & Hc' & Hw). congruence.
Qed.

Lemma open_side_is_Some m p k : open_side m p k → is_Some (m !! p).
Proof. intros (c & -> & _). eauto. Qed.

Lemma passage_sym m p q : passage m p q → passage m q p.
Proof.
  intros (k & Hk & -> & Hp & Hq). exists (opposite k).
  rewrite toward_back, opposite_opposite by done.
  split; [by apply opposite_range|done].
Qed.

Lemma passage_wall_removed m p j :
  0 <= j <= 3 → wall_removed m (p, j) ↔ passage m p (toward p j).
Proof.
  intros Hj. unfold wall_removed. simpl. split.
  - intros [H1 H2]. by exists j.
  - intros (j' & Hj' & Heq & H1 & H2).
    apply toward_side in Heq; [|done..]. by subst.
Qed.

Lemma passage_marked width height m p q :
  carving width height m → passage m p q → marked m p ∧ marked m q.
Proof.
  intros Hc (k & Hk & -> & Hp & Hq). split.
  - by eapply carving_marked.
  - eapply carving_marked; [done|by apply opposite_range|done].
Qed.

Lemma walk_marked width height m p l q :
  carving width height m → walk (passage m) p l q → marked m p → marked m q.
Proof.
  intros Hc. induction 1 as [|p x l q HE Hw IH]; [done|].
  intros _. apply IH. by destruct (passage_marked _ _ _ _ _ Hc HE).
Qed.

Lemma walk_loop {V} (E : V → V → Prop) p l : walk E p l p → NoDup l → l = [p].
Proof.
  intros Hw Hnd. inversion Hw as [|? x l' ? HE Hw']; subst; [done|].
  apply NoDup_cons in Hnd as [Hp _]. destruct Hp. by eapply walk_last_in.
Qed.

Lemma carving_unique width height m p q l1 l2 :
  carving width height m →
  walk (passage m) p l1 q → walk (passage m) p l2 q → NoDup l1 → NoDup l2 → l1 = l2.
Proof.
  intros Hc Hw1 Hw2 Hnd1 Hnd2.
  destruct (decide (p = q)) as [->|Hne].
  - by rewrite (walk_loop _ _ _ Hw1 Hnd1), (walk_loop _ _ _ Hw2 Hnd2).
  - assert (Hp : marked m p).
    { inversion Hw1 as [|? x l' ? HE Hw']; subst; [done|].
      by destruct (passage_marked _ _ _ _ _ Hc HE). }
    destruct (carving_paths _ _ _ Hc p q Hp (walk_marked _ _ _ _ _ _ Hc Hw1 Hp))
      as (l & _ & Hl).
    by rewrite (Hl l1), (Hl l2).
Qed.

Section Attach.
Variables (width height : Z) (m : gmap (Z * Z) Cell) (a : Z * Z) (k : Z) (ca cn : Cell).
Hypothesis k_side : 0 <= k <= 3.
Hypothesis m_carving : carving width height m.
Hypothesis a_cell : m !! a = Some ca.
Hypothesis n_cell : m !! toward a k = Some cn.
Hypothesis a_marked : visited ca = true.
Hypothesis n_unmarked : visited cn = false.

Definition attach : gmap (Z * Z) Cell :=
  <[toward a k := set_visited true (set_wall (opposite k) 0 cn)]>
    (<[a := set_wall k 0 ca]> m).

Lemma attach_lookup q :
  attach !! q =
  if decide (q = toward a k) then Some (set_visited true (set_wall (opposite k) 0 cn))
  else if decide (q = a) then Some (set_wall k 0 ca)
  else m !! q.
Proof.
  unfold attach. case_decide as H1; [subst; by rewrite lookup_insert_eq|].
  rewrite lookup_insert_ne by done.
  case_decide as H2; [subst; by rewrite lookup_insert_eq|].
  by rewrite lookup_insert_ne.
Qed.

Lemma attach_open x j :
  0 <= j <= 3 →
  open_side attach x j ↔
  open_side m x j ∨ (x = a ∧ j = k) ∨ (x = toward a k ∧ j = opposite k).
Proof.
  intros Hj. pose proof (toward_other a k) as Hne. pose proof (opposite_range k k_side).
  destruct (decide (x = toward a k)) as [->|H1].
  - rewrite (open_side_lookup attach _ j _ (eq_trans (attach_lookup _) (decide_True _ _ eq_refl))).
    rewrite (open_side_lookup m _ j _ n_cell).
    rewrite wall_set_visited, wall_set_wall by done.
    case_decide; naive_solver.
  - destruct (decide (x = a)) as [->|H2].
    + assert (Hl : attach !! a = Some (set_wall k 0 ca)).
      { rewrite attach_lookup, decide_False, decide_True; done. }
      rewrite (open_side_lookup attach _ j _ Hl), (open_side_lookup m _ j _ a_cell).
      rewrite wall_set_wall by done. case_decide; naive_solver.
    + assert (Hl : attach !! x = m !! x).
      { rewrite attach_lookup, decide_False, decide_False; done. }
      unfold open_side. rewrite Hl. naive_solver.
Qed.

Lemma attach_marked x : marked attach x ↔ marked m x ∨ x = toward a k.
Proof.
  pose proof (toward_other a k) as Hne.
  destruct (decide (x = toward a k)) as [->|H1].
  - rewrite (marked_lookup attach _ _ (eq_trans (attach_lookup _) (decide_True _ _ eq_refl))).
    naive_solver.
  - destruct (decide (x = a)) as [->|H2].
    + assert (Hl : attach !! a = Some (set_wall k 0 ca)).
      { rewrite attach_lookup, decide_False, decide_True; done. }
      rewrite (marked_lookup attach _ _ Hl), (marked_lookup m _ _ a_cell), visited_set_wall.
      naive_solver.
    + assert (Hl : attach !! x = m !! x).
      { rewrite attach_lookup, decide_False, decide_False; done. }
      unfold marked. rewrite Hl. naive_solver.
Qed.

Lemma attach_grid : grid_array width height attach.
Proof.
  intros q. rewrite attach_lookup. rewrite <- (carving_grid _ _ _ m_carving q).
  repeat case_decide; subst; rewrite ?a_cell, ?n_cell; naive_solver.
Qed.

Lemma leaf_closed j : 0 <= j <= 3 → ¬ open_side m (toward a k) j.
Proof.
  intros Hj Ho. apply (carving_marked _ _ _ m_carving) in Ho; [|done].
  apply (marked_lookup _ _ _ n_cell) in Ho. congruence.
Qed.

Lemma attach_passage x y :
  passage attach x y ↔
  passage m x y ∨ (x = a ∧ y = toward a k) ∨ (x = toward a k ∧ y = a).
Proof.
  pose proof (opposite_range k k_side) as Hok. split.
  - intros (j & Hj & -> & Hx & Hy).
    pose proof (opposite_range j Hj) as Hoj.
    apply attach_open in Hx as [Hx|[[-> ->]|[-> ->]]]; [| | |done].
    2: { right; left. done. }
    + apply attach_open in Hy as [Hy|[[Hy1 Hy2]|[Hy1 Hy2]]]; [| | |done].
      * left. by exists j.
      * exfalso. apply (leaf_closed j Hj).
        replace (toward a k) with x; [done|].
        rewrite <- (toward_back x j Hj), Hy1. f_equal.
        rewrite <- (opposite_opposite j Hj), Hy2. by rewrite opposite_opposite.
      * right; left. assert (j = k) as ->.
        { rewrite <- (opposite_opposite j Hj), Hy2. by apply opposite_opposite. }
        split; [|done]. rewrite <- (toward_back x k k_side), Hy1.
        by rewrite toward_back.
    + right; right. split; [done|]. by apply toward_back.
  - intros [(j & Hj & -> & Hx & Hy)|[[-> ->]|[-> ->]]].
    + pose proof (opposite_range j Hj). exists j.
      split; [done|]. split; [done|]. split; apply attach_open; auto.
    + exists k. split; [done|]. split; [done|]. split; apply attach_open; auto.
    + exists (opposite k). split; [done|]. rewrite toward_back by done.
      split; [done|]. rewrite opposite_opposite by done.
      split; apply attach_open; auto.
Qed.

Lemma attach_marked_cells :
  marked_cells width height attach = S (marked_cells width height m).
Proof.
  unfold marked_cells.
  apply (filter_length_one_more _ _ _ (toward a k)).
  - apply NoDup_cells.
  - apply elem_of_cells, (carving_grid _ _ _ m_carving). by rewrite n_cell.
  - rewrite (marked_lookup _ _ _ n_cell). congruence.
  - apply attach_marked. by right.
  - intros x _ Hx. rewrite attach_marked. naive_solver.
Qed.

(** The entry of [internal_walls] that stands for the wall between [a] and
    the new cell. *)
Definition attach_wall : (Z * Z) * Z :=
  if decide (k = 1 ∨ k = 2) then (a, k) else (toward a k, opposite k).

Lemma attach_wall_internal : attach_wall ∈ internal_walls width height.
Proof.
  assert (Ha : in_grid width height a).
  { apply (carving_grid _ _ _ m_carving). by rewrite a_cell. }
  assert (Hn : in_grid width height (toward a k)).
  { apply (carving_grid _ _ _ m_carving). by rewrite n_cell. }
  unfold attach_wall. case_decide as Hk.
  - by apply elem_of_internal_walls.
  - apply elem_of_internal_walls. rewrite toward_back by done.
    split; [done|]. split; [done|]. sides.
Qed.

Lemma attach_wall_removed w :
  w ∈ internal_walls width height →
  wall_removed attach w ↔ wall_removed m w ∨ w = attach_wall.
Proof.
  destruct w as [p j]. intros (_ & _ & Hj)%elem_of_internal_walls.
  assert (Hj' : 0 <= j <= 3) by lia.
  rewrite !passage_wall_removed by done. rewrite attach_passage.
  unfold attach_wall. split.
  - intros [?|[[-> Heq]|[-> Heq]]]; [by left|right..].
    + apply toward_side in Heq as ->; [|done..]. by rewrite decide_True.
    + rewrite <- (toward_back a k k_side) in Heq at 2.
      apply toward_side in Heq as ->; [|done|by apply opposite_range].
      rewrite decide_False; [done|]. sides.
  - intros [?|Heq]; [by left|right]. case_decide; inversion Heq; subst.
    + by left.
    + right. split; [done|]. by apply toward_back.
Qed.

Lemma attach_removed_walls :
  removed_walls width height attach = S (removed_walls width height m).
Proof.
  unfold removed_walls.
  apply (filter_length_one_more _ _ _ attach_wall).
  - apply NoDup_internal_walls.
  - apply attach_wall_internal.
  - unfold attach_wall. case_decide.
    + intros [_ Hn]. simpl in Hn. by eapply leaf_closed; [apply opposite_range|].
    + intros [Hn _]. simpl in Hn. by eapply leaf_closed; [apply opposite_range|].
  - apply attach_wall_removed; [apply attach_wall_internal|by right].
  - intros w Hw Hne. rewrite attach_wall_removed by done. naive_solver.
Qed.

Lemma attach_carving : carving width height attach.
Proof.
  pose proof (toward_other a k) as Hne.
  assert (Hfresh : ∀ x, ¬ passage m (toward a k) x).
  { intros x (j & Hj & _ & Ho & _). by eapply leaf_closed. }
  split.
  - apply attach_grid.
  - intros p j Hj Ho. pose proof (opposite_range j Hj).
    apply attach_open in Ho as [Ho|[[-> ->]|[-> ->]]]; [| | |done].
    + apply attach_open; [done|]. left. by apply (carving_paired _ _ _ m_carving).
    + apply attach_open; [done|]. auto.
    + rewrite toward_back, opposite_opposite by done. apply attach_open; [done|]. auto.
  - intros p j Hj Ho. apply attach_marked.
    apply attach_open in Ho as [Ho|[[-> ->]|[-> ->]]]; [| | |done].
    + left. by eapply carving_marked.
    + left. by apply (marked_lookup _ _ _ a_cell).
    + by right.
  - rewrite attach_marked_cells, attach_removed_walls.
    by rewrite (carving_count _ _ _ m_carving).
  - intros p q Hp%attach_marked Hq%attach_marked.
    assert (Hfresh' : ∀ x, ¬ passage m x (toward a k)).
    { intros x Hx. by apply (Hfresh x), passage_sym. }
    assert (Hun : ¬ marked m (toward a k)).
    { rewrite (marked_lookup _ _ _ n_cell). congruence. }
    destruct (leaf_connected (passage m) (passage attach) a (toward a k)) with
      (old := marked m) (p := p) (q := q) as (l & Hw & Hnd); try done.
    + apply attach_passage.
    + by apply (marked_lookup _ _ _ a_cell).
    + intros p' q' Hp' Hq'.
      destruct (carving_paths _ _ _ m_carving p' q' Hp' Hq') as (l & Hl & _). eauto.
    + exists l. split; [done|]. intros l' Hw' Hnd'.
      eapply (leaf_unique (passage m) (passage attach) a (toward a k)); try done.
      * apply passage_sym.
      * apply attach_passage.
      * intros ????. by apply carving_unique with width height.
Qed.

End Attach.

(** ** The generator, statement by statement *)

Section Generator.
Import MazeJS.
Variable R : nat → nat.

Lemma elem_of_swap_entries (i r : nat) (l : list (Z * Z)) (q : Z * Z) :
  (i < length l)%nat → (r < length l)%nat → q ∈ swap_entries i r l ↔ q ∈ l.
Proof.
  intros Hi Hr. unfold swap_entries.
  pose proof (list_lookup_lookup_total_lt l i Hi) as Hx.
  pose proof (list_lookup_lookup_total_lt l r Hr) as Hy.
  rewrite !list_elem_of_lookup. split.
  - intros [j Hj]. apply list_lookup_insert_Some in Hj as [(? & Heq & ?)|(? & Hj)];
      [subst q; eauto|].
    apply list_lookup_insert_Some in Hj as [(? & Heq & ?)|(? & Hj)]; [subst q|]; eauto.
  - intros [j Hj]. destruct (decide (j = i)) as [->|Hji].
    + exists r. rewrite list_lookup_insert_eq by (by rewrite length_insert). congruence.
    + destruct (decide (j = r)) as [->|Hjr].
      * exists i. rewrite list_lookup_insert_ne by done.
        rewrite list_lookup_insert_eq by done. congruence.
      * exists j. by rewrite !list_lookup_insert_ne by done.
Qed.

Lemma length_swap_entries (i r : nat) (l : list (Z * Z)) :
  length (swap_entries i r l) = length l.
Proof. unfold swap_entries. by rewrite !length_insert. Qed.

Lemma ShuffleNeighbors_from_spec (rounds i : nat) (l : list (Z * Z)) g :
  (i + rounds = length l)%nat →
  ∃ l', ShuffleNeighbors_from R rounds i l g
          = Ret l' (set_random_calls (random_calls g + rounds)%nat g) ∧
        ∀ q, q ∈ l' ↔ q ∈ l.
Proof.
  revert i l g. induction rounds as [|rounds IH]; intros i l g Hlen.
  - exists l. split; [|done]. simpl. unfold ret. f_equal.
    destruct g. unfold set_random_calls. simpl. f_equal. lia.
  - simpl. unfold bind, random_below.
    set (r := (R (random_calls g) `mod` length l)%nat).
    assert (Hr : (r < length l)%nat) by (apply Nat.mod_upper_bound; lia).
    destruct (IH (S i) (swap_entries i r l) (set_random_calls (S (random_calls g)) g))
      as (l' & Hrun & Hl').
    { rewrite length_swap_entries. lia. }
    exists l'. split.
    + rewrite Hrun. f_equal. unfold set_random_calls. simpl. f_equal. lia.
    + intros q. rewrite Hl'. apply elem_of_swap_entries; lia.
Qed.

(** [ShuffleNeighbors] returns the same entries in some order and draws
    once per entry. *)
Lemma ShuffleNeighbors_spec (l : list (Z * Z)) g :
  ∃ l', ShuffleNeighbors R l g
          = Ret l' (set_random_calls (random_calls g + length l)%nat g) ∧
        ∀ q, q ∈ l' ↔ q ∈ l.
Proof. by apply ShuffleNeighbors_from_spec. Qed.

(** [GetNeighbors] lists the cells of the grid next to a cell of the grid. *)
Lemma GetNeighbors_spec c w h q :
  in_grid (WIDTH c) (HEIGHT c) (w, h) →
  q ∈ GetNeighbors c w h ↔
  ∃ k, 0 <= k <= 3 ∧ q = toward (w, h) k ∧ in_grid (WIDTH c) (HEIGHT c) q.
Proof.
  intros Hin. unfold GetNeighbors. rewrite !elem_of_app. split.
  - intros Hq. repeat case_decide;
      repeat match goal with
             | H : _ ∨ _ |- _ => destruct H
             | H : _ ∈ [] |- _ => by apply elem_of_nil in H
             | H : _ ∈ [_] |- _ => apply list_elem_of_singleton in H; subst
             end.
    all: first [ exists 0; split; [lia|]; split; [done|]; sides; fail
               | exists 1; split; [lia|]; split; [done|]; sides; fail
               | exists 2; split; [lia|]; split; [done|]; sides; fail
               | exists 3; split; [lia|]; split; [done|]; sides ].
  - intros (k & Hk & -> & Hq).
    assert (k = 0 ∨ k = 1 ∨ k = 2 ∨ k = 3) as [-> | [-> | [-> | ->]]] by lia.
    + left. rewrite decide_True by sides. sides. apply list_elem_of_singleton. done.
    + right; left. rewrite decide_True by sides. apply list_elem_of_singleton. done.
    + right; right; left. rewrite decide_True by sides. apply list_elem_of_singleton. done.
    + right; right; right. rewrite decide_True by sides. apply list_elem_of_singleton. done.
Qed.

(** [RemoveWall] clears the two slots that face each other. *)
Lemma RemoveWall_spec w h k g ca cn :
  0 <= k <= 3 →
  Maze g !! (w, h) = Some ca →
  Maze g !! toward (w, h) k = Some cn →
  RemoveWall w h (toward (w, h) k) g =
  Ret tt (set_Maze (<[toward (w, h) k := set_wall (opposite k) 0 cn]>
                      (<[(w, h) := set_wall k 0 ca]> (Maze g))) g).
Proof.
  intros Hk Ha Hn.
  assert (Hne : (w, h) ≠ toward (w, h) k) by (symmetry; apply toward_other).
  assert (Hrun : ∀ j x y, 0 <= j <= 3 → (x, y) = toward (w, h) k →
            (exec update_cell w h (set_wall j 0) ;
             update_cell x y (set_wall (opposite j) 0)) g =
            Ret tt (set_Maze (<[(x, y) := set_wall (opposite j) 0 cn]>
                                (<[(w, h) := set_wall j 0 ca]> (Maze g))) g)).
  { intros j x y Hj Hxy. unfold bind.
    rewrite (update_cell_present g w h _ ca) by done.
    rewrite (update_cell_present _ x y _ cn); [done|].
    simpl. rewrite lookup_insert_ne by congruence. by rewrite Hxy. }
  unfold RemoveWall.
  assert (k = 0 ∨ k = 1 ∨ k = 2 ∨ k = 3) as [-> | [-> | [-> | ->]]] by lia.
  - rewrite decide_True by sides. by rewrite (Hrun 0).
  - rewrite decide_False by sides. rewrite decide_False by sides.
    rewrite decide_True by sides. by rewrite (Hrun 1).
  - rewrite decide_False by sides. rewrite decide_True by sides. by rewrite (Hrun 2).
  - rewrite decide_False by sides. rewrite decide_False by sides.
    rewrite decide_False by sides. rewrite decide_True by sides. by rewrite (Hrun 3).
Qed.

(** Marks after marking one more cell of the grid. *)
Lemma marked_insert_visited m p c x :
  m !! p = Some c →
  marked (<[p := set_visited true c]> m) x ↔ marked m x ∨ x = p.
Proof.
  intros Hc. destruct (decide (x = p)) as [->|Hne].
  - rewrite (marked_lookup _ _ _ (lookup_insert_eq m p _)). naive_solver.
  - unfold marked. rewrite lookup_insert_ne by done. naive_solver.
Qed.

(** [RemoveWall] leaves the marks alone. *)
Lemma marked_insert_walls m a n ca cn j j' x :
  m !! a = Some ca → m !! n = Some cn →
  marked (<[n := set_wall j' 0 cn]> (<[a := set_wall j 0 ca]> m)) x ↔ marked m x.
Proof.
  intros Ha Hn. destruct (decide (x = n)) as [->|Hxn].
  - rewrite (marked_lookup _ _ _ (lookup_insert_eq _ n _)), (marked_lookup _ _ _ Hn).
    by rewrite visited_set_wall.
  - unfold marked at 1. rewrite lookup_insert_ne by done.
    destruct (decide (x = a)) as [->|Hxa].
    + rewrite lookup_insert_eq. rewrite (marked_lookup _ _ _ Ha).
      split; [intros (? & [= <-] & Hv); by rewrite visited_set_wall in Hv|].
      intros Hv. eexists. split; [done|]. by rewrite visited_set_wall.
    + by rewrite lookup_insert_ne.
Qed.

Lemma unmarked_cells_le width height m m' :
  (∀ p, marked m p → marked m' p) →
  (unmarked_cells width height m' ≤ unmarked_cells width height m)%nat.
Proof. intros Hm. apply filter_length_le. intros p _ Hp Hp'. by apply Hp, Hm. Qed.

Lemma unmarked_cells_same width height m m' :
  (∀ p, marked m p ↔ marked m' p) →
  unmarked_cells width height m' = unmarked_cells width height m.
Proof. intros Hm. apply filter_length_same. intros p _. by rewrite Hm. Qed.

Lemma unmarked_cells_mark width height m p c :
  in_grid width height p → m !! p = Some c → visited c = false →
  unmarked_cells width height m
  = S (unmarked_cells width height (<[p := set_visited true c]> m)).
Proof.
  intros Hin Hc Hv. unfold unmarked_cells.
  apply (filter_length_one_more _ _ _ p).
  - apply NoDup_cells.
  - by apply elem_of_cells.
  - intros Hn. apply Hn, marked_insert_visited; auto.
  - rewrite (marked_lookup _ _ _ Hc). congruence.
  - intros x _ Hx. rewrite marked_insert_visited by done. naive_solver.
Qed.

(** The globals [GenerateMaze] does not touch. *)
Definition same_but_Maze (g g' : Globals) : Prop :=
  config g' = config g ∧ Steps_to_Solve g' = Steps_to_Solve g ∧
  Solution_List g' = Solution_List g ∧ alerts g' = alerts g.

(** What one call of [GenerateMaze] on an unmarked cell achieves, provided
    the array is a tree once that cell is marked. *)
Definition GenerateMaze_ok (fuel : nat) : Prop :=
  ∀ w h g c0,
    Maze g !! (w, h) = Some c0 → visited c0 = false →
    carving (WIDTH (config g)) (HEIGHT (config g))
            (<[(w, h) := set_visited true c0]> (Maze g)) →
    (unmarked_cells (WIDTH (config g)) (HEIGHT (config g)) (Maze g) ≤ fuel)%nat →
    ∃ g', GenerateMaze R fuel w h g = Ret tt g' ∧ same_but_Maze g g' ∧
          carving (WIDTH (config g)) (HEIGHT (config g)) (Maze g') ∧
          (∀ p, marked (Maze g) p ∨ p = (w, h) → marked (Maze g') p) ∧
          (∀ p k, marked (Maze g') p → ¬ marked (Maze g) p → 0 <= k <= 3 →
                  in_grid (WIDTH (config g)) (HEIGHT (config g)) (toward p k) →
                  marked (Maze g') (toward p k)).

(** The body of the loop of [GenerateMaze(w, h)]. *)
Definition GenerateMaze_visit (fuel : nat) (w h : Z) (n : Z * Z) : JS unit :=
  do c <- cell_at n.1 n.2 ;
  if visited c then ret tt
  else exec RemoveWall w h n ; GenerateMaze R fuel n.1 n.2.

(** What the loop has achieved after some rounds, from the globals [g] on. *)
Definition carved_on (g g' : Globals) : Prop :=
  same_but_Maze g g' ∧
  carving (WIDTH (config g)) (HEIGHT (config g)) (Maze g') ∧
  (∀ p, marked (Maze g) p → marked (Maze g') p) ∧
  (∀ p k, marked (Maze g') p → ¬ marked (Maze g) p → 0 <= k <= 3 →
          in_grid (WIDTH (config g)) (HEIGHT (config g)) (toward p k) →
          marked (Maze g') (toward p k)).

Lemma carved_on_refl g :
  carving (WIDTH (config g)) (HEIGHT (config g)) (Maze g) → carved_on g g.
Proof. intros Hcar. split; [done|]. split; [done|]. split; [done|]. by intros. Qed.

Lemma carved_on_trans g1 g2 g3 : carved_on g1 g2 → carved_on g2 g3 → carved_on g1 g3.
Proof.
  intros ((Hc & Hs & Hl & Ha) & Hcar & Hmono & Hclo)
         ((Hc' & Hs' & Hl' & Ha') & Hcar' & Hmono' & Hclo').
  rewrite Hc in *.
  split. { repeat split; congruence. }
  split; [done|]. split; [auto|].
  intros p k Hp Hnp Hk Hin.
  destruct (decide (marked (Maze g2) p)) as [Hp2|Hp2]; [|by apply Hclo'].
  apply Hmono'. by apply Hclo.
Qed.

Lemma for_each_cons {St A} (body : A → M St unit) a l s :
  for_each body (a :: l) s =
  match body a s with
  | Ret _ s' => for_each body l s'
  | Throw s' => Throw s'
  | OutOfFuel => OutOfFuel
  end.
Proof. reflexivity. Qed.

Lemma GenerateMaze_visit_spec fuel w h k g :
  GenerateMaze_ok fuel →
  0 <= k <= 3 →
  carving (WIDTH (config g)) (HEIGHT (config g)) (Maze g) →
  marked (Maze g) (w, h) →
  in_grid (WIDTH (config g)) (HEIGHT (config g)) (toward (w, h) k) →
  (unmarked_cells (WIDTH (config g)) (HEIGHT (config g)) (Maze g) ≤ fuel)%nat →
  ∃ g', GenerateMaze_visit fuel w h (toward (w, h) k) g = Ret tt g' ∧
        carved_on g g' ∧ marked (Maze g') (toward (w, h) k).
Proof.
  intros IHfuel Hk Hcar (ca & Hca & Hva) Hin Hfuel.
  set (n := toward (w, h) k) in *.
  destruct (proj2 (carving_grid _ _ _ Hcar n) Hin) as [cn Hcn].
  unfold GenerateMaze_visit, bind at 1.
  rewrite (cell_at_present g _ _ cn) by (by rewrite pair_eta).
  destruct (visited cn) eqn:Hv.
  - exists g. split; [done|]. split; [by apply carved_on_refl|].
    by apply (marked_lookup _ _ _ Hcn).
  - unfold bind at 1. unfold n at 1.
    rewrite (RemoveWall_spec w h k g ca cn) by done. fold n.
    set (m2 := <[n := set_wall (opposite k) 0 cn]> (<[(w, h) := set_wall k 0 ca]> (Maze g))).
    assert (Hm2 : ∀ x, marked m2 x ↔ marked (Maze g) x).
    { intros x. by apply marked_insert_walls. }
    destruct (IHfuel n.1 n.2 (set_Maze m2 g) (set_wall (opposite k) 0 cn))
      as (g3 & Hrun3 & Hsame3 & Hcar3 & Hmono3 & Hclo3).
    { rewrite pair_eta. apply lookup_insert_eq. }
    { by rewrite visited_set_wall. }
    { rewrite pair_eta. unfold m2. cbn [Maze set_Maze config].
      rewrite insert_insert_eq. by apply attach_carving. }
    { cbn [Maze set_Maze config]. by rewrite (unmarked_cells_same _ _ (Maze g)). }
    cbn [Maze set_Maze config] in *.
    exists g3. split; [done|]. split.
    + split; [done|]. split; [done|]. split.
      * intros p Hp. apply Hmono3. left. by apply Hm2.
      * intros p j Hp Hnp Hj Hinj. apply Hclo3; try done. by rewrite Hm2.
    + apply Hmono3. right. by rewrite pair_eta.
Qed.

(** The loop of [GenerateMaze] over the shuffled neighbours. *)
Lemma GenerateMaze_loop fuel w h :
  GenerateMaze_ok fuel →
  ∀ ns g,
    carving (WIDTH (config g)) (HEIGHT (config g)) (Maze g) →
    marked (Maze g) (w, h) →
    (∀ n, n ∈ ns → ∃ k, 0 <= k <= 3 ∧ n = toward (w, h) k ∧
                        in_grid (WIDTH (config g)) (HEIGHT (config g)) n) →
    (unmarked_cells (WIDTH (config g)) (HEIGHT (config g)) (Maze g) ≤ fuel)%nat →
    ∃ g', for_each (GenerateMaze_visit fuel w h) ns g = Ret tt g' ∧
          carved_on g g' ∧ (∀ n, n ∈ ns → marked (Maze g') n).
Proof.
  intros IHfuel. induction ns as [|n ns IH]; intros g Hcar Hwh Hns Hfuel.
  - exists g. split; [done|]. split; [by apply carved_on_refl|]. by intros n ?%elem_of_nil.
  - destruct (Hns n) as (k & Hk & -> & Hin); [left|].
    destruct (GenerateMaze_visit_spec fuel w h k g) as (g1 & Hrun1 & Hon1 & Hn1); try done.
    rewrite for_each_cons, Hrun1.
    pose proof Hon1 as ((Hc1 & _) & Hcar1 & Hmono1 & _).
    destruct (IH g1) as (g' & Hrun & Hon & Hall).
    { by rewrite Hc1. }
    { by apply Hmono1. }
    { rewrite Hc1. intros n' Hn'. apply Hns. by right. }
    { rewrite Hc1. etrans; [|exact Hfuel]. by apply unmarked_cells_le. }
    exists g'. split; [done|]. split; [by eapply carved_on_trans|].
    intros n' [->|Hn']%elem_of_cons; [|by apply Hall].
    destruct Hon as (_ & _ & Hmono & _). by apply Hmono.
Qed.

Lemma GenerateMaze_unfold fuel w h :
  GenerateMaze R (S fuel) w h =
  (exec update_cell w h (set_visited true) ;
   do g <- get ;
   do neighbors <- ShuffleNeighbors R (GetNeighbors (config g) w h) ;
   for_each (GenerateMaze_visit fuel w h) neighbors).
Proof. reflexivity. Qed.

(** [GenerateMaze] returns on every cell, having carved a tree over all the
    cells it could reach. *)
Lemma GenerateMaze_spec fuel : GenerateMaze_ok fuel.
Proof.
  induction fuel as [|fuel IH]; intros w h g c0 Hc0 Hv Hcar Hfuel.
  - exfalso.
    assert (Hin : in_grid (WIDTH (config g)) (HEIGHT (config g)) (w, h)).
    { apply (carving_grid _ _ _ Hcar). rewrite lookup_insert_eq. eauto. }
    rewrite (unmarked_cells_mark _ _ _ (w, h) c0) in Hfuel by done. lia.
  - assert (Hin : in_grid (WIDTH (config g)) (HEIGHT (config g)) (w, h)).
    { apply (carving_grid _ _ _ Hcar). rewrite lookup_insert_eq. eauto. }
    rewrite GenerateMaze_unfold. unfold bind at 1.
    rewrite (update_cell_present g w h _ c0) by done.
    unfold bind at 1, get at 1. unfold bind at 1.
    set (g1 := with_Maze (<[(w, h) := set_visited true c0]> (the_Maze g)) g).
    destruct (ShuffleNeighbors_spec (GetNeighbors (config g1) w h) g1) as (ns & -> & Hns).
    set (g2 := set_random_calls _ g1).
    destruct (GenerateMaze_loop fuel w h IH ns g2) as (g' & Hrun & Hon & Hall).
    { done. }
    { apply marked_insert_visited; auto. }
    { intros n Hn. apply Hns, GetNeighbors_spec in Hn; done. }
    { cbn [g2 g1 Maze set_Maze set_random_calls config with_Maze Globals_MazeStore].
      rewrite (unmarked_cells_mark _ _ _ (w, h) c0) in Hfuel by done.
      change (the_Maze g) with (Maze g). lia. }
    destruct Hon as ((Hc & Hs & Hl & Ha) & Hcar' & Hmono & Hclo).
    cbn [g2 g1 Maze set_Maze set_random_calls config with_Maze Globals_MazeStore
         Steps_to_Solve Solution_List alerts the_Maze] in *.
    exists g'. split; [done|]. split; [done|]. split; [done|]. split.
    + intros p Hp. apply Hmono, marked_insert_visited; done.
    + intros p k Hp Hnp Hk Hink.
      destruct (decide (p = (w, h))) as [->|Hne].
      * apply Hall, Hns, GetNeighbors_spec; [done|]. by exists k.
      * apply Hclo; try done. rewrite marked_insert_visited by done. naive_solver.
Qed.

(** *** The fresh grid *)

Lemma fill_row_spec (i : Z) (rows : list Z) g :
  ∃ m', for_each (λ j, modify (λ g, set_Maze (<[(i, j) := fresh_cell]> (Maze g)) g)) rows g
          = Ret tt (set_Maze m' g) ∧
        ∀ p, m' !! p = if decide (p.1 = i ∧ p.2 ∈ rows) then Some fresh_cell
                       else Maze g !! p.
Proof.
  revert g. induction rows as [|j rows IH]; intros g.
  - exists (Maze g). split; [by destruct g|].
    intros p. case_decide as Hp; [|done]. destruct Hp as [_ Hp]. by apply elem_of_nil in Hp.
  - destruct (IH (set_Maze (<[(i, j) := fresh_cell]> (Maze g)) g)) as (m' & Hrun & Hm').
    exists m'. split; [by rewrite for_each_cons|].
    intros p. rewrite Hm'. cbn [Maze set_Maze].
    destruct (decide (p.1 = i ∧ p.2 ∈ rows)) as [[H1 H2]|Hn].
    + rewrite decide_True; [done|]. split; [done|by right].
    + destruct (decide (p = (i, j))) as [->|Hne].
      * rewrite lookup_insert_eq, decide_True; [done|]. split; [done|left].
      * rewrite lookup_insert_ne by done. rewrite decide_False; [done|].
        intros [H1 [H2|H2]%elem_of_cons]; [|by apply Hn].
        apply Hne. destruct p; simpl in *; congruence.
Qed.

Lemma fill_cols_spec (cols rows : list Z) g :
  ∃ m', for_each (λ i, for_each (λ j,
            modify (λ g, set_Maze (<[(i, j) := fresh_cell]> (Maze g)) g)) rows) cols g
          = Ret tt (set_Maze m' g) ∧
        ∀ p, m' !! p = if decide (p.1 ∈ cols ∧ p.2 ∈ rows) then Some fresh_cell
                       else Maze g !! p.
Proof.
  revert g. induction cols as [|i cols IH]; intros g.
  - exists (Maze g). split; [by destruct g|].
    intros p. case_decide as Hp; [|done]. destruct Hp as [Hp _]. by apply elem_of_nil in Hp.
  - destruct (fill_row_spec i rows g) as (m1 & Hrun1 & Hm1).
    destruct (IH (set_Maze m1 g)) as (m' & Hrun & Hm').
    exists m'. split; [by rewrite for_each_cons, Hrun1, Hrun|].
    intros p. rewrite Hm'. cbn [Maze set_Maze]. rewrite Hm1.
    destruct (decide (p.1 ∈ cols ∧ p.2 ∈ rows)) as [[H1 H2]|Hn].
    + rewrite decide_True; [done|]. split; [by right|done].
    + destruct (decide (p.1 = i ∧ p.2 ∈ rows)) as [[H1 H2]|Hn'].
      * rewrite decide_True; [done|]. split; [rewrite H1; left|done].
      * rewrite decide_False; [done|].
        intros [[H1|H1]%elem_of_cons H2]; [by apply Hn'|by apply Hn].
Qed.

(** [fill_Maze] writes a fresh cell at every coordinate of the grid. *)
Lemma fill_Maze_spec width height g :
  ∃ m', fill_Maze width height g = Ret tt (set_Maze m' g) ∧
        ∀ p, m' !! p = if decide (in_grid width height p) then Some fresh_cell
                       else Maze g !! p.
Proof.
  destruct (fill_cols_spec (upto width) (upto height) g) as (m' & Hrun & Hm').
  exists m'. split; [done|]. intros p. rewrite Hm'.
  destruct (decide (in_grid width height p)) as [Hp|Hp].
  - rewrite decide_True; [done|]. by apply in_grid_upto.
  - rewrite decide_False; [done|]. by rewrite <- in_grid_upto.
Qed.

Lemma filter_length_none {A} (P : A → Prop) `{∀ x, Decision (P x)} (l : list A) :
  (∀ x, x ∈ l → ¬ P x) → length (filter P l) = 0%nat.
Proof.
  intros Hn. induction l as [|x l IH]; [done|].
  rewrite filter_cons_False by (apply Hn; left). apply IH. intros y Hy. apply Hn. by right.
Qed.

(** The fresh grid with its root marked is a tree of one cell. *)
Lemma carving_root width height m root :
  in_grid width height root →
  (∀ p, m !! p = if decide (in_grid width height p) then Some fresh_cell else None) →
  carving width height (<[root := set_visited true fresh_cell]> m).
Proof.
  intros Hroot Hm.
  assert (Hg : grid_array width height m).
  { intros p. rewrite Hm. case_decide; [naive_solver|]. split; [by intros [? ?]|done]. }
  assert (Hr : m !! root = Some fresh_cell) by (by rewrite Hm, decide_True).
  assert (Hclosed : ∀ p k, 0 <= k <= 3 →
            ¬ open_side (<[root := set_visited true fresh_cell]> m) p k).
  { intros p k Hk (c & Hc & Hw). destruct (decide (p = root)) as [->|Hne].
    - rewrite lookup_insert_eq in Hc. injection Hc as <-.
      unfold wall in Hw. repeat case_decide; done.
    - rewrite lookup_insert_ne in Hc by done. rewrite Hm in Hc.
      case_decide; [|done]. injection Hc as <-.
      unfold wall in Hw. repeat case_decide; done. }
  assert (Hmk : ∀ p, marked (<[root := set_visited true fresh_cell]> m) p ↔ p = root).
  { intros p. rewrite marked_insert_visited by done. split; [|auto].
    intros [(c & Hc & Hv)|?]; [|done]. rewrite Hm in Hc.
    case_decide; [|done]. by injection Hc as <-. }
  split.
  - apply grid_array_insert; [done|by rewrite Hr].
  - intros p k Hk Ho. by destruct (Hclosed p k).
  - intros p k Hk Ho. by destruct (Hclosed p k).
  - unfold marked_cells, removed_walls.
    rewrite (filter_length_none (wall_removed _)).
    2: { intros [p k] (_ & _ & Hk)%elem_of_internal_walls [Ho _].
         apply (Hclosed p k); [lia|done]. }
    rewrite <- (filter_length_none (λ _, False) (cells width height)) by (intros ?? []).
    apply (filter_length_one_more _ _ _ root).
    + apply NoDup_cells.
    + by apply elem_of_cells.
    + by intros [].
    + by apply Hmk.
    + intros x _ Hx. rewrite Hmk. naive_solver.
  - intros p q ->%Hmk ->%Hmk. exists [root]. split.
    + split; [constructor|apply NoDup_singleton].
    + intros l' Hw Hnd. by eapply walk_loop.
Qed.

(** A set of cells that holds a cell of the grid and is closed under
    stepping to neighbours inside the grid holds the whole grid. *)
Lemma grid_reached width height (S : Z * Z → Prop) (root : Z * Z) :
  in_grid width height root → S root →
  (∀ p k, S p → in_grid width height p → 0 <= k <= 3 →
          in_grid width height (toward p k) → S (toward p k)) →
  ∀ p, in_grid width height p → S p.
Proof.
  intros Hroot HS Hclo.
  assert (Hall : ∀ (d : nat) p, in_grid width height p →
            Z.abs (p.1 - root.1) + Z.abs (p.2 - root.2) = Z.of_nat d → S p).
  { induction d as [|d IH]; intros [x y] Hin Hd; simpl in *.
    - assert ((x, y) = root) as -> by (destruct root; simpl in *; f_equal; lia). done.
    - destruct root as [rx ry]; simpl in *.
      destruct (decide (x < rx)) as [Hx|Hx].
      { replace (x, y) with (toward (x + 1, y) 3) by (sides; f_equal; lia).
        apply Hclo; [apply IH; sides| | |]; sides. }
      destruct (decide (rx < x)) as [Hx'|Hx'].
      { replace (x, y) with (toward (x - 1, y) 1) by (sides; f_equal; lia).
        apply Hclo; [apply IH; sides| | |]; sides. }
      destruct (decide (y < ry)) as [Hy|Hy].
      { replace (x, y) with (toward (x, y + 1) 0) by (sides; f_equal; lia).
        apply Hclo; [apply IH; sides| | |]; sides. }
      replace (x, y) with (toward (x, y - 1) 2) by (sides; f_equal; lia).
      apply Hclo; [apply IH; sides| | |]; sides. }
  intros p Hp.
  apply (Hall (Z.to_nat (Z.abs (p.1 - root.1) + Z.abs (p.2 - root.2)))); [done|lia].
Qed.

(** *** Doors *)

(** [m'] is [m] with the wall slots [D] cleared and nothing else changed. *)
Definition opened (D : Z * Z → Z → Prop) (m m' : gmap (Z * Z) Cell) : Prop :=
  (∀ p, is_Some (m' !! p) ↔ is_Some (m !! p)) ∧
  (∀ p, marked m' p ↔ marked m p) ∧
  (∀ p j, 0 <= j <= 3 → open_side m' p j ↔ open_side m p j ∨ D p j).

(** A piece of code that clears the wall slots [D] whenever the cells [a]
    and [b] exist. *)
Definition opens (a b : Z * Z) (prog : JS unit) (D : Z * Z → Z → Prop) : Prop :=
  ∀ g, is_Some (Maze g !! a) → is_Some (Maze g !! b) →
       ∃ m', prog g = Ret tt (set_Maze m' g) ∧ opened D (Maze g) m'.

Lemma opens_seq a b prog1 prog2 D1 D2 :
  opens a b prog1 D1 → opens a b prog2 D2 →
  opens a b (exec prog1 ; prog2) (λ p j, D1 p j ∨ D2 p j).
Proof.
  intros H1 H2 g Ha Hb.
  destruct (H1 g Ha Hb) as (m1 & Hrun1 & Hd1 & Hm1 & Ho1).
  destruct (H2 (set_Maze m1 g)) as (m2 & Hrun2 & Hd2 & Hm2 & Ho2).
  { by apply Hd1. } { by apply Hd1. }
  exists m2. split; [unfold bind; by rewrite Hrun1, Hrun2|].
  cbn [Maze set_Maze] in *. split; [|split].
  - intros p. by rewrite Hd2, Hd1.
  - intros p. by rewrite Hm2, Hm1.
  - intros p j Hj. rewrite Ho2, Ho1 by done. tauto.
Qed.

Lemma opens_door a b (x y door k : Z) :
  0 <= k <= 3 → (x, y) = a ∨ (x, y) = b →
  opens a b (if decide (door = k) then update_cell x y (set_wall k 0) else ret tt)
        (λ p j, p = (x, y) ∧ j = k ∧ door = k).
Proof.
  intros Hk Hxy g Ha Hb.
  assert (is_Some (Maze g !! (x, y))) as [c Hc] by (by destruct Hxy as [-> | ->]).
  case_decide as Hd.
  - exists (<[(x, y) := set_wall k 0 c]> (Maze g)).
    split; [by rewrite (update_cell_present g x y _ c)|].
    split; [|split].
    + intros p. destruct (decide (p = (x, y))) as [->|Hne].
      * rewrite lookup_insert_eq, Hc. split; eauto.
      * by rewrite lookup_insert_ne.
    + intros p. destruct (decide (p = (x, y))) as [->|Hne].
      * rewrite (marked_lookup _ _ _ (lookup_insert_eq _ _ _)), (marked_lookup _ _ _ Hc).
        by rewrite visited_set_wall.
      * unfold marked. by rewrite lookup_insert_ne.
    + intros p j Hj. destruct (decide (p = (x, y))) as [->|Hne].
      * rewrite (open_side_lookup _ _ _ _ (lookup_insert_eq _ _ _)),
                (open_side_lookup _ _ _ _ Hc).
        rewrite wall_set_wall by done. case_decide; naive_solver.
      * unfold open_side. rewrite lookup_insert_ne by done. naive_solver.
  - exists (Maze g). split; [by destruct g|].
    split; [done|]. split; [done|]. intros p j Hj. naive_solver.
Qed.

(** [InstallDoors] clears slot [ENTER] of the entrance cell and slot [EXIT]
    of the exit cell, whatever side these are. *)
Lemma InstallDoors_spec g :
  let c := config g in
  is_Some (Maze g !! (ENTRANCE_X c, ENTRANCE_Y c)) →
  is_Some (Maze g !! (STARTING_X c, STARTING_Y c)) →
  ∃ m', InstallDoors g = Ret tt (set_Maze m' g) ∧
        opened (λ p j, (p = (ENTRANCE_X c, ENTRANCE_Y c) ∧ j = ENTER c) ∨
                       (p = (STARTING_X c, STARTING_Y c) ∧ j = EXIT c))
               (Maze g) m'.
Proof.
  intros c Ha Hb.
  pose proof (opens_seq _ _ _ _ _ _
    (opens_door (ENTRANCE_X c, ENTRANCE_Y c) (STARTING_X c, STARTING_Y c)
       (ENTRANCE_X c) (ENTRANCE_Y c) (ENTER c) 0 ltac:(lia) ltac:(by left))
   (opens_seq _ _ _ _ _ _
    (opens_door (ENTRANCE_X c, ENTRANCE_Y c) (STARTING_X c, STARTING_Y c)
       (ENTRANCE_X c) (ENTRANCE_Y c) (ENTER c) 1 ltac:(lia) ltac:(by left))
   (opens_seq _ _ _ _ _ _
    (opens_door (ENTRANCE_X c, ENTRANCE_Y c) (STARTING_X c, STARTING_Y c)
       (ENTRANCE_X c) (ENTRANCE_Y c) (ENTER c) 2 ltac:(lia) ltac:(by left))
   (opens_seq _ _ _ _ _ _
    (opens_door (ENTRANCE_X c, ENTRANCE_Y c) (STARTING_X c, STARTING_Y c)
       (ENTRANCE_X c) (ENTRANCE_Y c) (ENTER c) 3 ltac:(lia) ltac:(by left))
   (opens_seq _ _ _ _ _ _
    (opens_door (ENTRANCE_X c, ENTRANCE_Y c) (STARTING_X c, STARTING_Y c)
       (STARTING_X c) (STARTING_Y c) (EXIT c) 0 ltac:(lia) ltac:(by right))
   (opens_seq _ _ _ _ _ _
    (opens_door (ENTRANCE_X c, ENTRANCE_Y c) (STARTING_X c, STARTING_Y c)
       (STARTING_X c) (STARTING_Y c) (EXIT c) 1 ltac:(lia) ltac:(by right))
   (opens_seq _ _ _ _ _ _
    (opens_door (ENTRANCE_X c, ENTRANCE_Y c) (STARTING_X c, STARTING_Y c)
       (STARTING_X c) (STARTING_Y c) (EXIT c) 2 ltac:(lia) ltac:(by right))
    (opens_door (ENTRANCE_X c, ENTRANCE_Y c) (STARTING_X c, STARTING_Y c)
       (STARTING_X c) (STARTING_Y c) (EXIT c) 3 ltac:(lia) ltac:(by right))))))))
    g Ha Hb) as (m' & Hrun & Hd & Hm & Ho).
  exists m'. split; [exact Hrun|]. split; [done|]. split; [done|].
  intros p j Hj. rewrite Ho by done. clear -Hj.
  assert (j = 0 ∨ j = 1 ∨ j = 2 ∨ j = 3) by lia. naive_solver.
Qed.

End Generator.

(** ** The solver, statement by statement *)

Section SolverProofs.
Import MazeJS.

Lemma same_walls_refl m : same_walls m m.
Proof. done. Qed.

Lemma same_walls_trans m1 m2 m3 : same_walls m1 m2 → same_walls m2 m3 → same_walls m1 m3.
Proof. intros H1 H2 p. by rewrite H1, H2. Qed.

Lemma same_walls_sym m1 m2 : same_walls m1 m2 → same_walls m2 m1.
Proof. intros H1 p. by rewrite H1. Qed.

Lemma same_walls_is_Some m m' p : same_walls m m' → is_Some (m !! p) ↔ is_Some (m' !! p).
Proof.
  intros Hs. specialize (Hs p).
  destruct (m !! p), (m' !! p); simpl in Hs; try done; split; eauto.
Qed.

Lemma same_walls_open m m' p k : same_walls m m' → open_side m p k ↔ open_side m' p k.
Proof.
  intros Hs. specialize (Hs p). unfold open_side.
  destruct (m !! p) as [c|], (m' !! p) as [c'|]; simpl in Hs; try done.
  - injection Hs as H0 H1 H2 H3. assert (wall c k = wall c' k) as Hw.
    { unfold wall. by repeat case_decide. }
    split; intros (? & [= <-] & ?); eexists; (split; [done|]); congruence.
Qed.

Lemma same_walls_access m m' p q : same_walls m m' → access m p q ↔ access m' p q.
Proof.
  intros Hs. unfold access.
  setoid_rewrite (same_walls_open m m' _ _ Hs).
  by setoid_rewrite (same_walls_is_Some m m' _ Hs).
Qed.

Lemma same_walls_passage m m' p q : same_walls m m' → passage m p q ↔ passage m' p q.
Proof. intros Hs. unfold passage. by setoid_rewrite (same_walls_open m m' _ _ Hs). Qed.

Lemma same_walls_grid width height m m' :
  same_walls m m' → grid_array width height m → grid_array width height m'.
Proof. intros Hs Hg p. rewrite <- (same_walls_is_Some m m' p Hs). apply Hg. Qed.

Lemma same_walls_mark m p c b : m !! p = Some c → same_walls m (<[p := set_visited b c]> m).
Proof.
  intros Hc q. destruct (decide (q = p)) as [->|Hne].
  - by rewrite lookup_insert_eq, Hc.
  - by rewrite lookup_insert_ne.
Qed.

Lemma can_go_spec g x y k inside nx ny width height :
  grid_array width height (Maze g) →
  in_grid width height (x, y) →
  (inside = true ↔ in_grid width height (nx, ny)) →
  ∃ b, can_go x y k inside nx ny g = Ret b g ∧
       (b = true ↔ open_side (Maze g) (x, y) k ∧ in_grid width height (nx, ny) ∧
                   ¬ marked (Maze g) (nx, ny)).
Proof.
  intros Hg Hin Hins.
  destruct (proj2 (Hg (x, y)) Hin) as [c Hc].
  unfold can_go, bind. rewrite (cell_at_present g x y c) by done.
  pose proof (open_side_lookup (Maze g) (x, y) k c Hc) as Hopen.
  destruct (bool_decide (wall c k = 0)) eqn:Hw; simpl.
  - apply bool_decide_eq_true_1 in Hw. destruct inside.
    + destruct (proj2 (Hg (nx, ny)) (proj1 Hins eq_refl)) as [cn Hcn].
      rewrite (cell_at_present g nx ny cn) by done. eexists. split; [done|].
      pose proof (marked_lookup (Maze g) (nx, ny) cn Hcn) as Hmk.
      destruct (visited cn); naive_solver.
    + exists false. split; [done|]. naive_solver.
  - apply bool_decide_eq_false_1 in Hw. exists false. split; [done|]. naive_solver.
Qed.

(** [GetNeighborAccess] lists the unmarked cells reached through an open
    side of the cell; it changes nothing. *)
Lemma GetNeighborAccess_spec g x y :
  grid_array (WIDTH (config g)) (HEIGHT (config g)) (Maze g) →
  in_grid (WIDTH (config g)) (HEIGHT (config g)) (x, y) →
  ∃ l, GetNeighborAccess x y g = Ret l g ∧
       ∀ q, q ∈ l ↔ access (Maze g) (x, y) q ∧ ¬ marked (Maze g) q.
Proof.
  intros Hg Hin.
  destruct (can_go_spec g x y 0 (bool_decide (y ≠ 0)) x (y - 1) _ _ Hg Hin)
    as (b0 & Hrun0 & Hb0).
  { rewrite bool_decide_eq_true. sides. }
  destruct (can_go_spec g x y 1 (bool_decide (x ≠ WIDTH (config g) - 1)) (x + 1) y _ _ Hg Hin)
    as (b1 & Hrun1 & Hb1).
  { rewrite bool_decide_eq_true. sides. }
  destruct (can_go_spec g x y 2 (bool_decide (y ≠ HEIGHT (config g) - 1)) x (y + 1) _ _ Hg Hin)
    as (b2 & Hrun2 & Hb2).
  { rewrite bool_decide_eq_true. sides. }
  destruct (can_go_spec g x y 3 (bool_decide (x ≠ 0)) (x - 1) y _ _ Hg Hin)
    as (b3 & Hrun3 & Hb3).
  { rewrite bool_decide_eq_true. sides. }
  eexists. split.
  { unfold GetNeighborAccess, bind at 1, get at 1.
    unfold bind at 1. rewrite Hrun0. unfold bind at 1. rewrite Hrun1.
    unfold bind at 1. rewrite Hrun2. unfold bind at 1. rewrite Hrun3. done. }
  intros q. rewrite !elem_of_app. unfold access. split.
  - intros [Hq|[Hq|[Hq|Hq]]].
    + destruct b0; [|by apply elem_of_nil in Hq]. apply list_elem_of_singleton in Hq as ->.
      destruct (proj1 Hb0 eq_refl) as (Ho & Hi & Hm). split; [|done].
      exists 0. split; [lia|]. split; [done|]. split; [done|]. by apply Hg.
    + destruct b1; [|by apply elem_of_nil in Hq]. apply list_elem_of_singleton in Hq as ->.
      destruct (proj1 Hb1 eq_refl) as (Ho & Hi & Hm). split; [|done].
      exists 1. split; [lia|]. split; [done|]. split; [done|]. by apply Hg.
    + destruct b2; [|by apply elem_of_nil in Hq]. apply list_elem_of_singleton in Hq as ->.
      destruct (proj1 Hb2 eq_refl) as (Ho & Hi & Hm). split; [|done].
      exists 2. split; [lia|]. split; [done|]. split; [done|]. by apply Hg.
    + destruct b3; [|by apply elem_of_nil in Hq]. apply list_elem_of_singleton in Hq as ->.
      destruct (proj1 Hb3 eq_refl) as (Ho & Hi & Hm). split; [|done].
      exists 3. split; [lia|]. split; [done|]. split; [done|]. by apply Hg.
  - intros [(k & Hk & -> & Ho & Hs) Hm]. apply Hg in Hs.
    assert (k = 0 ∨ k = 1 ∨ k = 2 ∨ k = 3) as [-> | [-> | [-> | ->]]] by lia.
    + left. rewrite (proj2 Hb0); [apply list_elem_of_singleton; done|done].
    + right; left. rewrite (proj2 Hb1); [apply list_elem_of_singleton; done|done].
    + right; right; left. rewrite (proj2 Hb2); [apply list_elem_of_singleton; done|done].
    + right; right; right. rewrite (proj2 Hb3); [apply list_elem_of_singleton; done|done].
Qed.

(** Every cell [GetNeighborAccess] could list from [p] is marked. *)
Definition closed_at (m : gmap (Z * Z) Cell) (p : Z * Z) : Prop :=
  ∀ q, access m p q → marked m q.

(** One step of the path the solver records, read from the exit end: the
    later cell [b] is not the exit and looks at the earlier cell [a]. *)
Definition solver_step (m : gmap (Z * Z) Cell) (e a b : Z * Z) : Prop :=
  access m b a ∧ b ≠ e.

(** What every run of [Solver] keeps. *)
Definition solved_on (g g' : Globals) : Prop :=
  config g' = config g ∧ alerts g' = alerts g ∧ random_calls g' = random_calls g ∧
  same_walls (Maze g) (Maze g') ∧
  (∀ p, marked (Maze g) p → marked (Maze g') p).

(** [Solver] returned true at [p]. *)
Definition found (g g' : Globals) (p : Z * Z) : Prop :=
  let e := (STARTING_X (config g), STARTING_Y (config g)) in
  ∃ l, Solution_List g' = Solution_List g ++ l ∧
       walk (solver_step (Maze g) e) e l p ∧
       Steps_to_Solve g' = Steps_to_Solve g + (Z.of_nat (length l) - 1).

(** [Solver] returned false: nothing recorded, and every cell it marked
    has only marked cells behind its open sides. *)
Definition exhausted (g g' : Globals) : Prop :=
  Solution_List g' = Solution_List g ∧ Steps_to_Solve g' = Steps_to_Solve g ∧
  (∀ q, marked (Maze g') q → ¬ marked (Maze g) q → closed_at (Maze g') q).

Lemma solved_on_refl g : solved_on g g.
Proof. by repeat split. Qed.

Lemma solved_on_trans g1 g2 g3 : solved_on g1 g2 → solved_on g2 g3 → solved_on g1 g3.
Proof.
  intros (Hc & Ha & Hr & Hw & Hm) (Hc' & Ha' & Hr' & Hw' & Hm').
  split; [congruence|]. split; [congruence|]. split; [congruence|].
  split; [by eapply same_walls_trans|auto].
Qed.

Lemma closed_at_mono m m' p :
  same_walls m m' → (∀ q, marked m q → marked m' q) → closed_at m p → closed_at m' p.
Proof. intros Hs Hm Hc q Hq. apply Hm, Hc. by apply (same_walls_access m m'). Qed.

Lemma found_trans g1 g2 g3 p :
  solved_on g1 g2 → Solution_List g2 = Solution_List g1 →
  Steps_to_Solve g2 = Steps_to_Solve g1 → found g2 g3 p → found g1 g3 p.
Proof.
  intros (Hc & _ & _ & Hw & _) Hl Hs (l & Hl' & Hwalk & Hs').
  exists l. rewrite Hc in *. split; [congruence|]. split; [|congruence].
  eapply walk_mono; [|done]. intros a b [Hab Hb]. split; [|done].
  by apply (same_walls_access (Maze g1) (Maze g2)).
Qed.

Lemma exhausted_trans g1 g2 g3 :
  solved_on g2 g3 → exhausted g1 g2 → exhausted g2 g3 → exhausted g1 g3.
Proof.
  intros (_ & _ & _ & Hw & Hm) (Hl & Hs & Hclo) (Hl' & Hs' & Hclo').
  split; [congruence|]. split; [congruence|].
  intros q Hq Hnq. destruct (decide (marked (Maze g2) q)) as [Hq2|Hq2].
  - eapply closed_at_mono; [done..|]. by apply Hclo.
  - by apply Hclo'.
Qed.

Lemma unmarked_cells_pos width height m p :
  in_grid width height p → ¬ marked m p → (1 ≤ unmarked_cells width height m)%nat.
Proof.
  intros Hin Hm. unfold unmarked_cells.
  assert (Hp : p ∈ filter (λ p, ¬ marked m p) (cells width height)).
  { apply list_elem_of_filter. split; [done|by apply elem_of_cells]. }
  destruct (filter _ _); [by apply elem_of_nil in Hp|simpl; lia].
Qed.

(** What one call of [Solver] achieves. *)
Definition Solver_ok (fuel : nat) : Prop :=
  ∀ x y g,
    let e := (STARTING_X (config g), STARTING_Y (config g)) in
    grid_array (WIDTH (config g)) (HEIGHT (config g)) (Maze g) →
    in_grid (WIDTH (config g)) (HEIGHT (config g)) e →
    ¬ marked (Maze g) e →
    in_grid (WIDTH (config g)) (HEIGHT (config g)) (x, y) →
    (marked (Maze g) (x, y) → closed_at (Maze g) (x, y)) →
    (unmarked_cells (WIDTH (config g)) (HEIGHT (config g)) (Maze g) ≤ fuel)%nat →
    ∃ b g', Solver fuel x y g = Ret b g' ∧ solved_on g g' ∧ ¬ marked (Maze g') e ∧
            if b then found g g' (x, y)
            else exhausted g g' ∧ marked (Maze g') (x, y).

Lemma Solver_loop_cons solve x y n rest g :
  Solver_loop solve x y (n :: rest) g =
  match solve n.1 n.2 g with
  | Ret true g' =>
      Ret true (set_Steps_to_Solve (Steps_to_Solve g' + 1)
                  (set_Solution_List (Solution_List g' ++ [(x, y)]) g'))
  | Ret false g' => Solver_loop solve x y rest g'
  | Throw g' => Throw g'
  | OutOfFuel => OutOfFuel
  end.
Proof.
  simpl. unfold bind at 1. destruct (solve n.1 n.2 g) as [[] g'| |]; done.
Qed.

(** The loop of [Solver(x, y)] over the accessible neighbours. *)
Lemma Solver_loop_spec fuel x y :
  Solver_ok fuel →
  ∀ ns g,
    let e := (STARTING_X (config g), STARTING_Y (config g)) in
    grid_array (WIDTH (config g)) (HEIGHT (config g)) (Maze g) →
    in_grid (WIDTH (config g)) (HEIGHT (config g)) e →
    ¬ marked (Maze g) e →
    (x, y) ≠ e →
    (∀ n, n ∈ ns → access (Maze g) (x, y) n ∧
                   (marked (Maze g) n → closed_at (Maze g) n)) →
    (unmarked_cells (WIDTH (config g)) (HEIGHT (config g)) (Maze g) ≤ fuel)%nat →
    ∃ b g', Solver_loop (Solver fuel) x y ns g = Ret b g' ∧ solved_on g g' ∧
            ¬ marked (Maze g') e ∧
            if b then found g g' (x, y)
            else exhausted g g' ∧ ∀ n, n ∈ ns → marked (Maze g') n.
Proof.
  intros IHfuel. induction ns as [|n ns IH]; intros g e Hg He Hne Hxy Hns Hfuel.
  - exists false, g. split; [done|]. split; [apply solved_on_refl|]. split; [done|].
    split; [|by intros n ?%elem_of_nil]. split; [done|]. split; [done|]. by intros.
  - destruct (Hns n) as [Hacc Hclosed]; [left|].
    assert (Hn : in_grid (WIDTH (config g)) (HEIGHT (config g)) n).
    { destruct Hacc as (k & _ & _ & _ & Hs). by apply Hg. }
    destruct (IHfuel n.1 n.2 g) as (b & g1 & Hrun1 & Hon1 & He1 & Hres1);
      rewrite ?pair_eta; try done.
    rewrite Solver_loop_cons, Hrun1. rewrite pair_eta in Hres1.
    pose proof Hon1 as (Hc1 & Ha1 & Hr1 & Hw1 & Hm1).
    destruct b.
    + eexists true, _. split; [done|]. cbn [Maze config set_Steps_to_Solve set_Solution_List].
      split; [done|]. split; [done|].
      destruct Hres1 as (l & Hl & Hwalk & Hs).
      exists (l ++ [(x, y)]). cbn [Solution_List Steps_to_Solve set_Steps_to_Solve
                                  set_Solution_List].
      split; [by rewrite Hl, <- app_assoc|]. split.
      * eapply walk_snoc; [done|]. by split.
      * rewrite Hs, length_app. simpl. lia.
    + destruct Hres1 as [Hex1 Hn1].
      destruct (IH g1) as (b & g' & Hrun & Hon & He' & Hres).
      { rewrite Hc1. by eapply same_walls_grid. }
      { by rewrite Hc1. }
      { by rewrite Hc1. }
      { by rewrite Hc1. }
      { intros n' Hn'. destruct (Hns n') as [Hacc' Hclosed']; [by right|]. split.
        - by apply (same_walls_access (Maze g) (Maze g1)).
        - intros Hmk. destruct (decide (marked (Maze g) n')) as [Hm|Hm].
          + eapply closed_at_mono; [done..|]. by apply Hclosed'.
          + destruct Hex1 as (_ & _ & Hclo). by apply Hclo. }
      { rewrite Hc1. etrans; [|exact Hfuel]. by apply unmarked_cells_le. }
      rewrite Hc1 in *.
      exists b, g'. split; [done|]. split; [by eapply solved_on_trans|]. split; [done|].
      destruct b.
      * destruct Hex1 as (Hl1 & Hs1 & _). by eapply found_trans.
      * destruct Hres as [Hex Hall]. split; [by eapply exhausted_trans|].
        intros n' [->|Hn']%elem_of_cons; [|by apply Hall].
        destruct Hon as (_ & _ & _ & _ & Hm). by apply Hm.
Qed.

Lemma set_visited_id c : visited c = true → set_visited true c = c.
Proof. destruct c. simpl. by intros ->. Qed.

(** [Solver] returns on every cell of the grid; true comes with a recorded
    path, false with everything in reach marked. *)
Lemma Solver_spec fuel : Solver_ok fuel.
Proof.
  induction fuel as [|fuel IH]; intros x y g e Hg He Hne Hin Hclosed Hfuel.
  - exfalso. pose proof (unmarked_cells_pos _ _ _ _ He Hne). lia.
  - cbn [Solver]. unfold bind at 1, get at 1.
    destruct (decide ((x, y) = e)) as [Hxy|Hxy].
    + injection Hxy as -> ->. rewrite !bool_decide_eq_true_2 by done.
      cbn [andb]. eexists true, _. split; [done|]. split; [done|]. split; [done|].
      exists [e]. split; [done|]. split; [constructor|]. simpl. lia.
    + assert (bool_decide (x = STARTING_X (config g))
              && bool_decide (y = STARTING_Y (config g)) = false) as ->.
      { apply andb_false_iff. rewrite !bool_decide_eq_false. unfold e in Hxy.
        destruct (decide (x = STARTING_X (config g))) as [->|]; [right|by left].
        intros ->. done. }
      destruct (proj2 (Hg (x, y)) Hin) as [c Hc].
      unfold bind at 1. rewrite (update_cell_present g x y _ c) by done.
      set (g1 := with_Maze _ g).
      assert (Hw1 : same_walls (Maze g) (Maze g1)) by (by apply same_walls_mark).
      assert (Hg1 : grid_array (WIDTH (config g)) (HEIGHT (config g)) (Maze g1)).
      { by eapply same_walls_grid. }
      assert (Hm1 : ∀ p, marked (Maze g1) p ↔ marked (Maze g) p ∨ p = (x, y)).
      { intros p. by apply marked_insert_visited. }
      assert (Hon1 : solved_on g g1).
      { split; [done|]. split; [done|]. split; [done|]. split; [done|].
        intros p Hp. apply Hm1. by left. }
      assert (Hne1 : ¬ marked (Maze g1) e).
      { rewrite Hm1. intros [?|?]; [done|]. by apply Hxy. }
      destruct (GetNeighborAccess_spec g1 x y Hg1 Hin) as (ns & Hrun & Hns).
      unfold bind at 1. rewrite Hrun.
      destruct (decide (marked (Maze g) (x, y))) as [Hmk|Hmk].
      * assert (ns = []) as ->.
        { apply elem_of_nil_inv. intros q [Hacc Hq]%Hns. apply Hq, Hm1. left.
          apply (Hclosed Hmk). by apply (same_walls_access (Maze g) (Maze g1)). }
        exists false, g1. split; [done|]. split; [done|]. split; [done|].
        split; [|apply Hm1; by right].
        split; [done|]. split; [done|].
        intros q [Hq| ->]%Hm1 Hnq; done.
      * destruct (Solver_loop_spec fuel x y IH ns g1) as (b & g' & Hrun' & Hon & He' & Hres);
          try done.
        { intros n [Hacc Hn]%Hns. split; [done|]. by intros ?. }
        { assert (Hv : visited c = false).
          { destruct (visited c) eqn:Hv; [|done]. destruct Hmk. by exists c. }
          change (Maze g1) with (<[(x, y) := set_visited true c]> (Maze g)).
          cbn [g1 config with_Maze Globals_MazeStore set_Maze].
          rewrite (unmarked_cells_mark _ _ _ (x, y) c) in Hfuel by done. lia. }
        exists b, g'. split; [done|]. split; [by eapply solved_on_trans|].
        split; [done|]. destruct b.
        -- by eapply found_trans.
        -- destruct Hres as [(Hl & Hs & Hclo) Hall].
           destruct Hon as (_ & _ & _ & Hw & Hm).
           split; [|apply Hm, Hm1; by right].
           split; [done|]. split; [done|].
           intros q Hq Hnq. destruct (decide (q = (x, y))) as [->|Hqne].
           ++ intros n Hn. apply (same_walls_access (Maze g1) (Maze g')) in Hn; [|done].
              destruct (decide (marked (Maze g1) n)) as [Hn1|Hn1]; [by apply Hm|].
              apply Hall, Hns. done.
           ++ apply Hclo; [done|]. rewrite Hm1. naive_solver.
Qed.

End SolverProofs.

(** ** [LoadMaze] as a whole *)

Section Generation.
Import MazeJS Generated.
Variable R : nat → nat.

Lemma LoadMaze_unfold fuel f g :
  LoadMaze R fuel f g =
  match config_error (config_read f (config g)) with
  | Some message => Ret tt (set_alerts (alerts g ++ [message]) (globals_read f g))
  | None => (exec carve R fuel ; exec SolveMaze fuel ; alert "New Maze Generated!")
              (globals_read f g)
  end.
Proof.
  unfold LoadMaze, ResetValues, ICanHazErrors, carve, alert, bind, modify, get, ret,
    globals_read, config_read.
  unfold set_config, set_Maze, set_Solution_List, set_Steps_to_Solve, set_alerts.
  cbn [config Maze Solution_List Steps_to_Solve alerts random_calls].
  destruct (config_error _); [done|].
  destruct (fill_Maze _ _ _) as [? g0| |]; [|done..].
  destruct (GenerateMaze _ _ _ _ _) as [? g1| |]; [|done..].
  by destruct (InstallDoors _).
Qed.

Lemma can_generate_sizes c :
  can_generate c → 0 < WIDTH c ∧ 0 < HEIGHT c ∧ entrance_cell c ≠ exit_cell c.
Proof.
  intros (Herr & _). unfold config_error in Herr.
  repeat (case_match; [done|]).
  repeat match goal with
         | H : _ && _ = false |- _ => apply andb_false_iff in H
         | H : _ || _ = false |- _ => apply orb_false_iff in H as [? ?]
         | H : bool_decide _ = false |- _ => apply bool_decide_eq_false_1 in H
         end.
  split; [lia|]. split; [lia|]. unfold entrance_cell, exit_cell. intros [= ? ?].
  match goal with H : _ ∨ _ |- _ => destruct H as [H|H]; apply bool_decide_eq_false_1 in H end;
    congruence.
Qed.

Lemma length_cells_Z width height :
  0 < width → 0 < height → Z.of_nat (length (cells width height)) = width * height.
Proof. intros Hw Hh. rewrite length_cells. lia. Qed.

Lemma filter_length_all {A} (P : A → Prop) `{∀ x, Decision (P x)} (l : list A) :
  (∀ x, x ∈ l → P x) → length (filter P l) = length l.
Proof.
  intros Hall. induction l as [|x l IH]; [done|].
  rewrite filter_cons_True by (apply Hall; left). simpl. f_equal.
  apply IH. intros y Hy. apply Hall. by right.
Qed.

(** The doors [InstallDoors] cuts for the configuration [c]. *)
Definition doors (c : Config) (p : Z * Z) (j : Z) : Prop :=
  (p = entrance_cell c ∧ j = ENTER c) ∨ (p = exit_cell c ∧ j = EXIT c).

(** [carve] returns, and the array it leaves is a tree over all cells of
    the grid with the two door slots cleared on top. *)
Lemma carve_spec fuel g0 :
  let c := config g0 in
  can_generate c → Maze g0 = ∅ →
  WIDTH c * HEIGHT c <= Z.of_nat fuel →
  ∃ mc g1, carve R fuel g0 = Ret tt g1 ∧ same_but_Maze g0 g1 ∧
           carving (WIDTH c) (HEIGHT c) mc ∧
           (∀ p, in_grid (WIDTH c) (HEIGHT c) p → marked mc p) ∧
           opened (doors c) mc (Maze g1).
Proof.
  intros c Hcan Hempty Hfuel.
  destruct (can_generate_sizes c Hcan) as (Hw & Hh & Hne).
  destruct Hcan as (_ & Hent & Hexit & _).
  destruct (fill_Maze_spec (WIDTH c) (HEIGHT c) g0) as (m0 & Hrun0 & Hm0').
  assert (Hm0 : ∀ p, m0 !! p = if decide (in_grid (WIDTH c) (HEIGHT c) p)
                               then Some fresh_cell else None).
  { intros p. rewrite Hm0', Hempty. by rewrite lookup_empty. }
  clear Hm0'.
  assert (Hroot : m0 !! (STARTING_X c, STARTING_Y c) = Some fresh_cell).
  { by rewrite Hm0, decide_True. }
  destruct (GenerateMaze_spec R fuel (STARTING_X c) (STARTING_Y c) (set_Maze m0 g0) fresh_cell)
    as (g1 & Hrun1 & Hsame1 & Hcar1 & Hmono1 & Hclo1); try done.
  { by apply carving_root. }
  { cbn [Maze set_Maze config]. fold c. unfold unmarked_cells.
    etrans; [apply length_filter|]. apply Nat2Z.inj_le.
    rewrite length_cells_Z by done. done. }
  cbn [Maze set_Maze config] in *. fold c in Hcar1, Hclo1.
  assert (Hall : ∀ p, in_grid (WIDTH c) (HEIGHT c) p → marked (Maze g1) p).
  { apply (grid_reached _ _ _ (STARTING_X c, STARTING_Y c)); [done| |].
    - apply Hmono1. by right.
    - intros p k Hp Hin Hk Hink. apply Hclo1; try done.
      intros (c' & Hc' & Hv'). rewrite Hm0 in Hc'. case_decide; [|done].
      by injection Hc' as <-. }
  destruct Hsame1 as (Hc1 & Hs1 & Hl1 & Ha1). cbn [config set_Maze] in Hc1.
  destruct (InstallDoors_spec g1) as (m' & Hrun2 & Hop).
  { rewrite Hc1. apply (carving_grid _ _ _ Hcar1). done. }
  { rewrite Hc1. apply (carving_grid _ _ _ Hcar1). done. }
  rewrite Hc1 in Hop.
  exists (Maze g1), (set_Maze m' g1). split.
  - unfold carve, bind at 1, get at 1. fold c. unfold bind at 1. rewrite Hrun0.
    unfold bind at 1. rewrite Hrun1. done.
  - split; [done|]. split; [done|]. split; [done|]. exact Hop.
Qed.

(** With the entrance opening in the outer boundary, the doors remove no
    wall between two cells. *)
Lemma opened_passage c mc m1 :
  carving (WIDTH c) (HEIGHT c) mc →
  opened (doors c) mc m1 →
  ¬ in_grid (WIDTH c) (HEIGHT c) (toward (entrance_cell c) (ENTER c)) →
  ∀ p q, passage m1 p q ↔ passage mc p q.
Proof.
  intros Hcar (Hd & Hm & Ho) Hout p q.
  assert (Hcell : ∀ x j, open_side m1 x j → in_grid (WIDTH c) (HEIGHT c) x).
  { intros x j Hx%open_side_is_Some. by apply (carving_grid _ _ _ Hcar), Hd. }
  split.
  - intros (j & Hj & -> & Hp & Hq). pose proof (opposite_range j Hj) as Hoj.
    pose proof (Hcell _ _ Hp) as Hpin. pose proof (Hcell _ _ Hq) as Hqin.
    apply Ho in Hp as [Hp|[[-> ->]|[-> ->]]]; [| |  |done].
    + exists j. split; [done|]. split; [done|]. split; [done|].
      by apply (carving_paired _ _ _ Hcar).
    + done.
    + apply Ho in Hq as [Hq|[[Hq1 Hq2]|[Hq1 Hq2]]]; [| | |done].
      * exists (EXIT c). split; [done|]. split; [done|]. split; [|done].
        pose proof (carving_paired _ _ _ Hcar _ _ Hoj Hq) as Hback.
        by rewrite toward_back, opposite_opposite in Hback.
      * destruct Hout. rewrite <- Hq2, <- Hq1. by rewrite toward_back.
      * by destruct (toward_other (exit_cell c) (EXIT c)).
  - intros (j & Hj & -> & Hp & Hq). pose proof (opposite_range j Hj) as Hoj.
    exists j. split; [done|]. split; [done|]. split; apply Ho; auto.
Qed.

Lemma one_simple_path_ext m m' p q :
  (∀ x y, passage m x y ↔ passage m' x y) → one_simple_path m p q → one_simple_path m' p q.
Proof.
  intros Hext (l & [Hw Hnd] & Huniq). exists l. split.
  - split; [|done]. eapply walk_mono; [|done]. intros x y. apply Hext.
  - intros l' Hw' Hnd'. apply Huniq; [|done].
    eapply walk_mono; [|done]. intros x y. apply Hext.
Qed.

Lemma removed_walls_ext width height m m' :
  (∀ x y, passage m x y ↔ passage m' x y) →
  removed_walls width height m = removed_walls width height m'.
Proof.
  intros Hext. apply filter_length_same.
  intros [p j] (_ & _ & Hj)%elem_of_internal_walls.
  rewrite !passage_wall_removed by lia. apply Hext.
Qed.

(** A tree over the whole grid has one wall less removed than it has
    cells. *)
Lemma carving_removed_walls width height m :
  0 < width → 0 < height →
  carving width height m → (∀ p, in_grid width height p → marked m p) →
  Z.of_nat (removed_walls width height m) = width * height - 1.
Proof.
  intros Hw Hh Hcar Hall. pose proof (carving_count _ _ _ Hcar) as Hcount.
  unfold marked_cells in Hcount. rewrite filter_length_all in Hcount.
  - rewrite <- (length_cells_Z width height) by done. lia.
  - intros p Hp. by apply Hall, elem_of_cells.
Qed.

(** Marked cells whose open sides lead to marked cells only keep every
    walk inside. *)
Lemma walk_stays_marked m p l q :
  (∀ x, marked m x → closed_at m x) → walk (access m) p l q → marked m p → marked m q.
Proof.
  intros Hclo. induction 1 as [|p x l q HE Hw IH]; [done|].
  intros Hp. apply IH. by apply (Hclo p).
Qed.

(** [Solver] can answer false only when no walk through open sides leads
    from the cell it started on to the exit. *)
Lemma Solver_false_disconnected fuel x y g g' :
  let e := (STARTING_X (config g), STARTING_Y (config g)) in
  grid_array (WIDTH (config g)) (HEIGHT (config g)) (Maze g) →
  in_grid (WIDTH (config g)) (HEIGHT (config g)) e →
  in_grid (WIDTH (config g)) (HEIGHT (config g)) (x, y) →
  (∀ p, ¬ marked (Maze g) p) →
  (unmarked_cells (WIDTH (config g)) (HEIGHT (config g)) (Maze g) ≤ fuel)%nat →
  Solver fuel x y g = Ret false g' →
  ∀ l, ¬ walk (access (Maze g)) (x, y) l e.
Proof.
  intros e Hg He Hin Hnone Hfuel Hrun l Hwalk.
  destruct (Solver_spec fuel x y g) as (b & g'' & Hrun' & Hon & He' & Hres); try done.
  { intros Hm. by destruct (Hnone (x, y)). }
  rewrite Hrun in Hrun'. injection Hrun' as <- <-.
  destruct Hres as [(_ & _ & Hclo) Hxy]. destruct Hon as (_ & _ & _ & Hw & _).
  apply He'. apply (walk_stays_marked (Maze g') (x, y) l); [|  |done].
  - intros q Hq. apply Hclo; [done|apply Hnone].
  - eapply walk_mono; [|done]. intros a b. by apply (same_walls_access (Maze g) (Maze g')).
Qed.

Lemma passage_access m p q : passage m p q → access m p q.
Proof.
  intros (k & Hk & -> & Hp & Hq). exists k. split; [done|]. split; [done|].
  split; [done|]. by eapply open_side_is_Some.
Qed.

(** Everything [LoadMaze] does on a configuration that can be generated. *)
Lemma LoadMaze_generated fuel f g :
  let c := config_read f (config g) in
  can_generate c →
  WIDTH c * HEIGHT c <= Z.of_nat fuel →
  ∃ mc g1 g2 g3,
    carve R fuel (globals_read f g) = Ret tt g1 ∧
    reset_visited (WIDTH c) (HEIGHT c) g1 = Ret tt g2 ∧
    Solver fuel (ENTRANCE_X c) (ENTRANCE_Y c) g2 = Ret true g3 ∧
    LoadMaze R fuel f g = Ret tt (set_alerts (alerts g3 ++ ["New Maze Generated!"]) g3) ∧
    config g2 = c ∧ config g3 = c ∧
    carving (WIDTH c) (HEIGHT c) mc ∧
    (∀ p, in_grid (WIDTH c) (HEIGHT c) p → marked mc p) ∧
    opened (doors c) mc (Maze g1) ∧
    same_walls (Maze g1) (Maze g2) ∧
    same_walls (Maze g2) (Maze g3) ∧
    Solution_List g2 = [] ∧ Steps_to_Solve g2 = 0 ∧
    found g2 g3 (entrance_cell c).
Proof.
  intros c Hcan Hfuel.
  destruct (can_generate_sizes c Hcan) as (Hw & Hh & Hne).
  pose proof Hcan as (Herr & Hent & Hexit & Hout).
  destruct (carve_spec fuel (globals_read f g)) as (mc & g1 & Hrun1 & Hsame1 & Hcar & Hall & Hop);
    try done.
  cbn [globals_read config] in Hcar, Hall, Hop. fold c in Hcar, Hall, Hop.
  destruct Hsame1 as (Hc1 & Hs1 & Hl1 & Ha1). cbn [globals_read config] in Hc1. fold c in Hc1.
  pose proof Hop as (Hd & Hm & Ho).
  assert (Hg1 : grid_array (WIDTH c) (HEIGHT c) (Maze g1)).
  { intros p. rewrite Hd. apply (carving_grid _ _ _ Hcar). }
  destruct (reset_visited_grid (WIDTH c) (HEIGHT c) g1) as (m2 & Hrun2 & Hm2).
  { intros p Hp. by apply Hg1. }
  change (the_Maze g1) with (Maze g1) in Hm2.
  change (with_Maze m2 g1) with (set_Maze m2 g1) in Hrun2.
  set (g2 := set_Maze m2 g1) in *.
  assert (Hw12 : same_walls (Maze g1) (Maze g2)).
  { intros p. cbn [g2 Maze set_Maze]. rewrite Hm2. case_decide; [|done].
    by destruct (Maze g1 !! p). }
  assert (Hnone : ∀ p, ¬ marked (Maze g2) p).
  { intros p (c' & Hc' & Hv'). cbn [g2 Maze set_Maze] in Hc'. rewrite Hm2 in Hc'.
    case_decide as Hp.
    - destruct (Maze g1 !! p); simpl in Hc'; [|done]. injection Hc' as <-. done.
    - apply Hp, Hg1. rewrite Hc'. eauto. }
  assert (Hg2 : grid_array (WIDTH c) (HEIGHT c) (Maze g2)) by (by eapply same_walls_grid).
  assert (Hc2 : config g2 = c) by done.
  destruct (Solver_spec fuel (ENTRANCE_X c) (ENTRANCE_Y c) g2)
    as (b & g3 & Hrun3 & Hon & He3 & Hres); rewrite ?Hc2; try done.
  { intros Hmk. by destruct (Hnone _ Hmk). }
  { unfold unmarked_cells. etrans; [apply length_filter|]. apply Nat2Z.inj_le.
    by rewrite length_cells_Z. }
  rewrite Hc2 in He3.
  assert (b = true) as ->.
  { destruct b; [done|]. exfalso.
    destruct (carving_paths _ _ _ Hcar (entrance_cell c) (exit_cell c)) as (l & [Hwalk _] & _);
      [by apply Hall..|].
    eapply (Solver_false_disconnected fuel (ENTRANCE_X c) (ENTRANCE_Y c) g2 g3);
      rewrite ?Hc2; try done.
    { unfold unmarked_cells. etrans; [apply length_filter|]. apply Nat2Z.inj_le.
      by rewrite length_cells_Z. }
    eapply walk_mono; [|exact Hwalk]. intros x y Hxy.
    apply (same_walls_access (Maze g1) (Maze g2)); [done|].
    apply passage_access, (opened_passage c mc); done. }
  pose proof Hon as (Hc3 & Ha3 & Hr3 & Hw23 & Hm23).
  exists mc, g1, g2, g3.
  split; [done|]. split; [done|]. split; [done|]. split.
  { rewrite LoadMaze_unfold. fold c. rewrite Herr. unfold bind at 1. rewrite Hrun1.
    unfold bind at 1, SolveMaze, bind at 1, get at 1. rewrite Hc1.
    unfold bind at 1. rewrite Hrun2. unfold bind at 1. rewrite Hrun3. done. }
  split; [done|]. split; [congruence|]. split; [done|]. split; [done|].
  split; [done|]. split; [done|]. split; [done|].
  split; [done|]. split; [done|]. done.
Qed.

(** C1. For every configuration that passes validation (width and height
    at least 1, entrance different from exit) and has its two corner cells
    on the grid and its entrance opening in the outer boundary
    ([can_generate]), [LoadMaze] returns, and the grid it leaves, carved by
    [GenerateMaze] from the exit cell and then opened by [InstallDoors], is
    a spanning tree of the cells: exactly WIDTH * HEIGHT - 1 walls between
    neighbouring cells are removed, and any two cells are joined by one and
    only one simple path through removed walls. *)
Theorem generated_maze_is_spanning_tree (fuel : nat) (f : Form) (g : Globals) :
  let c := config_read f (config g) in
  can_generate c →
  WIDTH c * HEIGHT c <= Z.of_nat fuel →
  ∃ g', LoadMaze R fuel f g = Ret tt g' ∧
        config g' = c ∧
        grid_array (WIDTH c) (HEIGHT c) (Maze g') ∧
        Z.of_nat (removed_walls (WIDTH c) (HEIGHT c) (Maze g')) = WIDTH c * HEIGHT c - 1 ∧
        ∀ p q, in_grid (WIDTH c) (HEIGHT c) p → in_grid (WIDTH c) (HEIGHT c) q →
               one_simple_path (Maze g') p q.
Proof.
  intros c Hcan Hfuel.
  destruct (can_generate_sizes c Hcan) as (Hw & Hh & Hne).
  pose proof Hcan as (Herr & Hent & Hexit & Hout).
  destruct (LoadMaze_generated fuel f g Hcan Hfuel)
    as (mc & g1 & g2 & g3 & _ & _ & _ & Hrun & _ & Hc3 & Hcar & Hall & Hop & H12 & H23 & _).
  fold c in Hrun, Hc3, Hcar, Hall, Hop.
  assert (Hext : ∀ x y, passage mc x y ↔ passage (Maze g3) x y).
  { intros x y. rewrite <- (same_walls_passage (Maze g2) (Maze g3)) by done.
    rewrite <- (same_walls_passage (Maze g1) (Maze g2)) by done.
    symmetry. by apply (opened_passage c). }
  eexists. split; [exact Hrun|]. cbn [config Maze set_alerts].
  split; [done|]. split.
  { eapply same_walls_grid; [exact H23|]. eapply same_walls_grid; [exact H12|].
    intros p. destruct Hop as (Hd & _). rewrite Hd. apply (carving_grid _ _ _ Hcar). }
  split.
  - rewrite <- (removed_walls_ext _ _ mc) by done. by apply carving_removed_walls.
  - intros p q Hp Hq. apply (one_simple_path_ext mc); [done|].
    apply (carving_paths _ _ _ Hcar); by apply Hall.
Qed.

(** C3. On a generated maze the solution list [SolveMaze] leaves starts at
    the exit cell and ends at the entrance cell, every two consecutive
    entries are neighbouring cells whose shared wall is removed, and
    [Steps_to_Solve] is the length of the list minus 1. *)
Theorem solution_list_runs_from_exit_to_entrance (fuel : nat) (f : Form) (g : Globals) :
  let c := config_read f (config g) in
  can_generate c →
  WIDTH c * HEIGHT c <= Z.of_nat fuel →
  ∃ g', LoadMaze R fuel f g = Ret tt g' ∧
        head (Solution_List g') = Some (exit_cell c) ∧
        last (Solution_List g') = Some (entrance_cell c) ∧
        walk (passage (Maze g')) (exit_cell c) (Solution_List g') (entrance_cell c) ∧
        Steps_to_Solve g' = Z.of_nat (length (Solution_List g')) - 1.
Proof.
  intros c Hcan Hfuel.
  pose proof Hcan as (Herr & Hent & Hexit & Hout).
  destruct (LoadMaze_generated fuel f g Hcan Hfuel)
    as (mc & g1 & g2 & g3 & _ & _ & _ & Hrun & Hc2 & Hc3 & Hcar & Hall & Hop & H12 & H23 &
        Hl2 & Hs2 & l & Hl & Hwalk & Hsteps).
  fold c in Hrun, Hc2, Hc3, Hcar, Hall, Hop, Hwalk.
  rewrite Hc2 in Hwalk. fold (exit_cell c) in Hwalk.
  rewrite Hl2 in Hl. simpl in Hl. rewrite Hs2 in Hsteps.
  assert (Hstep : ∀ a b, solver_step (Maze g2) (exit_cell c) a b → passage (Maze g3) a b).
  { intros a b [Hacc Hb].
    apply (same_walls_passage (Maze g2) (Maze g3)); [done|].
    apply (same_walls_passage (Maze g1) (Maze g2)); [done|].
    apply (opened_passage c mc); [done..|].
    apply (same_walls_access (Maze g1) (Maze g2)) in Hacc; [|done].
    destruct Hacc as (k & Hk & -> & Hopen & Hsome).
    destruct Hop as (Hd & _ & Ho).
    apply Ho in Hopen; [|done]. destruct Hopen as [Hopen|[[-> ->]|[-> _]]]; [| |done].
    - apply passage_sym. exists k. split; [done|]. split; [done|]. split; [done|].
      by apply (carving_paired _ _ _ Hcar).
    - exfalso. apply Hout. by apply (carving_grid _ _ _ Hcar), Hd. }
  eexists. split; [exact Hrun|]. cbn [Solution_List Steps_to_Solve Maze set_alerts].
  rewrite Hl.
  pose proof (walk_mono _ _ _ _ _ Hstep Hwalk) as Hwalk'.
  split. { by destruct (walk_head _ _ _ _ Hwalk) as [l' ->]. }
  split. { by eapply walk_last. }
  split; [done|]. lia.
Qed.



(** When the exit opening too is cut in the outer boundary, every wall of
    the generated maze between two cells is open on both sides or on
    neither, and the only open sides on the boundary are the two doors. *)
Theorem walls_paired_when_doors_face_outward (fuel : nat) (f : Form) (g : Globals) :
  let c := config_read f (config g) in
  can_generate c →
  ¬ in_grid (WIDTH c) (HEIGHT c) (toward (exit_cell c) (EXIT c)) →
  WIDTH c * HEIGHT c <= Z.of_nat fuel →
  ∃ g', LoadMaze R fuel f g = Ret tt g' ∧
        (∀ p k, 0 <= k <= 3 →
           in_grid (WIDTH c) (HEIGHT c) p → in_grid (WIDTH c) (HEIGHT c) (toward p k) →
           (open_side (Maze g') p k ↔ open_side (Maze g') (toward p k) (opposite k))) ∧
        (∀ p k, 0 <= k <= 3 →
           in_grid (WIDTH c) (HEIGHT c) p → ¬ in_grid (WIDTH c) (HEIGHT c) (toward p k) →
           (open_side (Maze g') p k ↔ doors c p k)).
Proof.
  intros c Hcan Hexout Hfuel.
  pose proof Hcan as (Herr & Hent & Hexit & Hout).
  destruct (LoadMaze_generated fuel f g Hcan Hfuel)
    as (mc & g1 & g2 & g3 & _ & _ & _ & Hrun & _ & Hc3 & Hcar & Hall & Hop & H12 & H23 & _).
  fold c in Hrun, Hc3, Hcar, Hall, Hop.
  destruct Hop as (Hd & _ & Ho).
  assert (Hopen : ∀ p k, 0 <= k <= 3 →
            (open_side (Maze g3) p k ↔ open_side mc p k ∨ doors c p k)).
  { intros p k Hk. rewrite <- (same_walls_open (Maze g2) (Maze g3)) by done.
    rewrite <- (same_walls_open (Maze g1) (Maze g2)) by done. by apply Ho. }
  assert (Hdoor : ∀ p k, doors c p k → ¬ in_grid (WIDTH c) (HEIGHT c) (toward p k)).
  { intros p k [[-> ->]|[-> ->]]; done. }
  assert (Hpair : ∀ p k, 0 <= k <= 3 → in_grid (WIDTH c) (HEIGHT c) (toward p k) →
            open_side (Maze g3) p k → open_side (Maze g3) (toward p k) (opposite k)).
  { intros p k Hk Hq [Hp|Hp]%Hopen; [|by destruct (Hdoor p k)|done].
    apply Hopen; [by apply opposite_range|]. left. by apply (carving_paired _ _ _ Hcar). }
  eexists. split; [exact Hrun|]. cbn [Maze set_alerts]. split.
  - intros p k Hk Hp Hq. split; [by apply Hpair|].
    intros Hopp. apply Hpair in Hopp; [|by apply opposite_range|by rewrite toward_back].
    by rewrite toward_back, opposite_opposite in Hopp.
  - intros p k Hk Hp Hq. rewrite Hopen by done. split; [|by right].
    intros [Hmc|Hdo]; [|done]. exfalso. apply Hq.
    apply (carving_grid _ _ _ Hcar). eapply open_side_is_Some.
    by apply (carving_paired _ _ _ Hcar).
Qed.

End Generation.

(** ** The interactive session *)

Section Navigator.
Import SolverJS Play.

Lemma CheckStart_returns direction s :
  CheckStart direction s =
  Ret (bool_decide ((Current_Location s).1 = Start_X (opener s))
       && bool_decide ((Current_Location s).2 = Start_Y (opener s))
       && bool_decide (direction = Enter (opener s))) s.
Proof. unfold CheckStart. unfold_monad. by case_match. Qed.

Lemma Move_closed_wall direction dx dy s c :
  Maze s !! Current_Location s = Some c →
  wall c direction ≠ 0 →
  Move direction dx dy s = Ret tt s.
Proof.
  intros Hc Hw. unfold Move, bind at 1. rewrite CheckStart_returns.
  case_match; [done|].
  unfold_monad. unfold cell_at. simpl. rewrite pair_eta, Hc.
  by rewrite bool_decide_eq_false_2.
Qed.

(** C8.  While the session is on a cell whose wall on side [direction] is
    up, [move(direction)] completes and leaves every global as it was: same
    coordinate, same move and jump counters, same visited flags. *)
Theorem move_into_wall_is_noop (s : Session) (direction : Z) (c : Cell) :
  0 <= direction <= 3 →
  Maze s !! Current_Location s = Some c →
  wall c direction ≠ 0 →
  move direction s = Ret tt s.
Proof.
  intros Hd Hc Hw. unfold move, MoveUp, MoveRight, MoveDown, MoveLeft.
  repeat case_decide; subst; try by eapply Move_closed_wall.
  replace direction with 3 in * by lia. by eapply Move_closed_wall.
Qed.

Lemma cell_style_in_grid s x y :
  in_grid (WIDTH (opener s)) (HEIGHT (opener s)) (x, y) → cell_style x y s = Ret tt s.
Proof. intros H. unfold cell_style. by rewrite bool_decide_eq_true_2. Qed.

Lemma cell_style_off_grid s x y :
  ¬ in_grid (WIDTH (opener s)) (HEIGHT (opener s)) (x, y) → cell_style x y s = Throw s.
Proof. intros H. unfold cell_style. by rewrite bool_decide_eq_false_2. Qed.

Lemma sentinel_off_grid width height : ¬ in_grid width height (-1, -1).
Proof. unfold in_grid. simpl. lia. Qed.

Lemma Move_finished direction dx dy s :
  on_grid s → Finished s → after (Move direction dx dy) s = s.
Proof.
  intros Hg Hf. unfold after, Move, bind at 1. rewrite CheckStart_returns.
  destruct (_ && _); [done|].
  unfold_monad. unfold cell_at. simpl. rewrite pair_eta, Hf.
  destruct (Maze s !! (-1, -1)) as [c|] eqn:Hc; [|done].
  exfalso. eapply sentinel_off_grid, Hg. by rewrite Hc.
Qed.

Lemma JumpHere_finished w h s :
  Finished s → after (JumpHere w h) s = s.
Proof.
  intros Hf. unfold after, JumpHere, ClearCurrentCell.
  unfold_monad. unfold cell_at. simpl.
  destruct (Maze s !! (w, h)) as [c|]; [|done].
  destruct (visited c); [|done].
  unfold Finished in Hf. rewrite Hf.
  rewrite cell_style_off_grid; [done|apply sentinel_off_grid].
Qed.

Lemma step_finished s i : on_grid s → Finished s → step s i = s.
Proof.
  intros Hg Hf. unfold step.
  destruct i; simpl; first [by apply Move_finished | by apply JumpHere_finished].
Qed.

Lemma play_finished s inputs : on_grid s → Finished s → play s inputs = s.
Proof.
  intros Hg Hf. induction inputs as [|i inputs IH]; [done|].
  unfold play in *. simpl. by rewrite step_finished.
Qed.

Lemma Move_through_exit dx dy s :
  on_grid s →
  Current_Location s = (End_X (opener s), End_Y (opener s)) →
  (Start_X (opener s), Start_Y (opener s)) ≠ (End_X (opener s), End_Y (opener s)) →
  open_side (Maze s) (Current_Location s) (Exit (opener s)) →
  Move (Exit (opener s)) dx dy s =
  Ret tt (set_livestats
            (Some (mkEndingStatistics (User_Moves s) (Steps_to_Solve (opener s))
                     (accuracy (Steps_to_Solve (opener s)) (User_Moves s)) (User_Jumps s)))
            (set_Current_Location (-1, -1) (set_alerts (S (alerts s)) s))).
Proof.
  intros Hg Hcur Hne (c & Hc & Hw).
  assert (Hin : in_grid (WIDTH (opener s)) (HEIGHT (opener s)) (Current_Location s)).
  { apply Hg. by rewrite Hc. }
  assert (Hst : CheckStart (Exit (opener s)) s = Ret false s).
  { rewrite CheckStart_returns. f_equal. rewrite Hcur. simpl.
    destruct (bool_decide (End_X (opener s) = Start_X (opener s))) eqn:E1; [|done].
    destruct (bool_decide (End_Y (opener s) = Start_Y (opener s))) eqn:E2; [|done].
    apply bool_decide_eq_true_1 in E1, E2. destruct Hne. by rewrite E1, E2. }
  unfold Move, bind at 1. rewrite Hst.
  unfold bind at 1. unfold get at 1.
  unfold bind at 1. unfold cell_at at 1. simpl. rewrite pair_eta, Hc.
  rewrite (bool_decide_eq_true_2 _ Hw).
  unfold bind at 1. unfold ClearCurrentCell, bind at 1, get at 1.
  rewrite cell_style_in_grid by by rewrite pair_eta.
  unfold bind at 1. unfold CheckFinish, bind at 1, get at 1.
  rewrite Hcur. simpl. rewrite !bool_decide_eq_true_2 by done. simpl.
  reflexivity.
Qed.

(** The ways a move can end. *)
Lemma Move_cases direction dx dy s :
  on_grid s →
  let next := ((Current_Location s).1 + dx, (Current_Location s).2 + dy) in
  after (Move direction dx dy) s = s
  ∨ (in_grid (WIDTH (opener s)) (HEIGHT (opener s)) (Current_Location s) ∧
     Current_Location s = end_cell s ∧
     after (Move direction dx dy) s =
       set_livestats
         (Some (mkEndingStatistics (User_Moves s) (Steps_to_Solve (opener s))
                  (accuracy (Steps_to_Solve (opener s)) (User_Moves s)) (User_Jumps s)))
         (set_Current_Location (-1, -1) (set_alerts (S (alerts s)) s)))
  ∨ (in_grid (WIDTH (opener s)) (HEIGHT (opener s)) (Current_Location s) ∧
     Maze s !! next = None ∧
     after (Move direction dx dy) s = set_Current_Location next s)
  ∨ (in_grid (WIDTH (opener s)) (HEIGHT (opener s)) (Current_Location s) ∧
     ∃ c, Maze s !! next = Some c ∧
     after (Move direction dx dy) s =
       set_User_Moves (User_Moves s + 1)
         (set_Maze (<[next := set_visited true c]> (Maze s))
            (set_Current_Location next s))).
Proof.
  intros Hg next.
  remember (after (Move direction dx dy) s) as o eqn:Ho.
  unfold after, Move, bind at 1 in Ho. rewrite CheckStart_returns in Ho.
  destruct (_ && _); [by left|].
  unfold bind at 1, get at 1, bind at 1, cell_at at 1 in Ho.
  simpl in Ho. rewrite pair_eta in Ho.
  destruct (Maze s !! Current_Location s) as [c|] eqn:Hc; [|by left].
  assert (Hin : in_grid (WIDTH (opener s)) (HEIGHT (opener s)) (Current_Location s)).
  { apply Hg. by rewrite Hc. }
  destruct (bool_decide (wall c direction = 0)); [|by left].
  unfold bind at 1, ClearCurrentCell, bind at 1, get at 1 in Ho.
  rewrite cell_style_in_grid in Ho by by rewrite pair_eta.
  unfold bind at 1, CheckFinish, bind at 1, get at 1 in Ho.
  destruct (bool_decide ((Current_Location s).1 = End_X (opener s))
            && bool_decide ((Current_Location s).2 = End_Y (opener s))
            && bool_decide (direction = Exit (opener s))) eqn:Hfin.
  { right; left. split; [done|]. split; [|done].
    apply andb_prop in Hfin as [Hfin _]. apply andb_prop in Hfin as [H1 H2].
    apply bool_decide_eq_true_1 in H1, H2. unfold end_cell.
    destruct (Current_Location s); simpl in *; congruence. }
  simpl in Ho. unfold bind at 1, modify at 1 in Ho.
  unfold bind at 1, UpdatePosition, bind at 1, get at 1 in Ho. simpl in Ho.
  fold next in Ho.
  destruct (Maze s !! next) as [c'|] eqn:Hn.
  - right; right; right. split; [done|]. exists c'. split; [done|].
    unfold bind at 1 in Ho.
    rewrite (update_cell_present _ _ _ _ c') in Ho by done. simpl in Ho.
    rewrite cell_style_in_grid in Ho; [done|]. simpl. apply Hg. fold next. by rewrite Hn.
  - right; right; left. split; [done|]. split; [done|].
    unfold bind at 1 in Ho. by rewrite update_cell_missing in Ho.
Qed.

(** The ways a click can end. *)
Lemma JumpHere_cases w h s :
  on_grid s →
  after (JumpHere w h) s = s
  ∨ (∃ c, Maze s !! (w, h) = Some c ∧ visited c = true ∧
     in_grid (WIDTH (opener s)) (HEIGHT (opener s)) (Current_Location s) ∧
     after (JumpHere w h) s =
       set_User_Jumps (User_Jumps s + 1)
         (set_Maze (<[(w, h) := set_visited true c]> (Maze s))
            (set_Current_Location (w, h) s))).
Proof.
  intros Hg.
  remember (after (JumpHere w h) s) as o eqn:Ho.
  unfold after, JumpHere in Ho.
  unfold bind at 1, cell_at at 1 in Ho. simpl in Ho.
  destruct (Maze s !! (w, h)) as [c|] eqn:Hc; [|by left].
  destruct (visited c) eqn:Hv; [|by left].
  unfold bind at 1, ClearCurrentCell, bind at 1, get at 1 in Ho.
  destruct (decide (in_grid (WIDTH (opener s)) (HEIGHT (opener s)) (Current_Location s)))
    as [Hin|Hout].
  - right. exists c. repeat (split; [done|]).
    rewrite cell_style_in_grid in Ho by by rewrite pair_eta.
    unfold bind at 1, modify at 1 in Ho.
    unfold bind at 1, UpdatePosition, bind at 1, get at 1 in Ho. simpl in Ho.
    unfold bind at 1 in Ho.
    rewrite (update_cell_present _ _ _ _ c) in Ho by done. simpl in Ho.
    rewrite cell_style_in_grid in Ho; [done|]. simpl. apply Hg. by rewrite Hc.
  - left. rewrite cell_style_off_grid in Ho; [done|by rewrite pair_eta].
Qed.

(** C6.  On the exit cell, with the exit's wall open, [move(Exit)] ends the
    session: one alert, the sentinel (-1,-1) in [Current_Location], the
    array and both counters untouched.  From then on every key and every
    click leaves all globals as they are, so no second finish happens. *)
Theorem finish_once_then_noop (s : Session) :
  on_grid s →
  Current_Location s = (End_X (opener s), End_Y (opener s)) →
  (Start_X (opener s), Start_Y (opener s)) ≠ (End_X (opener s), End_Y (opener s)) →
  0 <= Exit (opener s) <= 3 →
  open_side (Maze s) (Current_Location s) (Exit (opener s)) →
  ∃ s', move (Exit (opener s)) s = Ret tt s' ∧
        Finished s' ∧ alerts s' = S (alerts s) ∧
        Maze s' = Maze s ∧ User_Moves s' = User_Moves s ∧ User_Jumps s' = User_Jumps s ∧
        ∀ inputs, play s' inputs = s'.
Proof.
  intros Hg Hcur Hne Hx Ho.
  eexists. split.
  - unfold move, MoveUp, MoveRight, MoveDown, MoveLeft.
    repeat case_decide.
    all: match goal with H : Exit _ = ?k |- _ => rewrite <- H | _ => idtac end.
    all: try by apply Move_through_exit.
    replace 3 with (Exit (opener s)) by lia. by apply Move_through_exit.
  - repeat split. intros inputs. by apply play_finished.
Qed.

Lemma unit_step_leaves_sentinel (width height : Z) (p : Z * Z) (dx dy : Z) :
  in_grid width height p → unit_step dx dy → (p.1 + dx, p.2 + dy) ≠ (-1, -1).
Proof. unfold in_grid, unit_step. intros Hp Hu Heq. inversion Heq. lia. Qed.

Lemma Move_inv direction dx dy s :
  unit_step dx dy → session_inv s → session_inv (after (Move direction dx dy) s).
Proof.
  intros Hu (Hg & Hst & Hne & Hm & Hz).
  destruct (Move_cases direction dx dy s Hg)
    as [-> | [(Hin & Hend & ->) | [(Hin & Hnone & ->) | (Hin & c & Hc & ->)]]].
  - done.
  - split; [done|split; [done|split; [done|split; [done|]]]]. simpl. intros H0.
    destruct (Hz H0) as (_ & Hcur & _). destruct Hne. by rewrite <- Hcur, Hend.
  - split; [done|split; [done|split; [done|split; [done|]]]]. simpl. intros H0.
    destruct (Hz H0) as (Hs & Hcur & Hmk).
    split; [|split]; simpl.
    + rewrite (Hcur Hin) in *. by eapply unit_step_leaves_sentinel.
    + intros Hin'. apply Hg in Hin'. rewrite Hnone in Hin'. by destruct Hin'.
    + done.
  - split; [|split; [done|split; [done|split]]]; simpl.
    + apply grid_array_insert; [done|by rewrite Hc].
    + lia.
    + lia.
Qed.

Lemma JumpHere_inv w h s : session_inv s → session_inv (after (JumpHere w h) s).
Proof.
  intros (Hg & Hst & Hne & Hm & Hz).
  destruct (JumpHere_cases w h s Hg) as [-> | (c & Hc & Hv & Hin & ->)]; [done|].
  split; [|split; [done|split; [done|split; [done|]]]]; simpl.
  - apply grid_array_insert; [done|by rewrite Hc].
  - intros H0. destruct (Hz H0) as (Hs & Hcur & Hmk).
    assert (Hwh : (w, h) = start_cell s) by (apply Hmk; by exists c).
    split; [|split]; simpl.
    + rewrite Hwh. intros Heq. rewrite Heq in Hst. by eapply sentinel_off_grid.
    + done.
    + intros p (c' & Hc' & Hv'). destruct (decide ((w, h) = p)) as [<-|Hnp]; [done|].
      rewrite lookup_insert_ne in Hc' by done. apply Hmk. by exists c'.
Qed.

Lemma step_inv s i : session_inv s → session_inv (step s i).
Proof.
  intros Hi. unfold step. destruct i; simpl.
  - apply Move_inv; [|done]. unfold unit_step. lia.
  - apply Move_inv; [|done]. unfold unit_step. lia.
  - apply Move_inv; [|done]. unfold unit_step. lia.
  - apply Move_inv; [|done]. unfold unit_step. lia.
  - by apply JumpHere_inv.
Qed.

Lemma play_inv s inputs : session_inv s → session_inv (play s inputs).
Proof.
  revert s. induction inputs as [|i inputs IH]; intros s Hi; [done|].
  unfold play in *. simpl. apply IH. by apply step_inv.
Qed.

(** The page as it starts: every mark cleared, then the entrance marked. *)
Lemma page_load_inv (g : MazeJS.Globals) :
  let c := MazeJS.config g in
  grid_array (MazeJS.WIDTH c) (MazeJS.HEIGHT c) (MazeJS.Maze g) →
  in_grid (MazeJS.WIDTH c) (MazeJS.HEIGHT c) (MazeJS.ENTRANCE_X c, MazeJS.ENTRANCE_Y c) →
  (MazeJS.ENTRANCE_X c, MazeJS.ENTRANCE_Y c) ≠ (MazeJS.STARTING_X c, MazeJS.STARTING_Y c) →
  session_inv (after page_load (page_load_globals g)).
Proof.
  intros c Hg Hin Hne.
  set (s0 := page_load_globals g).
  destruct (reset_visited_grid (MazeJS.WIDTH c) (MazeJS.HEIGHT c) s0) as (m' & Hrun & Hm').
  { intros p Hp. simpl. by apply Hg. }
  assert (Hg' : grid_array (MazeJS.WIDTH c) (MazeJS.HEIGHT c) m').
  { intros p. rewrite Hm'. simpl. specialize (Hg p).
    case_decide as Hp.
    - rewrite fmap_is_Some. done.
    - done. }
  destruct (Hg' (MazeJS.ENTRANCE_X c, MazeJS.ENTRANCE_Y c)) as [_ Hs].
  destruct (Hs Hin) as [c0 Hc0].
  unfold after, page_load, bind at 1, get at 1.
  unfold bind at 1. simpl. fold c. fold s0. rewrite Hrun.
  unfold Start, UpdatePosition, bind at 1, get at 1. simpl. fold c.
  unfold bind at 1.
  rewrite (update_cell_present _ _ _ _ c0) by done. simpl. fold c.
  rewrite cell_style_in_grid by done.
  split; [|split; [done|split; [done|split; [done|]]]]; simpl; fold c.
  - apply grid_array_insert; [done|by rewrite Hc0].
  - intros _. split; [|split]; simpl; fold c.
    + intros Heq. rewrite Heq in Hin. by eapply sentinel_off_grid.
    + done.
    + intros p (c' & Hc' & Hv').
      destruct (decide ((MazeJS.ENTRANCE_X c, MazeJS.ENTRANCE_Y c) = p)) as [<-|Hnp]; [done|].
      rewrite lookup_insert_ne in Hc' by done.
      rewrite Hm' in Hc'. simpl in Hc'. case_decide as Hp.
      * destruct (MazeJS.Maze g !! p); simpl in Hc'; [|done].
        inversion Hc'; subst. done.
      * exfalso. apply Hp, Hg. rewrite Hc'. eauto.
Qed.

(** C10.  On a maze whose entrance and exit are different cells, no
    sequence of keys and clicks ends the session with the move counter at
    zero: in every finished state reached from the loaded page,
    [User_Moves] is at least 1. *)
Theorem finished_session_has_moved (g : MazeJS.Globals) (inputs : list Input) :
  let c := MazeJS.config g in
  grid_array (MazeJS.WIDTH c) (MazeJS.HEIGHT c) (MazeJS.Maze g) →
  in_grid (MazeJS.WIDTH c) (MazeJS.HEIGHT c) (MazeJS.ENTRANCE_X c, MazeJS.ENTRANCE_Y c) →
  (MazeJS.ENTRANCE_X c, MazeJS.ENTRANCE_Y c) ≠ (MazeJS.STARTING_X c, MazeJS.STARTING_Y c) →
  let s := play (after page_load (page_load_globals g)) inputs in
  Finished s → 1 <= User_Moves s.
Proof.
  intros c Hg Hin Hne s Hf.
  destruct (play_inv (after page_load (page_load_globals g)) inputs) as (_ & _ & _ & Hm & Hz).
  { by apply page_load_inv. }
  fold s in Hm, Hz.
  destruct (decide (User_Moves s = 0)) as [H0|]; [|lia].
  destruct (Hz H0) as (Hs & _). done.
Qed.







End Navigator.

(** ** The shuffle *)

Section ShuffleProofs.
Import MazeJS Shuffle Pages.

(** C2. [ShuffleNeighbors] is not an unbiased permutation: on the three
    neighbours of cell (0,1) of a 3 by 3 grid, of the 27 equally likely
    sequences of draws 4 return the list in its order and 5 return it with
    its first two entries exchanged, so not every arrangement is as likely
    as every other. *)
Theorem ShuffleNeighbors_is_biased :
  let neighbors := GetNeighbors config_3x3 0 1 in
  neighbors = [(0, 0); (1, 1); (0, 2)] ∧
  length (draw_sequences 3 3) = 27%nat ∧
  ways neighbors [(0, 0); (1, 1); (0, 2)] = 4%nat ∧
  ways neighbors [(1, 1); (0, 0); (0, 2)] = 5%nat ∧
  ¬ unbiased neighbors.
Proof.
  split; [done|]. split; [done|].
  assert (H4 : ways (GetNeighbors config_3x3 0 1) [(0, 0); (1, 1); (0, 2)] = 4%nat)
    by (by vm_compute).
  assert (H5 : ways (GetNeighbors config_3x3 0 1) [(1, 1); (0, 0); (0, 2)] = 5%nat)
    by (by vm_compute).
  split; [done|]. split; [done|].
  intros Hun.
  specialize (Hun [(0, 0); (1, 1); (0, 2)] [(1, 1); (0, 0); (0, 2)]).
  rewrite H4, H5 in Hun.
  assert (4 = 5)%nat; [|done]. apply Hun; [done|apply perm_swap].
Qed.

Lemma ways_two (a b : Z * Z) :
  a ≠ b → ways [a; b] [a; b] = 2%nat ∧ ways [a; b] [b; a] = 2%nat.
Proof.
  intros Hne. unfold ways. cbn.
  unfold ShuffleNeighbors_with, ShuffleNeighbors. cbn.
  rewrite !(decide_True (P := [a; b] = [a; b])), !(decide_True (P := [b; a] = [b; a])) by done.
  rewrite !(decide_False (P := [a; b] = [b; a])), !(decide_False (P := [b; a] = [a; b]))
    by congruence.
  done.
Qed.

(** On a list of at most two neighbours [ShuffleNeighbors] is unbiased:
    each arrangement comes out for the same number of sequences of draws. *)
Theorem ShuffleNeighbors_unbiased_up_to_two (neighbors : list (Z * Z)) :
  (length neighbors ≤ 2)%nat → unbiased neighbors.
Proof.
  intros Hlen p q Hp Hq.
  destruct neighbors as [|a [|b [|? ?]]]; simpl in Hlen; [| | |lia].
  - apply Permutation_nil_r in Hp, Hq. by subst.
  - apply Permutation_singleton_r in Hp, Hq. by subst.
  - symmetry in Hp, Hq. apply Permutation_length_2_inv in Hp, Hq.
    destruct (decide (a = b)) as [->|Hne].
    + destruct Hp as [-> | ->], Hq as [-> | ->]; done.
    + destruct (ways_two a b Hne) as [H1 H2].
      destruct Hp as [-> | ->], Hq as [-> | ->]; congruence.
Qed.

Lemma ShuffleNeighbors_unbiased_up_to_two_witness :
  unbiased (GetNeighbors config_3x3 0 0).
Proof.
  refine (ShuffleNeighbors_unbiased_up_to_two (GetNeighbors config_3x3 0 0) _).
  vm_compute. lia.
Defined.

End ShuffleProofs.

(** ** The pages of the examples *)

Section Examples.
Import MazeJS Generated Pages.

Lemma grid_array_dom (width height : Z) (m : gmap (Z * Z) Cell) :
  dom m = list_to_set (cells width height) → grid_array width height m.
Proof.
  intros Hdom p. rewrite <- elem_of_dom, Hdom, elem_of_list_to_set. apply elem_of_cells.
Qed.

(** C5. The walls of a generated maze are not always paired: with the exit
    at the bottom-right corner and the option of the first exit menu that
    is labelled Bottom Wall, whose value is 3, [InstallDoors] clears the
    left slot of the exit cell (1,1) of a 2 by 2 maze, which faces the cell
    (0,1) of the grid, while the right slot of (0,1) still holds its
    wall. *)
Theorem exit_door_cut_in_inner_wall :
  let f := form_2x2_bottom_wall in
  (wall_exit f, "Bottom Wall") ∈ HTML_EXIT_INPUT_walls ∧
  can_generate (config_read f (config (page f))) ∧
  ∃ g', LoadMaze counting 4 f (page f) = Ret tt g' ∧
        in_grid 2 2 (1, 1) ∧ in_grid 2 2 (toward (1, 1) 3) ∧
        toward (1, 1) 3 = (0, 1) ∧ opposite 3 = 1 ∧
        open_side (Maze g') (1, 1) 3 ∧
        ¬ open_side (Maze g') (0, 1) 1.
Proof.
  split; [compute_done|]. split; [compute_done|].
  eexists. split; [vm_compute; reflexivity|].
  split; [compute_done|]. split; [compute_done|]. split; [done|]. split; [done|].
  split; [compute_done|]. compute_done.
Qed.



Lemma generated_maze_is_spanning_tree_witness :
  let c := config_read form_2x1 (config (page form_2x1)) in
  ∃ g', LoadMaze always_first 2 form_2x1 (page form_2x1) = Ret tt g' ∧
        config g' = c ∧
        grid_array (WIDTH c) (HEIGHT c) (Maze g') ∧
        Z.of_nat (removed_walls (WIDTH c) (HEIGHT c) (Maze g')) = WIDTH c * HEIGHT c - 1 ∧
        ∀ p q, in_grid (WIDTH c) (HEIGHT c) p → in_grid (WIDTH c) (HEIGHT c) q →
               one_simple_path (Maze g') p q.
Proof.
  refine (generated_maze_is_spanning_tree always_first 2 form_2x1 (page form_2x1) _ _);
    compute_done.
Defined.

Lemma solution_list_runs_from_exit_to_entrance_witness :
  let c := config_read form_2x1 (config (page form_2x1)) in
  ∃ g', LoadMaze always_first 2 form_2x1 (page form_2x1) = Ret tt g' ∧
        head (Solution_List g') = Some (exit_cell c) ∧
        last (Solution_List g') = Some (entrance_cell c) ∧
        walk (passage (Maze g')) (exit_cell c) (Solution_List g') (entrance_cell c) ∧
        Steps_to_Solve g' = Z.of_nat (length (Solution_List g')) - 1.
Proof.
  refine (solution_list_runs_from_exit_to_entrance always_first 2 form_2x1
            (page form_2x1) _ _);
    compute_done.
Defined.


Lemma walls_paired_when_doors_face_outward_witness :
  let c := config_read form_2x1 (config (page form_2x1)) in
  ∃ g', LoadMaze always_first 2 form_2x1 (page form_2x1) = Ret tt g' ∧
        (∀ p k, 0 <= k <= 3 →
           in_grid (WIDTH c) (HEIGHT c) p → in_grid (WIDTH c) (HEIGHT c) (toward p k) →
           (open_side (Maze g') p k ↔ open_side (Maze g') (toward p k) (opposite k))) ∧
        (∀ p k, 0 <= k <= 3 →
           in_grid (WIDTH c) (HEIGHT c) p → ¬ in_grid (WIDTH c) (HEIGHT c) (toward p k) →
           (open_side (Maze g') p k ↔ doors c p k)).
Proof.
  refine (walls_paired_when_doors_face_outward always_first 2 form_2x1 (page form_2x1)
            _ _ _);
    compute_done.
Defined.

End Examples.

(** ** A session on a generated maze *)

Section SessionExamples.
Import SolverJS Play Pages.

Lemma move_into_wall_is_noop_witness :
  let s := session (generated always_first 2 form_2x1) in
  move 0 s = Ret tt s.
Proof.
  refine (move_into_wall_is_noop (session (generated always_first 2 form_2x1)) 0
            (mkCell 1 0 1 0 true) _ _ _).
  - lia.
  - by vm_compute.
  - by vm_compute.
Defined.

Lemma finish_once_then_noop_witness :
  let s := play (session (generated always_first 2 form_2x1)) [KeyD] in
  ∃ s', move (Exit (opener s)) s = Ret tt s' ∧
        Finished s' ∧ alerts s' = S (alerts s) ∧
        Maze s' = Maze s ∧ User_Moves s' = User_Moves s ∧ User_Jumps s' = User_Jumps s ∧
        ∀ inputs, play s' inputs = s'.
Proof.
  refine (finish_once_then_noop
            (play (session (generated always_first 2 form_2x1)) [KeyD]) _ _ _ _ _).
  - apply grid_array_dom. compute_done.
  - by vm_compute.
  - compute_done.
  - compute_done.
  - compute_done.
Defined.

Lemma finished_session_has_moved_witness :
  1 <= User_Moves (play (session (generated always_first 2 form_2x1)) [KeyD; KeyD]).
Proof.
  refine (finished_session_has_moved (generated always_first 2 form_2x1) [KeyD; KeyD]
            _ _ _ _).
  - apply grid_array_dom. compute_done.
  - compute_done.
  - compute_done.
  - by vm_compute.
Defined.


End SessionExamples.

(** * More of the two scripts *)

Section MoreWalks.
Context {V : Type} `{EqDecision V}.
Implicit Types (E : V → V → Prop) (p q r : V) (l : list V).

Lemma walk_flip E p l q : walk E p l q → walk (flip E) q (reverse l) p.
Proof.
  induction 1 as [p|p x l q HE Hw IH]; [constructor|].
  rewrite reverse_cons. eapply walk_snoc; eauto.
Qed.

Lemma walk_suffix E p l q x :
  walk E p l q → x ∈ l → ∃ l1 l2, l = l1 ++ l2 ∧ walk E x l2 q.
Proof.
  induction 1 as [p|p y l q HE Hw IH]; intros Hx.
  - apply list_elem_of_singleton in Hx as ->. exists [], [p]. split; [done|constructor].
  - destruct (decide (x = p)) as [->|Hne].
    + exists [], (p :: l). split; [done|]. by econstructor.
    + apply elem_of_cons in Hx as [?|Hx]; [done|].
      destruct (IH Hx) as (l1 & l2 & -> & Hw'). by exists (p :: l1), l2.
Qed.

(** Cutting the loops out of a walk. *)
Lemma walk_shorten E p l q :
  walk E p l q →
  ∃ l', walk E p l' q ∧ NoDup l' ∧ (∀ x, x ∈ l' → x ∈ l) ∧ (length l' ≤ length l)%nat.
Proof.
  induction 1 as [p|p y l q HE Hw (l' & Hw' & Hnd & Hsub & Hlen)].
  - exists [p]. split; [constructor|]. split; [apply NoDup_singleton|]. done.
  - destruct (decide (p ∈ l')) as [Hin|Hout].
    + destruct (walk_suffix _ _ _ _ _ Hw' Hin) as (l1 & l2 & -> & Hw2).
      exists l2. split; [done|]. apply NoDup_app in Hnd as (_ & _ & Hnd2).
      split; [done|]. split.
      * intros x Hx. right. apply Hsub. apply elem_of_app. by right.
      * rewrite length_app in Hlen. simpl. lia.
    + exists (p :: l'). split; [by econstructor|]. split; [by constructor|]. split.
      * intros x [->|Hx]%elem_of_cons; [left|right; by apply Hsub].
      * simpl. lia.
Qed.

End MoreWalks.

Section SolverPaths.
Import MazeJS Generated.

(** [Solver] returned true: the cells it recorded are distinct and none of
    them bore a mark when it was called. *)
Definition fresh_path (g g' : Globals) : Prop :=
  ∃ l, Solution_List g' = Solution_List g ++ l ∧ NoDup l ∧
       ∀ q, q ∈ l → ¬ marked (Maze g) q.

Definition Solver_simple (fuel : nat) : Prop :=
  ∀ x y g g',
    let e := (STARTING_X (config g), STARTING_Y (config g)) in
    grid_array (WIDTH (config g)) (HEIGHT (config g)) (Maze g) →
    in_grid (WIDTH (config g)) (HEIGHT (config g)) e →
    ¬ marked (Maze g) e →
    in_grid (WIDTH (config g)) (HEIGHT (config g)) (x, y) →
    (marked (Maze g) (x, y) → closed_at (Maze g) (x, y)) →
    (unmarked_cells (WIDTH (config g)) (HEIGHT (config g)) (Maze g) ≤ fuel)%nat →
    Solver fuel x y g = Ret true g' → fresh_path g g'.

Lemma Solver_loop_simple fuel x y :
  Solver_simple fuel →
  ∀ ns g g',
    let e := (STARTING_X (config g), STARTING_Y (config g)) in
    grid_array (WIDTH (config g)) (HEIGHT (config g)) (Maze g) →
    in_grid (WIDTH (config g)) (HEIGHT (config g)) e →
    ¬ marked (Maze g) e →
    (x, y) ≠ e →
    marked (Maze g) (x, y) →
    (∀ n, n ∈ ns → access (Maze g) (x, y) n ∧
                   (marked (Maze g) n → closed_at (Maze g) n)) →
    (unmarked_cells (WIDTH (config g)) (HEIGHT (config g)) (Maze g) ≤ fuel)%nat →
    Solver_loop (Solver fuel) x y ns g = Ret true g' →
    ∃ l, Solution_List g' = Solution_List g ++ l ++ [(x, y)] ∧ NoDup l ∧
         ∀ q, q ∈ l → ¬ marked (Maze g) q.
Proof.
  intros IHfuel. induction ns as [|n ns IH]; intros g g' e Hg He Hne Hxy Hmk Hns Hfuel Hrun.
  - done.
  - destruct (Hns n) as [Hacc Hclosed]; [left|].
    assert (Hn : in_grid (WIDTH (config g)) (HEIGHT (config g)) n).
    { destruct Hacc as (k & _ & _ & _ & Hs). by apply Hg. }
    destruct (Solver_spec fuel n.1 n.2 g) as (b & g1 & Hrun1 & Hon1 & He1 & Hres1);
      rewrite ?pair_eta; try done.
    rewrite Solver_loop_cons, Hrun1 in Hrun. rewrite pair_eta in Hres1.
    pose proof Hon1 as (Hc1 & Ha1 & Hr1 & Hw1 & Hm1).
    destruct b.
    + injection Hrun as <-.
      destruct (IHfuel n.1 n.2 g g1) as (l & Hl & Hnd & Hfresh); rewrite ?pair_eta; try done.
      exists l. cbn [Solution_List set_Steps_to_Solve set_Solution_List].
      split; [by rewrite Hl, <- app_assoc|]. done.
    + destruct Hres1 as [Hex1 Hn1].
      destruct (IH g1 g') as (l & Hl & Hnd & Hfresh); rewrite ?Hc1; try done.
      { by eapply same_walls_grid. }
      { by apply Hm1. }
      { intros n' Hn'. destruct (Hns n') as [Hacc' Hclosed']; [by right|]. split.
        - by apply (same_walls_access (Maze g) (Maze g1)).
        - intros Hmk'. destruct (decide (marked (Maze g) n')) as [Hm|Hm].
          + eapply closed_at_mono; [done..|]. by apply Hclosed'.
          + destruct Hex1 as (_ & _ & Hclo). by apply Hclo. }
      { etrans; [|exact Hfuel]. by apply unmarked_cells_le. }
      destruct Hex1 as (Hl1 & _ & _).
      exists l. split; [by rewrite Hl, Hl1|]. split; [done|].
      intros q Hq Hmq. by apply (Hfresh q Hq), Hm1.
Qed.

Lemma Solver_simple_spec fuel : Solver_simple fuel.
Proof.
  induction fuel as [|fuel IH]; intros x y g g' e Hg He Hne Hin Hclosed Hfuel Hrun; [done|].
  cbn [Solver] in Hrun. unfold bind at 1, get at 1 in Hrun.
  destruct (decide ((x, y) = e)) as [Hxy|Hxy].
  - injection Hxy as -> ->. rewrite !bool_decide_eq_true_2 in Hrun by done.
    cbn [andb] in Hrun. injection Hrun as <-.
    exists [e]. split; [done|]. split; [apply NoDup_singleton|].
    by intros q ->%list_elem_of_singleton.
  - assert (bool_decide (x = STARTING_X (config g))
            && bool_decide (y = STARTING_Y (config g)) = false) as Hb.
    { apply andb_false_iff. rewrite !bool_decide_eq_false. unfold e in Hxy.
      destruct (decide (x = STARTING_X (config g))) as [->|]; [right|by left].
      intros ->. done. }
    rewrite Hb in Hrun.
    destruct (proj2 (Hg (x, y)) Hin) as [c Hc].
    unfold bind at 1 in Hrun. rewrite (update_cell_present g x y _ c) in Hrun by done.
    set (g1 := with_Maze _ g) in Hrun.
    assert (Hw1 : same_walls (Maze g) (Maze g1)) by (by apply same_walls_mark).
    assert (Hg1 : grid_array (WIDTH (config g)) (HEIGHT (config g)) (Maze g1)).
    { by eapply same_walls_grid. }
    assert (Hm1 : ∀ p, marked (Maze g1) p ↔ marked (Maze g) p ∨ p = (x, y)).
    { intros p. by apply marked_insert_visited. }
    assert (Hne1 : ¬ marked (Maze g1) e).
    { rewrite Hm1. intros [?|?]; [done|]. by apply Hxy. }
    destruct (GetNeighborAccess_spec g1 x y Hg1 Hin) as (ns & Hrun' & Hns).
    unfold bind at 1 in Hrun. rewrite Hrun' in Hrun.
    destruct (decide (marked (Maze g) (x, y))) as [Hmk|Hmk].
    + assert (ns = []) as ->.
      { apply elem_of_nil_inv. intros q [Hacc Hq]%Hns. apply Hq, Hm1. left.
        apply (Hclosed Hmk). by apply (same_walls_access (Maze g) (Maze g1)). }
      done.
    + destruct (Solver_loop_simple fuel x y IH ns g1 g') as (l & Hl & Hnd & Hfresh); try done.
      { apply Hm1. by right. }
      { intros n [Hacc Hn]%Hns. split; [done|]. by intros ?. }
      { assert (Hv : visited c = false).
        { destruct (visited c) eqn:Hv; [|done]. destruct Hmk. by exists c. }
        change (Maze g1) with (<[(x, y) := set_visited true c]> (Maze g)).
        cbn [g1 config with_Maze Globals_MazeStore set_Maze].
        rewrite (unmarked_cells_mark _ _ _ (x, y) c) in Hfuel by done. lia. }
      exists (l ++ [(x, y)]). split; [done|]. split.
      * apply NoDup_app. split; [done|]. split; [|apply NoDup_singleton].
        intros q Hq ->%list_elem_of_singleton. apply (Hfresh _ Hq), Hm1. by right.
      * intros q [Hq| ->%list_elem_of_singleton]%elem_of_app; [|done].
        intros Hmq. apply (Hfresh q Hq), Hm1. by left.
Qed.

End SolverPaths.

Section Perfect.
Import MazeJS Generated Pages.

(** What [LoadMaze] leaves on the page when it succeeds. *)
Record perfect (c : Config) (g' : Globals) : Prop := {
  perfect_config : config g' = c;
  perfect_grid : grid_array (WIDTH c) (HEIGHT c) (Maze g');
  perfect_count :
    Z.of_nat (removed_walls (WIDTH c) (HEIGHT c) (Maze g')) = WIDTH c * HEIGHT c - 1;
  perfect_paths :
    ∀ p q, in_grid (WIDTH c) (HEIGHT c) p → in_grid (WIDTH c) (HEIGHT c) q →
           one_simple_path (Maze g') p q;
  perfect_open :
    ∀ p k, 0 <= k <= 3 →
           open_side (Maze g') p k ↔ passage (Maze g') p (toward p k) ∨ doors c p k;
  perfect_walk :
    walk (passage (Maze g')) (exit_cell c) (Solution_List g') (entrance_cell c);
  perfect_NoDup : NoDup (Solution_List g');
  perfect_steps : Steps_to_Solve g' = Z.of_nat (length (Solution_List g')) - 1
}.

Lemma LoadMaze_perfect (R : nat → nat) (fuel : nat) (f : Form) (g : Globals) :
  let c := config_read f (config g) in
  can_generate c →
  WIDTH c * HEIGHT c <= Z.of_nat fuel →
  ∃ g', LoadMaze R fuel f g = Ret tt g' ∧ perfect c g'.
Proof.
  intros c Hcan Hfuel.
  destruct (can_generate_sizes c Hcan) as (Hw & Hh & Hne).
  pose proof Hcan as (Herr & Hent & Hexit & Hout).
  destruct (LoadMaze_generated R fuel f g Hcan Hfuel)
    as (mc & g1 & g2 & g3 & _ & Hrun2 & Hrun3 & Hrun & Hc2 & Hc3 & Hcar & Hall & Hop & H12 & H23 &
        Hl2 & Hs2 & l & Hl & Hwalk & Hsteps).
  fold c in Hrun, Hrun2, Hrun3, Hc2, Hc3, Hcar, Hall, Hop, Hwalk.
  rewrite Hc2 in Hwalk. fold (exit_cell c) in Hwalk.
  rewrite Hl2 in Hl. simpl in Hl. rewrite Hs2 in Hsteps.
  pose proof Hop as (Hd & _ & Ho).
  assert (Hg1 : grid_array (WIDTH c) (HEIGHT c) (Maze g1)).
  { intros p. rewrite Hd. apply (carving_grid _ _ _ Hcar). }
  assert (Hg2 : grid_array (WIDTH c) (HEIGHT c) (Maze g2)) by (by eapply same_walls_grid).
  assert (Hext : ∀ x y, passage mc x y ↔ passage (Maze g3) x y).
  { intros x y. rewrite <- (same_walls_passage (Maze g2) (Maze g3)) by done.
    rewrite <- (same_walls_passage (Maze g1) (Maze g2)) by done.
    symmetry. by apply (opened_passage c). }
  assert (Hopen : ∀ p k, 0 <= k <= 3 →
            (open_side (Maze g3) p k ↔ open_side mc p k ∨ doors c p k)).
  { intros p k Hk. rewrite <- (same_walls_open (Maze g2) (Maze g3)) by done.
    rewrite <- (same_walls_open (Maze g1) (Maze g2)) by done. by apply Ho. }
  assert (Hnone : ∀ p, ¬ marked (Maze g2) p).
  { destruct (reset_visited_grid (WIDTH c) (HEIGHT c) g1) as (m2 & Hrun2' & Hm2).
    { intros p Hp. by apply Hg1. }
    rewrite Hrun2 in Hrun2'. injection Hrun2' as ->.
    change (the_Maze g1) with (Maze g1) in Hm2.
    intros p (c' & Hc' & Hv'). cbn [Maze with_Maze Globals_MazeStore set_Maze] in Hc'.
    rewrite Hm2 in Hc'. case_decide as Hp.
    - destruct (Maze g1 !! p); simpl in Hc'; [|done]. injection Hc' as <-. done.
    - apply Hp, Hg1. rewrite Hc'. eauto. }
  destruct (Solver_simple_spec fuel (ENTRANCE_X c) (ENTRANCE_Y c) g2 g3)
    as (l' & Hl' & Hnd & _); rewrite ?Hc2; try done.
  { intros Hmk. by destruct (Hnone _ Hmk). }
  { unfold unmarked_cells. etrans; [apply length_filter|]. apply Nat2Z.inj_le.
    by rewrite length_cells_Z. }
  rewrite Hl2 in Hl'. simpl in Hl'.
  eexists. split; [exact Hrun|]. split; cbn [config Maze Solution_List Steps_to_Solve set_alerts].
  - done.
  - by eapply same_walls_grid.
  - rewrite <- (removed_walls_ext _ _ mc) by done. by apply carving_removed_walls.
  - intros p q Hp Hq. apply (one_simple_path_ext mc); [done|].
    apply (carving_paths _ _ _ Hcar); by apply Hall.
  - intros p k Hk. rewrite Hopen by done. split.
    + intros [Hmc|Hdo]; [left|by right]. apply Hext. exists k.
      split; [done|]. split; [done|]. split; [done|]. by apply (carving_paired _ _ _ Hcar).
    + intros [(k' & Hk' & Heq & Hp' & _)|Hdo]; [|by right].
      apply toward_side in Heq; [|done..]. subst k'. by apply Hopen.
  - rewrite Hl. eapply walk_mono; [|exact Hwalk]. intros a b [Hacc Hb].
    apply Hext.
    apply (same_walls_access (Maze g1) (Maze g2)) in Hacc; [|done].
    destruct Hacc as (k & Hk & -> & Hopen' & Hsome).
    apply Ho in Hopen'; [|done]. destruct Hopen' as [Hopen'|[[-> ->]|[-> _]]]; [| |done].
    + apply passage_sym. exists k. split; [done|]. split; [done|]. split; [done|].
      by apply (carving_paired _ _ _ Hcar).
    + exfalso. apply Hout. by apply (carving_grid _ _ _ Hcar), Hd.
  - by rewrite Hl'.
  - rewrite Hl. lia.
Qed.

End Perfect.

Section SolverExtras.
Import MazeJS Generated Pages.

(** On any array that holds exactly the cells of the grid, with no cell
    marked, [Solver] returns without raising and without touching a wall,
    and it answers true exactly when some walk through open sides leads
    from the cell it is started on to the exit cell. *)
Theorem Solver_decides_reachability (fuel : nat) (x y : Z) (g : Globals) :
  let c := config g in
  grid_array (WIDTH c) (HEIGHT c) (Maze g) →
  in_grid (WIDTH c) (HEIGHT c) (exit_cell c) →
  in_grid (WIDTH c) (HEIGHT c) (x, y) →
  (∀ p, ¬ marked (Maze g) p) →
  WIDTH c * HEIGHT c <= Z.of_nat fuel →
  ∃ b g', Solver fuel x y g = Ret b g' ∧
          config g' = c ∧ same_walls (Maze g) (Maze g') ∧
          (b = true ↔ ∃ l, walk (access (Maze g)) (x, y) l (exit_cell c)).
Proof.
  intros c Hg He Hin Hnone Hfuel.
  assert (Hfuel' : (unmarked_cells (WIDTH c) (HEIGHT c) (Maze g) ≤ fuel)%nat).
  { unfold unmarked_cells. etrans; [apply length_filter|]. apply Nat2Z.inj_le.
    destruct He as [? ?]. cbn [exit_cell fst snd] in *.
    rewrite length_cells_Z; [done|lia..]. }
  destruct (Solver_spec fuel x y g) as (b & g' & Hrun & Hon & _ & Hres); try done.
  { intros Hm. by destruct (Hnone (x, y)). }
  exists b, g'. split; [done|]. destruct Hon as (Hc & _ & _ & Hw & _).
  split; [done|]. split; [done|]. destruct b.
  - split; [|done]. intros _. destruct Hres as (l & _ & Hwalk & _).
    exists (reverse l). apply walk_flip in Hwalk.
    eapply walk_mono; [|exact Hwalk]. by intros a b [Hab _].
  - split; [done|]. intros [l Hl]. exfalso.
    by apply (Solver_false_disconnected fuel x y g g' Hg He Hin Hnone Hfuel' Hrun l).
Qed.

Lemma Solver_decides_reachability_witness :
  let g := set_Maze (<[(0, 0) := fresh_cell]> (<[(1, 0) := fresh_cell]> ∅))
             (globals_read form_2x1 (page form_2x1)) in
  let c := config g in
  ∃ b g', Solver 2 0 0 g = Ret b g' ∧
          config g' = c ∧ same_walls (Maze g) (Maze g') ∧
          (b = true ↔ ∃ l, walk (access (Maze g)) (0, 0) l (exit_cell c)).
Proof.
  refine (Solver_decides_reachability 2 0 0
            (set_Maze (<[(0, 0) := fresh_cell]> (<[(1, 0) := fresh_cell]> ∅))
               (globals_read form_2x1 (page form_2x1))) _ _ _ _ _).
  - apply grid_array_dom. compute_done.
  - compute_done.
  - compute_done.
  - intros p (c & Hc & Hv). cbn [Maze set_Maze] in Hc.
    apply lookup_insert_Some in Hc as [[_ <-]|[_ Hc]]; [done|].
    apply lookup_insert_Some in Hc as [[_ <-]|[_ Hc]]; done.
  - compute_done.
Defined.

(** The solution list of a generated maze names no cell twice and is the
    only route without a repeated cell from the exit to the entrance
    through removed walls; every walk from the entrance to the exit takes
    at least [Steps_to_Solve] steps. *)
Theorem solution_list_is_the_shortest_route
    (R : nat → nat) (fuel : nat) (f : Form) (g : Globals) :
  let c := config_read f (config g) in
  can_generate c →
  WIDTH c * HEIGHT c <= Z.of_nat fuel →
  ∃ g', LoadMaze R fuel f g = Ret tt g' ∧
        NoDup (Solution_List g') ∧
        (∀ l, walk (passage (Maze g')) (exit_cell c) l (entrance_cell c) → NoDup l →
              l = Solution_List g') ∧
        (∀ l, walk (passage (Maze g')) (entrance_cell c) l (exit_cell c) →
              Steps_to_Solve g' <= Z.of_nat (length l) - 1).
Proof.
  intros c Hcan Hfuel.
  pose proof Hcan as (Herr & Hent & Hexit & Hout).
  destruct (LoadMaze_perfect R fuel f g Hcan Hfuel) as (g' & Hrun & Hp).
  fold c in Hp. exists g'. split; [done|]. split; [apply Hp|].
  destruct (perfect_paths _ _ Hp (exit_cell c) (entrance_cell c) Hexit Hent)
    as (l0 & _ & Huniq).
  assert (Hsol : Solution_List g' = l0).
  { apply Huniq; apply Hp. }
  split.
  - intros l Hl Hnd. rewrite Hsol. by apply Huniq.
  - intros l Hl. destruct (walk_shorten _ _ _ _ Hl) as (l' & Hl' & Hnd' & _ & Hlen).
    apply (walk_reverse _ _ _ _ (passage_sym (Maze g'))) in Hl'.
    apply Huniq in Hl'; [|by rewrite reverse_Permutation].
    rewrite (perfect_steps _ _ Hp), Hsol, <- Hl', length_reverse. lia.
Qed.

Lemma solution_list_is_the_shortest_route_witness :
  let c := config_read form_2x1 (config (page form_2x1)) in
  ∃ g', LoadMaze always_first 2 form_2x1 (page form_2x1) = Ret tt g' ∧
        NoDup (Solution_List g') ∧
        (∀ l, walk (passage (Maze g')) (exit_cell c) l (entrance_cell c) → NoDup l →
              l = Solution_List g') ∧
        (∀ l, walk (passage (Maze g')) (entrance_cell c) l (exit_cell c) →
              Steps_to_Solve g' <= Z.of_nat (length l) - 1).
Proof.
  refine (solution_list_is_the_shortest_route always_first 2 form_2x1 (page form_2x1) _ _);
    compute_done.
Defined.

End SolverExtras.

Section Moves.
Import SolverJS Play.

(** Every way a move key can end, on a cell of the grid. *)
Lemma Move_outcome direction dx dy s :
  on_grid s →
  in_grid (WIDTH (opener s)) (HEIGHT (opener s)) (Current_Location s) →
  let cur := Current_Location s in
  let next := (cur.1 + dx, cur.2 + dy) in
  let at_start := cur = start_cell s ∧ direction = Enter (opener s) in
  let at_end := cur = end_cell s ∧ direction = Exit (opener s) in
  (Move direction dx dy s = Ret tt s ∧ (at_start ∨ ¬ open_side (Maze s) cur direction))
  ∨ (¬ at_start ∧ open_side (Maze s) cur direction ∧ at_end ∧
     Move direction dx dy s =
       Ret tt (set_livestats
                 (Some (mkEndingStatistics (User_Moves s) (Steps_to_Solve (opener s))
                          (accuracy (Steps_to_Solve (opener s)) (User_Moves s))
                          (User_Jumps s)))
                 (set_Current_Location (-1, -1) (set_alerts (S (alerts s)) s))))
  ∨ (¬ at_start ∧ open_side (Maze s) cur direction ∧ ¬ at_end ∧
     Maze s !! next = None ∧
     Move direction dx dy s = Throw (set_Current_Location next s))
  ∨ (¬ at_start ∧ open_side (Maze s) cur direction ∧ ¬ at_end ∧
     ∃ c, Maze s !! next = Some c ∧
          Move direction dx dy s =
            Ret tt (set_User_Moves (User_Moves s + 1)
                      (set_Maze (<[next := set_visited true c]> (Maze s))
                         (set_Current_Location next s)))).
Proof.
  intros Hg Hin cur next at_start at_end.
  remember (Move direction dx dy s) as o eqn:Ho.
  unfold Move, bind at 1 in Ho. rewrite CheckStart_returns in Ho.
  fold cur in Ho.
  destruct (bool_decide (cur.1 = Start_X (opener s))
            && bool_decide (cur.2 = Start_Y (opener s))
            && bool_decide (direction = Enter (opener s))) eqn:Hst.
  { left. split; [done|]. left.
    apply andb_prop in Hst as [Hst H3]. apply andb_prop in Hst as [H1 H2].
    apply bool_decide_eq_true_1 in H1, H2, H3. split; [|done].
    unfold start_cell. destruct cur; simpl in *; congruence. }
  assert (Hns : ¬ at_start).
  { intros [Hcur Hd]. rewrite Hcur, Hd in Hst. unfold start_cell in Hst. simpl in Hst.
    by rewrite !bool_decide_eq_true_2 in Hst. }
  unfold bind at 1, get at 1, bind at 1, cell_at at 1 in Ho.
  simpl in Ho. rewrite pair_eta in Ho. fold cur in Ho.
  destruct (proj2 (Hg cur) Hin) as [c Hc]. rewrite Hc in Ho.
  destruct (bool_decide (wall c direction = 0)) eqn:Hw.
  2:{ left. split; [done|]. right. intros (c' & Hc' & Hw').
      apply bool_decide_eq_false_1 in Hw. congruence. }
  apply bool_decide_eq_true_1 in Hw.
  assert (Hopen : open_side (Maze s) cur direction) by (by exists c).
  unfold bind at 1, ClearCurrentCell, bind at 1, get at 1 in Ho.
  rewrite cell_style_in_grid in Ho by by rewrite pair_eta.
  unfold bind at 1, CheckFinish, bind at 1, get at 1 in Ho. fold cur in Ho.
  destruct (bool_decide (cur.1 = End_X (opener s))
            && bool_decide (cur.2 = End_Y (opener s))
            && bool_decide (direction = Exit (opener s))) eqn:Hfin.
  { right; left. split; [done|]. split; [done|]. split; [|done].
    apply andb_prop in Hfin as [Hfin H3]. apply andb_prop in Hfin as [H1 H2].
    apply bool_decide_eq_true_1 in H1, H2, H3. split; [|done].
    unfold end_cell. destruct cur; simpl in *; congruence. }
  assert (Hne : ¬ at_end).
  { intros [Hcur Hd]. rewrite Hcur, Hd in Hfin. unfold end_cell in Hfin. simpl in Hfin.
    by rewrite !bool_decide_eq_true_2 in Hfin. }
  simpl in Ho. unfold bind at 1, modify at 1 in Ho.
  unfold bind at 1, UpdatePosition, bind at 1, get at 1 in Ho. simpl in Ho.
  fold cur in Ho. fold next in Ho.
  destruct (Maze s !! next) as [c'|] eqn:Hn.
  - right; right; right. split; [done|]. split; [done|]. split; [done|].
    exists c'. split; [done|].
    unfold bind at 1 in Ho.
    rewrite (update_cell_present _ _ _ _ c') in Ho by done. simpl in Ho.
    rewrite cell_style_in_grid in Ho; [done|]. simpl. apply Hg. fold next. by rewrite Hn.
  - right; right; left. split; [done|]. split; [done|]. split; [done|]. split; [done|].
    unfold bind at 1 in Ho. by rewrite update_cell_missing in Ho.
Qed.

(** Every way a click can end. *)
Lemma JumpHere_outcome w h s :
  (Maze s !! (w, h) = None ∧ JumpHere w h s = Throw s)
  ∨ (∃ c, Maze s !! (w, h) = Some c ∧ visited c = false ∧ JumpHere w h s = Ret tt s)
  ∨ (∃ c, Maze s !! (w, h) = Some c ∧ visited c = true ∧
          ¬ in_grid (WIDTH (opener s)) (HEIGHT (opener s)) (Current_Location s) ∧
          JumpHere w h s = Throw s)
  ∨ (∃ c, Maze s !! (w, h) = Some c ∧ visited c = true ∧
          in_grid (WIDTH (opener s)) (HEIGHT (opener s)) (Current_Location s) ∧
          ((in_grid (WIDTH (opener s)) (HEIGHT (opener s)) (w, h) ∧
            JumpHere w h s =
              Ret tt (set_User_Jumps (User_Jumps s + 1) (set_Current_Location (w, h) s)))
           ∨ (¬ in_grid (WIDTH (opener s)) (HEIGHT (opener s)) (w, h) ∧
              JumpHere w h s = Throw (set_Current_Location (w, h) s)))).
Proof.
  remember (JumpHere w h s) as o eqn:Ho.
  unfold JumpHere in Ho.
  unfold bind at 1, cell_at at 1 in Ho. simpl in Ho.
  destruct (Maze s !! (w, h)) as [c|] eqn:Hc; [|by left].
  destruct (visited c) eqn:Hv; [|right; left; by exists c].
  unfold bind at 1, ClearCurrentCell, bind at 1, get at 1 in Ho.
  destruct (decide (in_grid (WIDTH (opener s)) (HEIGHT (opener s)) (Current_Location s)))
    as [Hin|Hout].
  - right; right; right. exists c. repeat (split; [done|]).
    rewrite cell_style_in_grid in Ho by by rewrite pair_eta.
    unfold bind at 1, modify at 1 in Ho.
    unfold bind at 1, UpdatePosition, bind at 1, get at 1 in Ho. simpl in Ho.
    unfold bind at 1 in Ho.
    rewrite (update_cell_present _ _ _ _ c) in Ho by done. simpl in Ho.
    rewrite (set_visited_id c Hv), insert_id in Ho by done.
    destruct (decide (in_grid (WIDTH (opener s)) (HEIGHT (opener s)) (w, h))) as [Hwh|Hwh].
    + left. split; [done|]. rewrite cell_style_in_grid in Ho by done.
      rewrite Ho. unfold modify. simpl. by destruct s.
    + right. split; [done|]. rewrite cell_style_off_grid in Ho by done.
      rewrite Ho. by destruct s.
  - right; right; left. exists c. repeat (split; [done|]).
    by rewrite cell_style_off_grid in Ho by by rewrite pair_eta.
Qed.

End Moves.

Section Frame.
Import SolverJS Play.

(** What no key and no click ever changes, and what they only let grow. *)
Definition continues (s s' : Session) : Prop :=
  opener s' = opener s ∧
  same_walls (Maze s) (Maze s') ∧
  (∀ p, marked (Maze s) p → marked (Maze s') p) ∧
  User_Moves s <= User_Moves s' ∧ User_Jumps s <= User_Jumps s' ∧
  (alerts s ≤ alerts s')%nat.

Lemma continues_refl s : continues s s.
Proof. split; [done|]. split; [done|]. split; [done|]. split; [lia|]. split; [lia|]. lia. Qed.

Lemma continues_trans s1 s2 s3 : continues s1 s2 → continues s2 s3 → continues s1 s3.
Proof.
  intros (Ho & Hw & Hm & Hu & Hj & Ha) (Ho' & Hw' & Hm' & Hu' & Hj' & Ha').
  split; [congruence|]. split; [by eapply same_walls_trans|]. split; [auto|].
  split; [lia|]. split; [lia|]. lia.
Qed.

Lemma continues_mark s p c :
  Maze s !! p = Some c →
  same_walls (Maze s) (<[p := set_visited true c]> (Maze s)) ∧
  ∀ q, marked (Maze s) q → marked (<[p := set_visited true c]> (Maze s)) q.
Proof.
  intros Hc. split; [by apply same_walls_mark|].
  intros q Hq. apply (marked_insert_visited _ _ c); [done|]. by left.
Qed.

Lemma step_continues s i : on_grid s → on_grid (step s i) ∧ continues s (step s i).
Proof.
  intros Hg.
  assert (Hmove : ∀ direction dx dy,
            on_grid (after (Move direction dx dy) s) ∧
            continues s (after (Move direction dx dy) s)).
  { intros direction dx dy.
    destruct (Move_cases direction dx dy s Hg)
      as [-> | [(Hin & Hend & ->) | [(Hin & Hnone & ->) | (Hin & c & Hc & ->)]]].
    - split; [done|apply continues_refl].
    - split; [done|]. split; [done|]. split; [done|]. split; [done|]. simpl.
      split; [lia|]. split; [lia|]. lia.
    - split; [done|]. split; [done|]. split; [done|]. split; [done|]. simpl.
      split; [lia|]. split; [lia|]. lia.
    - destruct (continues_mark s _ c Hc) as [Hw Hm]. split.
      + unfold on_grid. simpl. apply grid_array_insert; [done|by rewrite Hc].
      + split; [done|]. split; [done|]. split; [done|]. simpl.
        split; [lia|]. split; [lia|]. lia. }
  unfold step. destruct i; simpl; try apply Hmove.
  destruct (JumpHere_cases w h s Hg) as [-> | (c & Hc & Hv & Hin & ->)].
  - split; [done|apply continues_refl].
  - destruct (continues_mark s _ c Hc) as [Hw Hm]. split.
    + unfold on_grid. simpl. apply grid_array_insert; [done|by rewrite Hc].
    + split; [done|]. split; [done|]. split; [done|]. simpl.
      split; [lia|]. split; [lia|]. lia.
Qed.

Lemma play_continues s inputs :
  on_grid s → on_grid (play s inputs) ∧ continues s (play s inputs).
Proof.
  revert s. induction inputs as [|i inputs IH]; intros s Hg.
  - split; [done|apply continues_refl].
  - destruct (step_continues s i Hg) as [Hg1 Hc1].
    destruct (IH (step s i) Hg1) as [Hg2 Hc2].
    split; [done|]. by eapply continues_trans.
Qed.

(** Whatever keys are pressed and cells clicked, the walls stay as they
    are, no visited mark is ever cleared, the values copied from the
    generator page keep their values, and the two counters and the number
    of alerts never decrease. *)
Theorem play_keeps_walls_and_marks (s : Session) (inputs : list Input) :
  on_grid s →
  let s' := play s inputs in
  on_grid s' ∧ opener s' = opener s ∧
  (∀ p k, open_side (Maze s') p k ↔ open_side (Maze s) p k) ∧
  (∀ p, marked (Maze s) p → marked (Maze s') p) ∧
  User_Moves s <= User_Moves s' ∧ User_Jumps s <= User_Jumps s' ∧
  (alerts s ≤ alerts s')%nat.
Proof.
  intros Hg s'. destruct (play_continues s inputs Hg) as (Hg' & Ho & Hw & Hm & Hrest).
  split; [done|]. split; [done|]. split; [|by split].
  intros p k. symmetry. by apply same_walls_open.
Qed.

End Frame.

Section PageLoad.
Import SolverJS Play.

(** The play page once its top-level code has run. *)
Lemma page_load_state (g : MazeJS.Globals) :
  let c := MazeJS.config g in
  let entrance := (MazeJS.ENTRANCE_X c, MazeJS.ENTRANCE_Y c) in
  grid_array (MazeJS.WIDTH c) (MazeJS.HEIGHT c) (MazeJS.Maze g) →
  in_grid (MazeJS.WIDTH c) (MazeJS.HEIGHT c) entrance →
  ∃ m', page_load (page_load_globals g) = Ret tt (set_Maze m' (page_load_globals g)) ∧
        ∀ p, m' !! p = set_visited (bool_decide (p = entrance)) <$> MazeJS.Maze g !! p.
Proof.
  intros c entrance Hg Hin.
  set (s0 := page_load_globals g).
  destruct (reset_visited_grid (MazeJS.WIDTH c) (MazeJS.HEIGHT c) s0) as (m' & Hrun & Hm').
  { intros p Hp. simpl. by apply Hg. }
  assert (Hm'' : ∀ p, m' !! p = set_visited false <$> MazeJS.Maze g !! p).
  { intros p. rewrite Hm'. simpl. case_decide as Hp; [done|].
    destruct (MazeJS.Maze g !! p) eqn:Hc; [|done]. destruct Hp. apply Hg. by rewrite Hc. }
  destruct (proj2 (Hg entrance) Hin) as [c0 Hc0].
  exists (<[entrance := set_visited true (set_visited false c0)]> m'). split.
  - unfold page_load, bind at 1, get at 1.
    unfold bind at 1. simpl. fold c. fold s0. rewrite Hrun.
    unfold Start, UpdatePosition, bind at 1, get at 1. simpl. fold c. fold entrance.
    unfold bind at 1.
    rewrite (update_cell_present _ _ _ _ (set_visited false c0)).
    2:{ change (m' !! entrance = Some (set_visited false c0)). by rewrite Hm'', Hc0. }
    rewrite cell_style_in_grid by done. done.
  - intros p. destruct (decide (p = entrance)) as [->|Hne].
    + rewrite lookup_insert_eq, bool_decide_eq_true_2, Hc0 by done. done.
    + rewrite lookup_insert_ne, bool_decide_eq_false_2, Hm'' by done. done.
Qed.

End PageLoad.

Section Tour.
Import SolverJS Play Generated.

Variables (c : MazeJS.Config) (g0 : MazeJS.Globals).
Hypothesis g0_perfect : perfect c g0.
Hypothesis c_entrance : in_grid (MazeJS.WIDTH c) (MazeJS.HEIGHT c) (entrance_cell c).
Hypothesis c_exit : in_grid (MazeJS.WIDTH c) (MazeJS.HEIGHT c) (exit_cell c).

Let m0 := MazeJS.Maze g0.

(** A move key: the wall slot it tests and the step it takes. *)
Definition key_move (direction dx dy : Z) : Prop :=
  0 <= direction <= 3 ∧ ∀ p : Z * Z, (p.1 + dx, p.2 + dy) = toward p direction.

(** What every state of a session on the generated maze satisfies. *)
Definition touring (s : Session) : Prop :=
  opener s = opener (page_load_globals g0) ∧
  on_grid s ∧
  same_walls m0 (Maze s) ∧
  (Finished s ∨
   (in_grid (MazeJS.WIDTH c) (MazeJS.HEIGHT c) (Current_Location s) ∧
    marked (Maze s) (Current_Location s))) ∧
  (Finished s →
   marked (Maze s) (exit_cell c) ∧
   livestats s =
     Some (mkEndingStatistics (User_Moves s) (Steps_to_Solve (opener s))
             (accuracy (Steps_to_Solve (opener s)) (User_Moves s)) (User_Jumps s))) ∧
  (∀ p, marked (Maze s) p →
        ∃ l, walk (passage m0) (entrance_cell c) l p ∧ ∀ q, q ∈ l → marked (Maze s) q) ∧
  Z.of_nat (marked_cells (MazeJS.WIDTH c) (MazeJS.HEIGHT c) (Maze s)) <= User_Moves s + 1.

Lemma touring_opener s :
  touring s →
  WIDTH (opener s) = MazeJS.WIDTH c ∧ HEIGHT (opener s) = MazeJS.HEIGHT c ∧
  start_cell s = entrance_cell c ∧ end_cell s = exit_cell c ∧
  Enter (opener s) = MazeJS.ENTER c ∧ Exit (opener s) = MazeJS.EXIT c.
Proof.
  intros (Ho & _). unfold start_cell, end_cell. rewrite Ho. simpl.
  rewrite (perfect_config _ _ g0_perfect). done.
Qed.

(** An open side that is neither door leads through a removed wall. *)
Lemma touring_passage s direction :
  touring s → 0 <= direction <= 3 →
  open_side (Maze s) (Current_Location s) direction →
  ¬ (Current_Location s = start_cell s ∧ direction = Enter (opener s)) →
  ¬ (Current_Location s = end_cell s ∧ direction = Exit (opener s)) →
  passage m0 (Current_Location s) (toward (Current_Location s) direction).
Proof.
  intros Ht Hd Hopen Hns Hne.
  destruct (touring_opener s Ht) as (_ & _ & Hst & Hen & HE & HX).
  destruct Ht as (_ & _ & Hw & _).
  apply (same_walls_open m0 (Maze s)) in Hopen; [|done].
  apply (perfect_open _ _ g0_perfect) in Hopen as [?|[[Hp Hk]|[Hp Hk]]]; [done| | |done].
  - destruct Hns. by rewrite Hst, HE.
  - destruct Hne. by rewrite Hen, HX.
Qed.

Lemma marked_cells_insert (width height : Z) m p c0 :
  m !! p = Some c0 →
  (marked_cells width height (<[p := set_visited true c0]> m)
   ≤ S (marked_cells width height m))%nat.
Proof.
  intros Hc. unfold marked_cells.
  destruct (decide (p ∈ cells width height ∧ ¬ marked m p)) as [[Hin Hnm]|Hno].
  - rewrite (filter_length_one_more (marked m) _ (cells width height) p); [done|..].
    + apply NoDup_cells.
    + done.
    + done.
    + apply (marked_insert_visited _ _ c0); [done|]. by right.
    + intros x _ Hx. rewrite (marked_insert_visited _ _ c0) by done. naive_solver.
  - rewrite (filter_length_same _ (marked m)); [lia|].
    intros x Hx. rewrite (marked_insert_visited _ _ c0) by done.
    split; [|by left]. intros [?| ->]; [done|].
    destruct (decide (marked m p)); [done|]. destruct Hno. done.
Qed.

Lemma touring_Move direction dx dy s :
  key_move direction dx dy → touring s →
  touring (after (Move direction dx dy) s) ∧
  (¬ Finished s → ∃ s', Move direction dx dy s = Ret tt s').
Proof.
  intros [Hd Hkey] Ht.
  pose proof (touring_opener s Ht) as (HW & HH & Hst & Hen & HE & HX).
  pose proof Ht as (Ho & Hg & Hw & Hcur & Hfin & Hcon & Hcount).
  destruct Hcur as [Hf|[Hin Hmk]].
  { split; [|done]. by rewrite Move_finished. }
  assert (Hin' : in_grid (WIDTH (opener s)) (HEIGHT (opener s)) (Current_Location s))
    by (by rewrite HW, HH).
  assert (Hnf : ¬ Finished s).
  { intros Hf. rewrite Hf in Hin. by eapply sentinel_off_grid. }
  pose proof (touring_passage s direction Ht Hd) as Hpass.
  destruct (Move_outcome direction dx dy s Hg Hin')
    as [[Hrun _] | [(Hns & Hopen & [Hend _] & Hrun)
       | [(Hns & Hopen & Hne & Hnone & Hrun) | (Hns & Hopen & Hne & c' & Hc' & Hrun)]]];
    unfold after; rewrite Hrun.
  - split; [done|eauto].
  - split; [|eauto]. split; [done|]. split; [done|]. split; [done|].
    split; [by left|]. split; [|done]. intros _. simpl. split; [|done].
    by rewrite <- Hen, <- Hend.
  - exfalso. rewrite Hkey in Hnone. specialize (Hpass Hopen Hns Hne).
    destruct Hpass as (k & Hk & Heq & _ & Hq).
    apply open_side_is_Some in Hq.
    apply (same_walls_is_Some m0 (Maze s)) in Hq; [|done].
    rewrite Hnone in Hq. by destruct Hq.
  - split; [|eauto]. rewrite Hkey in Hc'. rewrite Hkey.
    set (next := toward (Current_Location s) direction) in *.
    specialize (Hpass Hopen Hns Hne).
    assert (Hnext : in_grid (MazeJS.WIDTH c) (MazeJS.HEIGHT c) next).
    { rewrite <- HW, <- HH. apply Hg. by rewrite Hc'. }
    assert (Hm' : ∀ p, marked (<[next := set_visited true c']> (Maze s)) p
                       ↔ marked (Maze s) p ∨ p = next).
    { intros p. by apply marked_insert_visited. }
    split; [done|]. split.
    { unfold on_grid. simpl. apply grid_array_insert; [done|by rewrite Hc']. }
    split.
    { simpl. eapply same_walls_trans; [done|]. by apply same_walls_mark. }
    split.
    { right. simpl. split; [done|]. apply Hm'. by right. }
    split.
    { intros Hf. unfold Finished in Hf. simpl in Hf. rewrite Hf in Hnext.
      by destruct (sentinel_off_grid _ _ Hnext). }
    split.
    { simpl. intros p [Hp| ->]%Hm'.
      - destruct (Hcon p Hp) as (l & Hl & Hall). exists l. split; [done|].
        intros q Hq. apply Hm'. left. by apply Hall.
      - destruct (Hcon _ Hmk) as (l & Hl & Hall). exists (l ++ [next]). split.
        + by eapply walk_snoc.
        + intros q [Hq| ->%list_elem_of_singleton]%elem_of_app; apply Hm'; [left|by right].
          by apply Hall. }
    simpl. pose proof (marked_cells_insert (MazeJS.WIDTH c) (MazeJS.HEIGHT c) _ _ _ Hc'). lia.
Qed.

Lemma touring_JumpHere w h s :
  touring s →
  touring (after (JumpHere w h) s) ∧
  (¬ Finished s → in_grid (MazeJS.WIDTH c) (MazeJS.HEIGHT c) (w, h) →
   ∃ s', JumpHere w h s = Ret tt s').
Proof.
  intros Ht.
  pose proof (touring_opener s Ht) as (HW & HH & Hst & Hen & HE & HX).
  pose proof Ht as (Ho & Hg & Hw & Hcur & Hfin & Hcon & Hcount).
  destruct Hcur as [Hf|[Hin Hmk]].
  { split; [|done]. by rewrite JumpHere_finished. }
  assert (Hin' : in_grid (WIDTH (opener s)) (HEIGHT (opener s)) (Current_Location s))
    by (by rewrite HW, HH).
  destruct (JumpHere_outcome w h s)
    as [[Hnone Hrun] | [(c' & Hc' & Hv & Hrun) | [(c' & Hc' & Hv & Hout & Hrun)
       | (c' & Hc' & Hv & _ & [[Hwh Hrun]|[Hwh Hrun]])]]];
    unfold after; rewrite Hrun.
  - split; [done|]. intros _ Hwh. exfalso. rewrite <- HW, <- HH in Hwh.
    apply Hg in Hwh. rewrite Hnone in Hwh. by destruct Hwh.
  - split; [done|eauto].
  - done.
  - split; [|eauto]. rewrite HW, HH in Hwh.
    split; [done|]. split; [done|]. split; [done|]. split.
    { right. simpl. split; [done|]. by exists c'. }
    split; [|done].
    intros Hf. unfold Finished in Hf. simpl in Hf. rewrite Hf in Hwh.
    by destruct (sentinel_off_grid _ _ Hwh).
  - exfalso. apply Hwh, Hg. by rewrite Hc'.
Qed.

Lemma touring_step s i :
  touring s →
  touring (step s i) ∧
  (¬ Finished s →
   (∀ w h, i = Click w h → in_grid (MazeJS.WIDTH c) (MazeJS.HEIGHT c) (w, h)) →
   ∃ s', handler i s = Ret tt s').
Proof.
  intros Ht. unfold step.
  assert (Hkeys : key_move 0 0 (-1) ∧ key_move 2 0 1 ∧ key_move 3 (-1) 0 ∧ key_move 1 1 0).
  { unfold key_move, toward. repeat split; try lia; intros [x y]; simpl; f_equal; lia. }
  destruct Hkeys as (H0 & H2 & H3 & H1).
  destruct i; simpl.
  - destruct (touring_Move _ _ _ s H0 Ht). split; [done|auto].
  - destruct (touring_Move _ _ _ s H2 Ht). split; [done|auto].
  - destruct (touring_Move _ _ _ s H3 Ht). split; [done|auto].
  - destruct (touring_Move _ _ _ s H1 Ht). split; [done|auto].
  - destruct (touring_JumpHere w h s Ht) as [Ht' Hret]. split; [done|].
    intros Hnf Hc. apply Hret; [done|]. by apply Hc.
Qed.

Lemma touring_play s inputs : touring s → touring (play s inputs).
Proof.
  revert s. induction inputs as [|i inputs IH]; intros s Ht; [done|].
  unfold play in *. simpl. apply IH. by apply touring_step.
Qed.

Lemma touring_page_load : touring (Pages.session g0).
Proof.
  pose proof (perfect_config _ _ g0_perfect) as Hc.
  pose proof (perfect_grid _ _ g0_perfect) as Hg.
  destruct (page_load_state g0) as (m' & Hrun & Hm'); rewrite ?Hc; try done.
  unfold Pages.session, after. rewrite Hrun. rewrite Hc in Hm'.
  fold (entrance_cell c) in Hm'. fold m0 in Hm'.
  assert (Hmk : ∀ p, marked m' p ↔ p = entrance_cell c).
  { intros p. unfold marked. rewrite Hm'. split.
    - intros (c' & Hc' & Hv). destruct (m0 !! p) as [c0|]; simpl in Hc'; [|done].
      injection Hc' as <-. simpl in Hv. by apply bool_decide_eq_true_1 in Hv.
    - intros ->. destruct (proj2 (Hg (entrance_cell c)) c_entrance) as [c0 Hc0].
      fold m0 in Hc0. rewrite Hc0. simpl. eexists. split; [done|]. simpl.
      by apply bool_decide_eq_true_2. }
  assert (Hw : same_walls m0 m').
  { intros p. rewrite Hm'. by destruct (m0 !! p). }
  split; [done|]. split.
  { unfold on_grid. simpl. rewrite Hc. by eapply same_walls_grid. }
  split; [done|]. split.
  { right. simpl. rewrite Hc. split; [done|]. by apply Hmk. }
  split.
  { intros Hf. unfold Finished in Hf. simpl in Hf. rewrite Hc in Hf.
    pose proof c_entrance as Hin. unfold entrance_cell in Hin. rewrite Hf in Hin.
    by destruct (sentinel_off_grid _ _ Hin). }
  split.
  { simpl. intros p ->%Hmk. exists [entrance_cell c]. split; [constructor|].
    intros q ->%list_elem_of_singleton. by apply Hmk. }
  simpl. unfold marked_cells.
  assert (length (filter (marked m') (cells (MazeJS.WIDTH c) (MazeJS.HEIGHT c))) ≤ 1)%nat;
    [|lia].
  change 1%nat with (length [entrance_cell c]). apply submseteq_length, NoDup_submseteq.
  - apply NoDup_filter, NoDup_cells.
  - intros p [Hp _]%list_elem_of_filter. apply list_elem_of_singleton. by apply Hmk.
Qed.

(** At the finish every cell of the solution bears the visited mark, so
    the moves counted are at least as many as the solution has steps. *)
Lemma touring_finished s :
  touring s → Finished s →
  (∀ p, p ∈ MazeJS.Solution_List g0 → marked (Maze s) p) ∧
  MazeJS.Steps_to_Solve g0 <= User_Moves s.
Proof.
  intros (Ho & Hg & Hw & Hcur & Hfin & Hcon & Hcount) Hf.
  destruct (Hcon _ (proj1 (Hfin Hf))) as (l & Hl & Hall).
  destruct (walk_shorten _ _ _ _ Hl) as (l' & Hl' & Hnd' & Hsub & _).
  destruct (perfect_paths _ _ g0_perfect (exit_cell c) (entrance_cell c) c_exit c_entrance)
    as (l0 & _ & Huniq). fold m0 in Huniq.
  assert (Hsol : MazeJS.Solution_List g0 = l0).
  { apply Huniq; apply g0_perfect. }
  apply (walk_reverse _ _ _ _ (passage_sym m0)) in Hl'.
  apply Huniq in Hl'; [|by rewrite reverse_Permutation].
  assert (Hmarked : ∀ p, p ∈ MazeJS.Solution_List g0 → marked (Maze s) p).
  { intros p Hp. apply Hall, Hsub. rewrite Hsol, <- Hl' in Hp. by rewrite reverse_Permutation in Hp. }
  split; [done|].
  rewrite (perfect_steps _ _ g0_perfect).
  assert (length (MazeJS.Solution_List g0)
          ≤ marked_cells (MazeJS.WIDTH c) (MazeJS.HEIGHT c) (Maze s))%nat; [|lia].
  apply submseteq_length, NoDup_submseteq; [apply g0_perfect|].
  intros p Hp. apply list_elem_of_filter. split; [by apply Hmarked|].
  apply elem_of_cells. destruct (Hmarked p Hp) as (c' & Hc' & _).
  apply (same_walls_grid _ _ m0 (Maze s)); [done|apply g0_perfect|]. by rewrite Hc'.
Qed.

End Tour.

Section SessionExtras.
Import SolverJS Play Generated Pages.

(** On a generated maze the player cannot finish without having been on
    every cell of the solution: in every finished state all cells of
    [Solution_List] bear the visited mark, and the statistics shown report
    a total move count that is at least the minimum move count. *)
Theorem finished_session_has_walked_the_solution
    (R : nat → nat) (fuel : nat) (f : MazeJS.Form) (g : MazeJS.Globals) :
  let c := MazeJS.config_read f (MazeJS.config g) in
  can_generate c →
  MazeJS.WIDTH c * MazeJS.HEIGHT c <= Z.of_nat fuel →
  ∃ g', MazeJS.LoadMaze R fuel f g = Ret tt g' ∧
        ∀ inputs, let s := play (session g') inputs in
          Finished s →
          (∀ p, p ∈ MazeJS.Solution_List g' → marked (Maze s) p) ∧
          MazeJS.Steps_to_Solve g' <= User_Moves s ∧
          ∃ t, livestats s = Some t ∧
               total_move_count t = User_Moves s ∧
               minimum_move_count t = MazeJS.Steps_to_Solve g' ∧
               minimum_move_count t <= total_move_count t.
Proof.
  intros c Hcan Hfuel.
  pose proof Hcan as (Herr & Hent & Hexit & Hout).
  destruct (LoadMaze_perfect R fuel f g Hcan Hfuel) as (g' & Hrun & Hp). fold c in Hp.
  exists g'. split; [done|]. intros inputs s Hf.
  assert (Ht : touring c g' s).
  { apply (touring_play c g' Hp). by apply touring_page_load. }
  destruct (touring_finished c g' Hp Hent Hexit s Ht Hf) as [Hall Hsteps].
  split; [done|]. split; [done|].
  destruct Ht as (Ho & _ & _ & _ & Hfin & _). destruct (Hfin Hf) as [_ Hstats].
  eexists. split; [exact Hstats|]. simpl. rewrite Ho. simpl. done.
Qed.

Lemma finished_session_has_walked_the_solution_witness :
  ∃ g', MazeJS.LoadMaze always_first 2 form_2x1 (page form_2x1) = Ret tt g' ∧
        ∀ inputs, let s := play (session g') inputs in
          Finished s →
          (∀ p, p ∈ MazeJS.Solution_List g' → marked (Maze s) p) ∧
          MazeJS.Steps_to_Solve g' <= User_Moves s ∧
          ∃ t, livestats s = Some t ∧
               total_move_count t = User_Moves s ∧
               minimum_move_count t = MazeJS.Steps_to_Solve g' ∧
               minimum_move_count t <= total_move_count t.
Proof.
  refine (finished_session_has_walked_the_solution always_first 2 form_2x1
            (page form_2x1) _ _);
    compute_done.
Defined.

(** On a generated maze the player never leaves the grid: every state
    reached is finished or has the player on a visited cell of the grid,
    and until the finish every move key, and every click on a cell of the
    grid, returns without raising. *)
Theorem player_stays_on_the_grid
    (R : nat → nat) (fuel : nat) (f : MazeJS.Form) (g : MazeJS.Globals) :
  let c := MazeJS.config_read f (MazeJS.config g) in
  can_generate c →
  MazeJS.WIDTH c * MazeJS.HEIGHT c <= Z.of_nat fuel →
  ∃ g', MazeJS.LoadMaze R fuel f g = Ret tt g' ∧
        ∀ inputs, let s := play (session g') inputs in
          (Finished s ∨
           (in_grid (MazeJS.WIDTH c) (MazeJS.HEIGHT c) (Current_Location s) ∧
            marked (Maze s) (Current_Location s))) ∧
          ∀ i, ¬ Finished s →
               (∀ w h, i = Click w h → in_grid (MazeJS.WIDTH c) (MazeJS.HEIGHT c) (w, h)) →
               ∃ s', handler i s = Ret tt s'.
Proof.
  intros c Hcan Hfuel.
  pose proof Hcan as (Herr & Hent & Hexit & Hout).
  destruct (LoadMaze_perfect R fuel f g Hcan Hfuel) as (g' & Hrun & Hp). fold c in Hp.
  exists g'. split; [done|]. intros inputs s.
  assert (Ht : touring c g' s).
  { apply (touring_play c g' Hp). by apply touring_page_load. }
  split; [apply Ht|]. intros i. by apply (touring_step c g' Hp s i).
Qed.

Lemma player_stays_on_the_grid_witness :
  let c := MazeJS.config_read form_2x1 (MazeJS.config (page form_2x1)) in
  ∃ g', MazeJS.LoadMaze always_first 2 form_2x1 (page form_2x1) = Ret tt g' ∧
        ∀ inputs, let s := play (session g') inputs in
          (Finished s ∨
           (in_grid (MazeJS.WIDTH c) (MazeJS.HEIGHT c) (Current_Location s) ∧
            marked (Maze s) (Current_Location s))) ∧
          ∀ i, ¬ Finished s →
               (∀ w h, i = Click w h → in_grid (MazeJS.WIDTH c) (MazeJS.HEIGHT c) (w, h)) →
               ∃ s', handler i s = Ret tt s'.
Proof.
  refine (player_stays_on_the_grid always_first 2 form_2x1 (page form_2x1) _ _);
    compute_done.
Defined.

(** [CheckStart]: on the entrance cell the key that points through the
    entrance opening does nothing at all. *)
Theorem entrance_opening_is_no_way_out (s : Session) (direction : Z) :
  0 <= direction <= 3 →
  Current_Location s = start_cell s →
  direction = Enter (opener s) →
  move direction s = Ret tt s.
Proof.
  intros Hd Hcur Henter.
  assert (∀ dx dy, Move direction dx dy s = Ret tt s) as HM.
  { intros dx dy. unfold Move, bind at 1. rewrite CheckStart_returns, Hcur.
    unfold start_cell. simpl. by rewrite !bool_decide_eq_true_2 by done. }
  assert (direction = 0 ∨ direction = 1 ∨ direction = 2 ∨ direction = 3)
    as [H|[H|[H|H]]] by lia;
    rewrite H in HM |- *; unfold move, MoveUp, MoveRight, MoveDown, MoveLeft;
    repeat case_decide; try lia; apply HM.
Qed.

Lemma entrance_opening_is_no_way_out_witness :
  let s := session (generated always_first 2 form_2x1) in
  move 3 s = Ret tt s.
Proof.
  refine (entrance_opening_is_no_way_out (session (generated always_first 2 form_2x1)) 3
            _ _ _).
  - lia.
  - by vm_compute.
  - by vm_compute.
Defined.

(** A move through an open side that is neither the entrance opening nor
    the exit opening: when a cell lies behind it the player is put on that
    cell, the cell is marked visited and the move counter grows by one;
    when no cell lies behind it, [Current_Location] is changed all the same
    and then [UpdatePosition] raises. *)
Theorem move_through_open_side (s : Session) (direction : Z) :
  let cur := Current_Location s in
  let next := toward cur direction in
  on_grid s →
  in_grid (WIDTH (opener s)) (HEIGHT (opener s)) cur →
  0 <= direction <= 3 →
  open_side (Maze s) cur direction →
  ¬ (cur = start_cell s ∧ direction = Enter (opener s)) →
  ¬ (cur = end_cell s ∧ direction = Exit (opener s)) →
  (∀ c, Maze s !! next = Some c →
        move direction s =
          Ret tt (set_User_Moves (User_Moves s + 1)
                    (set_Maze (<[next := set_visited true c]> (Maze s))
                       (set_Current_Location next s)))) ∧
  (Maze s !! next = None → move direction s = Throw (set_Current_Location next s)).
Proof.
  intros cur next Hg Hin Hd Hopen Hns Hne.
  assert (∃ dx dy, move direction = Move direction dx dy ∧
                   (cur.1 + dx, cur.2 + dy) = next) as (dx & dy & -> & Hnext).
  { assert (direction = 0 ∨ direction = 1 ∨ direction = 2 ∨ direction = 3)
      as [Hz|[Hz|[Hz|Hz]]] by lia;
      [exists 0, (-1)|exists 1, 0|exists 0, 1|exists (-1), 0];
      (split; [by rewrite Hz|unfold next, toward; rewrite Hz; simpl; f_equal; lia]). }
  destruct (Move_outcome direction dx dy s Hg Hin)
    as [[_ [?|?]] | [(_ & _ & ? & _)
       | [(_ & _ & _ & Hnone & Hrun) | (_ & _ & _ & c' & Hc' & Hrun)]]]; try done;
    fold cur in Hrun; rewrite Hnext in *; fold cur next in Hnone || fold cur next in Hc'.
  - split; [|done]. intros c Hc. fold cur in Hnone. congruence.
  - split.
    + intros c Hc. assert (c = c') as -> by congruence. done.
    + intros Hnone. congruence.
Qed.

Lemma move_through_open_side_witness :
  let s := session (generated always_first 2 form_2x1) in
  let cur := Current_Location s in
  let next := toward cur 1 in
  (∀ c, Maze s !! next = Some c →
        move 1 s =
          Ret tt (set_User_Moves (User_Moves s + 1)
                    (set_Maze (<[next := set_visited true c]> (Maze s))
                       (set_Current_Location next s)))) ∧
  (Maze s !! next = None → move 1 s = Throw (set_Current_Location next s)).
Proof.
  refine (move_through_open_side (session (generated always_first 2 form_2x1)) 1
            _ _ _ _ _ _).
  - apply grid_array_dom. compute_done.
  - compute_done.
  - lia.
  - compute_done.
  - compute_done.
  - compute_done.
Defined.

(** [JumpHere] on a cell of the grid: a click on a visited cell puts the
    player there and counts one jump, also when the player is on that cell
    already, and changes neither the array nor the move counter; a click
    on a cell not yet visited changes nothing. *)
Theorem JumpHere_goes_to_visited_cells_only (s : Session) (w h : Z) :
  on_grid s →
  in_grid (WIDTH (opener s)) (HEIGHT (opener s)) (Current_Location s) →
  in_grid (WIDTH (opener s)) (HEIGHT (opener s)) (w, h) →
  (marked (Maze s) (w, h) →
   JumpHere w h s =
     Ret tt (set_User_Jumps (User_Jumps s + 1) (set_Current_Location (w, h) s))) ∧
  (¬ marked (Maze s) (w, h) → JumpHere w h s = Ret tt s).
Proof.
  intros Hg Hcur Hwh.
  destruct (JumpHere_outcome w h s)
    as [[Hnone Hrun] | [(c & Hc & Hv & Hrun) | [(c & Hc & Hv & Hout & Hrun)
       | (c & Hc & Hv & _ & [[_ Hrun]|[Hout _]])]]]; try done.
  - apply Hg in Hwh. rewrite Hnone in Hwh. by destruct Hwh.
  - split; [|done]. intros (c' & Hc' & Hv'). congruence.
  - split; [done|]. intros Hn. destruct Hn. by exists c.
Qed.

Lemma JumpHere_goes_to_visited_cells_only_witness :
  let s := play (session (generated always_first 2 form_2x1)) [KeyD] in
  (marked (Maze s) (0, 0) →
   JumpHere 0 0 s =
     Ret tt (set_User_Jumps (User_Jumps s + 1) (set_Current_Location (0, 0) s))) ∧
  (¬ marked (Maze s) (0, 0) → JumpHere 0 0 s = Ret tt s).
Proof.
  refine (JumpHere_goes_to_visited_cells_only
            (play (session (generated always_first 2 form_2x1)) [KeyD]) 0 0 _ _ _).
  - apply grid_array_dom. compute_done.
  - compute_done.
  - compute_done.
Defined.

(** The play page as it opens: whatever marks the solver left, exactly the
    entrance cell is marked visited, the player stands on it, both counters
    are zero and every wall is as the generator page has it. *)
Theorem play_page_starts_on_the_entrance (g : MazeJS.Globals) :
  let c := MazeJS.config g in
  let entrance := (MazeJS.ENTRANCE_X c, MazeJS.ENTRANCE_Y c) in
  grid_array (MazeJS.WIDTH c) (MazeJS.HEIGHT c) (MazeJS.Maze g) →
  in_grid (MazeJS.WIDTH c) (MazeJS.HEIGHT c) entrance →
  ∃ s, page_load (page_load_globals g) = Ret tt s ∧
       Current_Location s = entrance ∧ User_Moves s = 0 ∧ User_Jumps s = 0 ∧
       livestats s = None ∧
       (∀ p, marked (Maze s) p ↔ p = entrance) ∧
       (∀ p k, open_side (Maze s) p k ↔ open_side (MazeJS.Maze g) p k).
Proof.
  intros c entrance Hg Hin.
  destruct (page_load_state g Hg Hin) as (m' & Hrun & Hm'). fold c entrance in Hm'.
  eexists. split; [exact Hrun|]. simpl. repeat (split; [done|]). split.
  - intros p. unfold marked. rewrite Hm'. split.
    + intros (c' & Hc' & Hv). destruct (MazeJS.Maze g !! p) as [c0|]; simpl in Hc'; [|done].
      injection Hc' as <-. simpl in Hv. by apply bool_decide_eq_true_1 in Hv.
    + intros ->. destruct (proj2 (Hg entrance) Hin) as [c0 Hc0].
      rewrite Hc0. simpl. eexists. split; [done|]. simpl.
      by apply bool_decide_eq_true_2.
  - intros p k. symmetry. apply same_walls_open. intros q. rewrite Hm'.
    by destruct (MazeJS.Maze g !! q).
Qed.

Lemma play_page_starts_on_the_entrance_witness :
  let g := generated always_first 2 form_2x1 in
  let c := MazeJS.config g in
  let entrance := (MazeJS.ENTRANCE_X c, MazeJS.ENTRANCE_Y c) in
  ∃ s, page_load (page_load_globals g) = Ret tt s ∧
       Current_Location s = entrance ∧ User_Moves s = 0 ∧ User_Jumps s = 0 ∧
       livestats s = None ∧
       (∀ p, marked (Maze s) p ↔ p = entrance) ∧
       (∀ p k, open_side (Maze s) p k ↔ open_side (MazeJS.Maze g) p k).
Proof.
  refine (play_page_starts_on_the_entrance (generated always_first 2 form_2x1) _ _).
  - apply grid_array_dom. compute_done.
  - compute_done.
Defined.

Lemma play_keeps_walls_and_marks_witness :
  let s := session (generated always_first 2 form_2x1) in
  let s' := play s [KeyD; Click 0 0; KeyW] in
  on_grid s' ∧ opener s' = opener s ∧
  (∀ p k, open_side (Maze s') p k ↔ open_side (Maze s) p k) ∧
  (∀ p, marked (Maze s) p → marked (Maze s') p) ∧
  User_Moves s <= User_Moves s' ∧ User_Jumps s <= User_Jumps s' ∧
  (alerts s ≤ alerts s')%nat.
Proof.
  refine (play_keeps_walls_and_marks (session (generated always_first 2 form_2x1))
            [KeyD; Click 0 0; KeyW] _).
  apply grid_array_dom. compute_done.
Defined.

End SessionExtras.

Section GeneratorExtras.
Import MazeJS Generated Pages.

(** [GetNeighbors] on a cell of the grid lists exactly the cells of the
    grid one step away, each once: none on a grid of one cell, two for a
    corner, never more than four. *)
Theorem GetNeighbors_lists_the_cells_next_to (c : Config) (w h : Z) :
  in_grid (WIDTH c) (HEIGHT c) (w, h) →
  NoDup (GetNeighbors c w h) ∧
  (length (GetNeighbors c w h) ≤ 4)%nat ∧
  ∀ q, q ∈ GetNeighbors c w h ↔
       in_grid (WIDTH c) (HEIGHT c) q ∧ ∃ k, 0 <= k <= 3 ∧ q = toward (w, h) k.
Proof.
  intros Hin. split; [|split].
  - unfold GetNeighbors. repeat case_decide; simpl;
      repeat (apply NoDup_cons; split;
              [rewrite ?not_elem_of_cons; repeat split;
               try apply not_elem_of_nil; intros Heq; inversion Heq; lia|]);
      apply NoDup_nil_2.
  - unfold GetNeighbors. repeat case_decide; simpl; lia.
  - intros q. rewrite GetNeighbors_spec by done. naive_solver.
Qed.

Lemma GetNeighbors_lists_the_cells_next_to_witness :
  NoDup (GetNeighbors config_3x3 0 1) ∧
  (length (GetNeighbors config_3x3 0 1) ≤ 4)%nat ∧
  ∀ q, q ∈ GetNeighbors config_3x3 0 1 ↔
       in_grid (WIDTH config_3x3) (HEIGHT config_3x3) q ∧
       ∃ k, 0 <= k <= 3 ∧ q = toward (0, 1) k.
Proof.
  refine (GetNeighbors_lists_the_cells_next_to config_3x3 0 1 _). compute_done.
Defined.





End GeneratorExtras.

Section FormExtras.
Import MazeJS Generated Pages MazePage Menus.

(** [RemoveWall] between a cell and the cell next to it through side [k]
    clears the two slots that face each other and nothing else: every other
    wall slot, every visited flag and every other global stay as they
    are. *)
Theorem RemoveWall_opens_the_facing_slots (w h k : Z) (g : Globals) :
  0 <= k <= 3 →
  is_Some (Maze g !! (w, h)) →
  is_Some (Maze g !! toward (w, h) k) →
  ∃ m', RemoveWall w h (toward (w, h) k) g = Ret tt (set_Maze m' g) ∧
        (∀ p, is_Some (m' !! p) ↔ is_Some (Maze g !! p)) ∧
        (∀ p, marked m' p ↔ marked (Maze g) p) ∧
        (∀ p j, 0 <= j <= 3 →
           open_side m' p j ↔
           open_side (Maze g) p j ∨ (p = (w, h) ∧ j = k) ∨
           (p = toward (w, h) k ∧ j = opposite k)).
Proof.
  intros Hk [ca Ha] [cn Hn].
  assert (Hne : (w, h) ≠ toward (w, h) k) by (symmetry; apply toward_other).
  eexists. split; [by apply (RemoveWall_spec w h k g ca cn)|].
  set (a := (w, h)) in *. set (n := toward a k) in *.
  assert (Hlook : ∀ p, (<[n := set_wall (opposite k) 0 cn]>
                          (<[a := set_wall k 0 ca]> (Maze g))) !! p =
                       if decide (p = n) then Some (set_wall (opposite k) 0 cn)
                       else if decide (p = a) then Some (set_wall k 0 ca)
                       else Maze g !! p).
  { intros p. case_decide as H1; [subst; by rewrite lookup_insert_eq|].
    rewrite lookup_insert_ne by done.
    case_decide as H2; [subst; by rewrite lookup_insert_eq|].
    by rewrite lookup_insert_ne. }
  pose proof (opposite_range k Hk) as Hok.
  split; [|split].
  - intros p. rewrite Hlook. repeat case_decide; subst; rewrite ?Ha, ?Hn; naive_solver.
  - intros p. unfold marked. rewrite Hlook.
    repeat case_decide; subst; rewrite ?Ha, ?Hn.
    + split; intros (c' & [= <-] & Hv); eexists; (split; [done|]);
        by rewrite ?visited_set_wall in *.
    + split; intros (c' & [= <-] & Hv); eexists; (split; [done|]);
        by rewrite ?visited_set_wall in *.
    + done.
  - intros p j Hj. unfold open_side. rewrite Hlook.
    repeat case_decide; subst; rewrite ?Ha, ?Hn.
    + split.
      * intros (c' & [= <-] & Hw). rewrite wall_set_wall in Hw by done.
        case_decide; [naive_solver|]. left. eauto.
      * intros [(c' & [= <-] & Hw)|[[? ?]|[_ ->]]]; [|done|].
        -- eexists. split; [done|]. rewrite wall_set_wall by done. by case_decide.
        -- eexists. split; [done|]. rewrite wall_set_wall by done. by rewrite decide_True.
    + split.
      * intros (c' & [= <-] & Hw). rewrite wall_set_wall in Hw by done.
        case_decide; [naive_solver|]. left. eauto.
      * intros [(c' & [= <-] & Hw)|[[_ ->]|[? ?]]]; [| |done].
        -- eexists. split; [done|]. rewrite wall_set_wall by done. by case_decide.
        -- eexists. split; [done|]. rewrite wall_set_wall by done. by rewrite decide_True.
    + naive_solver.
Qed.

Lemma RemoveWall_opens_the_facing_slots_witness :
  let g := set_Maze (<[(0, 0) := fresh_cell]> (<[(1, 0) := fresh_cell]> ∅))
             (page form_2x1) in
  ∃ m', RemoveWall 0 0 (toward (0, 0) 1) g = Ret tt (set_Maze m' g) ∧
        (∀ p, is_Some (m' !! p) ↔ is_Some (Maze g !! p)) ∧
        (∀ p, marked m' p ↔ marked (Maze g) p) ∧
        (∀ p j, 0 <= j <= 3 →
           open_side m' p j ↔
           open_side (Maze g) p j ∨ (p = (0, 0) ∧ j = 1) ∨
           (p = toward (0, 0) 1 ∧ j = opposite 1)).
Proof.
  refine (RemoveWall_opens_the_facing_slots 0 0 1
            (set_Maze (<[(0, 0) := fresh_cell]> (<[(1, 0) := fresh_cell]> ∅))
               (page form_2x1)) _ _ _).
  - lia.
  - compute_done.
  - compute_done.
Defined.

(** The configurations [ICanHazErrors] finds nothing wrong with. *)
Definition acceptable (c : Config) : Prop :=
  (ENTRANCE_X c, ENTRANCE_Y c) ≠ (STARTING_X c, STARTING_Y c) ∧
  0 < HEIGHT c ∧ 0 < WIDTH c ∧ 0 < BORDER_WIDTH c ∧
  BORDER_WIDTH c < CELL_SIZE c ∧ 4 <= CELL_SIZE c.

Lemma config_error_None c : config_error c = None ↔ acceptable c.
Proof.
  unfold config_error, acceptable.
  repeat (case_match; [split; [done|];
    repeat match goal with
           | H : _ && _ = true |- _ => apply andb_prop in H as [? ?]
           | H : _ || _ = true |- _ => apply orb_prop in H as [?|?]
           | H : bool_decide _ = true |- _ => apply bool_decide_eq_true_1 in H
           end; intros (Hne & ?); try lia; destruct Hne; congruence|]).
  split; [|done]. intros _.
  repeat match goal with
         | H : _ || _ = false |- _ => apply orb_false_iff in H as [? ?]
         | H : bool_decide _ = false |- _ => apply bool_decide_eq_false_1 in H
         end.
  split; [|lia]. intros [= ? ?].
  match goal with H : _ && _ = false |- _ => apply andb_false_iff in H as [H|H];
    apply bool_decide_eq_false_1 in H end; congruence.
Qed.


(** At each of the four corners [UpdateEntrance] and [UpdateExit] put the
    cell on the grid and offer two walls, both on the outer boundary of the
    grid and each labelled with its own name; the cell is the one
    [GetEntrance] and [GetExit] compute.  For any other code, such as the
    value "Tl" of the exit menu's last option, [UpdateExit] leaves the exit
    where it was and the wall menu empty. *)
Theorem corner_menus_offer_boundary_walls (location : string) (c : Config) (f : Form) :
  0 < WIDTH c → 0 < HEIGHT c →
  (location ∈ corners →
   let c1 := (UpdateEntrance location c).1 in
   let c2 := (UpdateExit location c).1 in
   (entrance f = location → GetEntrance f c = c1) ∧
   (exit f = location → GetExit f c = c2) ∧
   in_grid (WIDTH c) (HEIGHT c) (entrance_cell c1) ∧
   in_grid (WIDTH c) (HEIGHT c) (exit_cell c2) ∧
   length (UpdateEntrance location c).2 = 2%nat ∧
   length (UpdateExit location c).2 = 2%nat ∧
   (∀ v label, (v, label) ∈ (UpdateEntrance location c).2 →
      0 <= v <= 3 ∧ label = wall_name v ∧
      ¬ in_grid (WIDTH c) (HEIGHT c) (toward (entrance_cell c1) v)) ∧
   (∀ v label, (v, label) ∈ (UpdateExit location c).2 →
      0 <= v <= 3 ∧ label = wall_name v ∧
      ¬ in_grid (WIDTH c) (HEIGHT c) (toward (exit_cell c2) v))) ∧
  (location ∉ corners →
   UpdateEntrance location c = (c, []) ∧ UpdateExit location c = (c, []) ∧
   (entrance f = location → GetEntrance f c = c) ∧
   (exit f = location → GetExit f c = c)) ∧
  "Tl" ∈ HTML_EXIT_INPUT_corners ∧ "Tl" ∉ corners.
Proof.
  intros Hw Hh. split; [|split].
  - intros Hloc c1 c2. unfold corners in Hloc.
    repeat (apply elem_of_cons in Hloc as [->|Hloc]); [..|by apply elem_of_nil in Hloc];
      subst c1 c2; unfold UpdateEntrance, UpdateExit, GetEntrance, GetExit,
        entrance_cell, exit_cell; simpl.
    all: split; [by intros ->|]. all: split; [by intros ->|].
    all: split; [unfold in_grid; simpl; lia|]. all: split; [unfold in_grid; simpl; lia|].
    all: split; [done|]. all: split; [done|].
    all: split; intros v label Hv;
      repeat (apply elem_of_cons in Hv as [[= -> ->]|Hv]); try (by apply elem_of_nil in Hv);
      (split; [lia|]; split; [done|]; unfold in_grid, toward; simpl; lia).
  - intros Hloc. unfold corners in Hloc.
    repeat (apply not_elem_of_cons in Hloc as [? Hloc]).
    unfold UpdateEntrance, UpdateExit, GetEntrance, GetExit.
    split; [by rewrite !decide_False by done|].
    split; [by rewrite !decide_False by done|].
    split; intros ->; by rewrite !decide_False by done.
  - split; [compute_done|compute_done].
Qed.

Lemma corner_menus_offer_boundary_walls_witness :
  let location := "br" in
  let c := config (page form_2x1) in
  let f := form_2x1 in
  (location ∈ corners →
   let c1 := (UpdateEntrance location c).1 in
   let c2 := (UpdateExit location c).1 in
   (entrance f = location → GetEntrance f c = c1) ∧
   (exit f = location → GetExit f c = c2) ∧
   in_grid (WIDTH c) (HEIGHT c) (entrance_cell c1) ∧
   in_grid (WIDTH c) (HEIGHT c) (exit_cell c2) ∧
   length (UpdateEntrance location c).2 = 2%nat ∧
   length (UpdateExit location c).2 = 2%nat ∧
   (∀ v label, (v, label) ∈ (UpdateEntrance location c).2 →
      0 <= v <= 3 ∧ label = wall_name v ∧
      ¬ in_grid (WIDTH c) (HEIGHT c) (toward (entrance_cell c1) v)) ∧
   (∀ v label, (v, label) ∈ (UpdateExit location c).2 →
      0 <= v <= 3 ∧ label = wall_name v ∧
      ¬ in_grid (WIDTH c) (HEIGHT c) (toward (exit_cell c2) v))) ∧
  (location ∉ corners →
   UpdateEntrance location c = (c, []) ∧ UpdateExit location c = (c, []) ∧
   (entrance f = location → GetEntrance f c = c) ∧
   (exit f = location → GetExit f c = c)) ∧
  "Tl" ∈ HTML_EXIT_INPUT_corners ∧ "Tl" ∉ corners.
Proof.
  refine (corner_menus_offer_boundary_walls "br" (config (page form_2x1)) form_2x1 _ _);
    compute_done.
Defined.

Lemma refreshed_can_generate (f : Form) (c0 : Config) :
  let c := config_read f c0 in
  refreshed f c0 →
  0 < BORDER_WIDTH c0 < cell_size f →
  0 < dim_width f → 0 < dim_height f → 4 <= cell_size f →
  entrance_cell c ≠ exit_cell c →
  can_generate c ∧
  ¬ in_grid (WIDTH c) (HEIGHT c) (toward (exit_cell c) (EXIT c)).
Proof.
  intros c (HW & HH & Hent & Hex & Hwe & Hwx) HB Hw Hh Hcs Hne.
  destruct f as [fe fx we wx dw dh cs]. destruct c0 as [W H sx sy ex ey CS BW EN EX].
  cbn [MazeJS.entrance MazeJS.exit wall_entrance wall_exit dim_width dim_height cell_size
       WIDTH HEIGHT BORDER_WIDTH] in *.
  subst W H. unfold corners in Hent, Hex.
  repeat (apply elem_of_cons in Hent as [->|Hent]); [..|by apply elem_of_nil in Hent];
  (repeat (apply elem_of_cons in Hex as [->|Hex]); [..|by apply elem_of_nil in Hex]);
    simpl in Hwe, Hwx;
    (repeat (apply elem_of_cons in Hwe as [->|Hwe]); [..|by apply elem_of_nil in Hwe]);
    (repeat (apply elem_of_cons in Hwx as [->|Hwx]); [..|by apply elem_of_nil in Hwx]);
    subst c; unfold can_generate, entrance_cell, exit_cell in *; simpl in Hne |- *;
    rewrite config_error_None; unfold acceptable, in_grid, toward; simpl;
    (split; [split; [split; [done|lia]|lia]|lia]).
Qed.

(** A form that the refreshed menus allow, with positive dimensions, a
    cell size of at least 4 above the border and two different corner
    cells, always generates: [LoadMaze] returns a spanning tree over the
    cells whose walls are open on both sides or on neither, with the two
    doors as the only openings in the outer boundary. *)
Theorem refreshed_forms_generate_perfect_mazes
    (R : nat → nat) (fuel : nat) (f : Form) (g : Globals) :
  let c := config_read f (config g) in
  refreshed f (config g) →
  0 < BORDER_WIDTH (config g) < cell_size f →
  0 < dim_width f → 0 < dim_height f → 4 <= cell_size f →
  entrance_cell c ≠ exit_cell c →
  dim_width f * dim_height f <= Z.of_nat fuel →
  ∃ g', LoadMaze R fuel f g = Ret tt g' ∧
        WIDTH (config g') = dim_width f ∧ HEIGHT (config g') = dim_height f ∧
        grid_array (dim_width f) (dim_height f) (Maze g') ∧
        Z.of_nat (removed_walls (dim_width f) (dim_height f) (Maze g'))
          = dim_width f * dim_height f - 1 ∧
        (∀ p q, in_grid (dim_width f) (dim_height f) p →
                in_grid (dim_width f) (dim_height f) q →
                one_simple_path (Maze g') p q) ∧
        (∀ p k, 0 <= k <= 3 →
           in_grid (dim_width f) (dim_height f) p →
           in_grid (dim_width f) (dim_height f) (toward p k) →
           (open_side (Maze g') p k ↔ open_side (Maze g') (toward p k) (opposite k))) ∧
        (∀ p k, 0 <= k <= 3 →
           in_grid (dim_width f) (dim_height f) p →
           ¬ in_grid (dim_width f) (dim_height f) (toward p k) →
           (open_side (Maze g') p k ↔ doors c p k)).
Proof.
  intros c Href HB Hw Hh Hcs Hne Hfuel.
  destruct (refreshed_can_generate f (config g) Href HB Hw Hh Hcs Hne) as [Hcan Hexout].
  fold c in Hcan, Hexout.
  assert (HW : WIDTH c = dim_width f) by done.
  assert (HH : HEIGHT c = dim_height f) by done.
  pose proof Hcan as (Herr & Hent & Hexit & Hout).
  destruct (LoadMaze_perfect R fuel f g Hcan) as (g' & Hrun & Hp).
  { fold c. by rewrite HW, HH. }
  fold c in Hp. rewrite HW, HH in *.
  exists g'. split; [done|]. rewrite (perfect_config _ _ Hp).
  split; [done|]. split; [done|].
  pose proof (perfect_grid _ _ Hp) as Hg. rewrite HW, HH in Hg.
  pose proof (perfect_count _ _ Hp) as Hcount. rewrite HW, HH in Hcount.
  pose proof (perfect_paths _ _ Hp) as Hpaths. rewrite HW, HH in Hpaths.
  split; [done|]. split; [done|]. split; [done|].
  assert (Hdoor : ∀ p k, doors c p k → ¬ in_grid (dim_width f) (dim_height f) (toward p k)).
  { intros p k [[-> ->]|[-> ->]]; done. }
  assert (Hpair : ∀ p k, 0 <= k <= 3 → in_grid (dim_width f) (dim_height f) (toward p k) →
            open_side (Maze g') p k → open_side (Maze g') (toward p k) (opposite k)).
  { intros p k Hk Hq [Hpass|Hd]%(perfect_open _ _ Hp); [|by destruct (Hdoor p k)|done].
    destruct Hpass as (k' & Hk' & Heq & _ & Ho).
    apply toward_side in Heq; [|done..]. by subst k'. }
  split.
  - intros p k Hk Hp' Hq. split; [by apply Hpair|].
    intros Hopp. apply Hpair in Hopp; [|by apply opposite_range|by rewrite toward_back].
    by rewrite toward_back, opposite_opposite in Hopp.
  - intros p k Hk Hp' Hq. rewrite (perfect_open _ _ Hp) by done. split; [|by right].
    intros [Hpass|Hd]; [|done]. exfalso. apply Hq, Hg.
    destruct Hpass as (k' & _ & _ & _ & Ho). by eapply open_side_is_Some.
Qed.

Lemma refreshed_forms_generate_perfect_mazes_witness :
  let f := form_2x1 in
  let g := page form_2x1 in
  let c := config_read f (config g) in
  ∃ g', LoadMaze always_first 2 f g = Ret tt g' ∧
        WIDTH (config g') = dim_width f ∧ HEIGHT (config g') = dim_height f ∧
        grid_array (dim_width f) (dim_height f) (Maze g') ∧
        Z.of_nat (removed_walls (dim_width f) (dim_height f) (Maze g'))
          = dim_width f * dim_height f - 1 ∧
        (∀ p q, in_grid (dim_width f) (dim_height f) p →
                in_grid (dim_width f) (dim_height f) q →
                one_simple_path (Maze g') p q) ∧
        (∀ p k, 0 <= k <= 3 →
           in_grid (dim_width f) (dim_height f) p →
           in_grid (dim_width f) (dim_height f) (toward p k) →
           (open_side (Maze g') p k ↔ open_side (Maze g') (toward p k) (opposite k))) ∧
        (∀ p k, 0 <= k <= 3 →
           in_grid (dim_width f) (dim_height f) p →
           ¬ in_grid (dim_width f) (dim_height f) (toward p k) →
           (open_side (Maze g') p k ↔ doors c p k)).
Proof.
  refine (refreshed_forms_generate_perfect_mazes always_first 2 form_2x1 (page form_2x1)
            _ _ _ _ _ _ _); compute_done.
Defined.

(** When the configuration passes [ICanHazErrors] but the exit cell is not
    a cell of the grid (the exit globals are left over from larger
    dimensions, as after choosing the exit option "Tl"), [LoadMaze] raises
    on the first access of [GenerateMaze]: the page is left with a grid of
    cells that all have their four walls, no solution, and no message. *)
Theorem LoadMaze_raises_when_the_exit_is_off_the_grid
    (R : nat → nat) (fuel : nat) (f : Form) (g : Globals) :
  let c := config_read f (config g) in
  config_error c = None →
  ¬ in_grid (WIDTH c) (HEIGHT c) (exit_cell c) →
  (0 < fuel)%nat →
  ∃ m, LoadMaze R fuel f g = Throw (set_Maze m (globals_read f g)) ∧
       ∀ p, m !! p = if decide (in_grid (WIDTH c) (HEIGHT c) p) then Some fresh_cell
                     else None.
Proof.
  intros c Herr Hout Hfuel. rewrite LoadMaze_unfold. fold c. rewrite Herr.
  destruct (fill_Maze_spec (WIDTH c) (HEIGHT c) (globals_read f g)) as (m & Hrun & Hm).
  exists m. split.
  - unfold bind at 1, carve, bind at 1, get at 1.
    cbn [globals_read config]. fold c.
    unfold bind at 1. rewrite Hrun. unfold bind at 1.
    destruct fuel as [|fuel]; [lia|].
    rewrite GenerateMaze_unfold. unfold bind at 1.
    rewrite update_cell_missing; [done|].
    cbn [the_Maze Globals_MazeStore Maze set_Maze]. rewrite Hm.
    rewrite decide_False by done. done.
  - intros p. rewrite Hm. by case_decide.
Qed.

Lemma LoadMaze_raises_when_the_exit_is_off_the_grid_witness :
  let f := mkForm "tl" "Tl" 3 1 2 2 10 in
  let g := page f in
  let c := config_read f (config g) in
  ∃ m, LoadMaze always_first 4 f g = Throw (set_Maze m (globals_read f g)) ∧
       ∀ p, m !! p = if decide (in_grid (WIDTH c) (HEIGHT c) p) then Some fresh_cell
                     else None.
Proof.
  refine (LoadMaze_raises_when_the_exit_is_off_the_grid always_first 4
            (mkForm "tl" "Tl" 3 1 2 2 10) (page (mkForm "tl" "Tl" 3 1 2 2 10)) _ _ _).
  - by vm_compute.
  - compute_done.
  - lia.
Defined.

End FormExtras.

Section CheckValueProofs.
Import MazePage.

Lemma replace_first_valid ch value :
  ch ∉ Valid →
  replace_first ch value `sublist_of` value ∧
  filter (.∈ Valid) (replace_first ch value) = filter (.∈ Valid) value ∧
  (length (replace_first ch value) ≤ length value)%nat.
Proof.
  intros Hch. induction value as [|a value (IH1 & IH2 & IH3)]; [done|]. simpl.
  case_decide as Ha.
  - subst a. split; [by apply sublist_cons|]. split; [by rewrite filter_cons_False|lia].
  - split; [by apply sublist_skip|]. split; [|simpl; lia].
    rewrite !filter_cons. case_decide; by rewrite IH2.
Qed.

Lemma CheckValue_from_keeps rounds i value :
  CheckValue_from rounds i value `sublist_of` value ∧
  filter (.∈ Valid) (CheckValue_from rounds i value) = filter (.∈ Valid) value.
Proof.
  revert i value. induction rounds as [|rounds IH]; intros i value; [done|]. simpl.
  destruct (value !! i) as [ch|]; [|done]. case_decide as Hch; [apply IH|].
  destruct (replace_first_valid ch value Hch) as (H1 & H2 & _).
  destruct (IH (S i) (replace_first ch value)) as [H3 H4].
  split; [by etrans|congruence].
Qed.

Lemma CheckValue_from_valid rounds i value :
  Forall (.∈ Valid) value → CheckValue_from rounds i value = value.
Proof.
  intros Hv. revert i. induction rounds as [|rounds IH]; intros i; [done|]. simpl.
  destruct (value !! i) as [ch|] eqn:Hi; [|done].
  rewrite decide_True; [apply IH|]. by apply (Forall_lookup_1 (.∈ Valid) value i ch).
Qed.

Lemma CheckValue_from_rounds rounds extra i value :
  (length value ≤ i + rounds)%nat →
  CheckValue_from (rounds + extra) i value = CheckValue_from rounds i value.
Proof.
  revert i value. induction rounds as [|rounds IH]; intros i value Hlen; simpl.
  - destruct extra; [done|]. simpl. rewrite lookup_ge_None_2; [done|lia].
  - destruct (value !! i) as [ch|]; [|done]. apply IH. case_decide; [lia|].
    destruct (replace_first_valid ch value) as (_ & _ & ?); [done|lia].
Qed.

(** The rounds over a stretch of digits change nothing. *)
Lemma CheckValue_from_digits digits rounds before rest :
  Forall (.∈ Valid) digits →
  CheckValue_from (length digits + rounds) (length before) (before ++ digits ++ rest)
  = CheckValue_from rounds (length before + length digits) (before ++ digits ++ rest).
Proof.
  revert before. induction digits as [|d digits IH]; intros before Hd.
  - simpl. by rewrite Nat.add_0_r.
  - apply Forall_cons in Hd as [Hd Hds]. simpl.
    rewrite lookup_app_r, Nat.sub_diag by lia. simpl. rewrite decide_True by done.
    specialize (IH (before ++ [d]) Hds).
    rewrite length_app, <- !app_assoc in IH. simpl in IH.
    rewrite Nat.add_1_r in IH. rewrite IH. f_equal. lia.
Qed.

Lemma replace_first_after digits ch rest :
  Forall (.∈ Valid) digits → ch ∉ Valid →
  replace_first ch (digits ++ ch :: rest) = digits ++ rest.
Proof.
  intros Hd Hch. induction digits as [|d digits IH]; simpl.
  - by rewrite decide_True.
  - apply Forall_cons in Hd as [Hd Hds]. rewrite decide_False; [by rewrite IH|].
    by intros ->.
Qed.

(** [CheckValue] never removes a digit: what it returns is what it was
    given with some of the other characters taken out, a value of digits
    only comes back unchanged, and the loop has ended by itself within as
    many rounds as the value is long. *)
Theorem CheckValue_never_drops_a_digit (value : list Ascii.ascii) :
  CheckValue value `sublist_of` value ∧
  filter (.∈ Valid) (CheckValue value) = filter (.∈ Valid) value ∧
  (Forall (.∈ Valid) value → CheckValue value = value) ∧
  (∀ extra, CheckValue_from (length value + extra) 0 value = CheckValue value).
Proof.
  unfold CheckValue. destruct (CheckValue_from_keeps (length value) 0 value) as [H1 H2].
  split; [done|]. split; [done|]. split.
  - apply CheckValue_from_valid.
  - intros extra. by apply CheckValue_from_rounds.
Qed.

(** One character that is no digit, anywhere among digits, is removed by
    [CheckValue]; of two such characters next to each other only the first
    is removed, because the loop steps over the one that moved into its
    place. *)
Theorem CheckValue_removes_one_stray_character
    (digits1 digits2 : list Ascii.ascii) (a b : Ascii.ascii) :
  Forall (.∈ Valid) digits1 → Forall (.∈ Valid) digits2 →
  a ∉ Valid → b ∉ Valid →
  CheckValue (digits1 ++ a :: digits2) = digits1 ++ digits2 ∧
  CheckValue (digits1 ++ a :: b :: digits2) = digits1 ++ b :: digits2.
Proof.
  intros H1 H2 Ha Hb.
  assert (Hstep : ∀ rest,
            CheckValue_from (length digits1 + S (length rest)) 0 (digits1 ++ a :: rest)
            = CheckValue_from (length rest) (S (length digits1)) (digits1 ++ rest)).
  { intros rest.
    pose proof (CheckValue_from_digits digits1 (S (length rest)) [] (a :: rest) H1) as Hd.
    cbn [app length Nat.add] in Hd. rewrite Hd. cbn [CheckValue_from].
    rewrite lookup_app_r, Nat.sub_diag by lia. cbn [lookup list_lookup].
    rewrite decide_False by done. by rewrite replace_first_after. }
  unfold CheckValue. rewrite !length_app. cbn [length]. split.
  - rewrite Hstep. apply CheckValue_from_valid. by apply Forall_app.
  - pose proof (Hstep (b :: digits2)) as Hs2. cbn [length] in Hs2. rewrite Hs2.
    pose proof (CheckValue_from_digits digits2 1 (digits1 ++ [b]) [] H2) as Hd.
    rewrite app_nil_r, <- !app_assoc, length_app in Hd. cbn [app length] in Hd.
    rewrite !Nat.add_1_r in Hd. cbn [length]. rewrite Hd. cbn [CheckValue_from].
    rewrite lookup_ge_None_2; [done|]. rewrite length_app. cbn [length]. lia.
Qed.

Lemma CheckValue_removes_one_stray_character_witness :
  let digits1 := String.list_ascii_of_string "4" in
  let digits2 := String.list_ascii_of_string "0" in
  let a := Ascii.ascii_of_nat 120 in
  let b := Ascii.ascii_of_nat 45 in
  CheckValue (digits1 ++ a :: digits2) = digits1 ++ digits2 ∧
  CheckValue (digits1 ++ a :: b :: digits2) = digits1 ++ b :: digits2.
Proof.
  refine (CheckValue_removes_one_stray_character
            (String.list_ascii_of_string "4") (String.list_ascii_of_string "0")
            (Ascii.ascii_of_nat 120) (Ascii.ascii_of_nat 45) _ _ _ _); compute_done.
Defined.

End CheckValueProofs.

Section PlayPageExtras.
Import SolverJS Play Generated Pages SolverPage.

Lemma CountOpenings_from_spec w h (s : Session) c slots count :
  Maze s !! (w, h) = Some c →
  CountOpenings_from w h count slots s
  = Ret (count + Z.of_nat (length (filter (λ i, wall c i = 0) slots))) s.
Proof.
  intros Hc. revert count. induction slots as [|i slots IH]; intros count; simpl.
  - unfold ret. f_equal. lia.
  - unfold bind. rewrite (cell_at_present s w h c) by done. rewrite IH.
    rewrite filter_cons. case_bool_decide; case_decide; try done; f_equal; simpl; lia.
Qed.

(** [CountOpenings] counts the wall slots of the cell that hold 0, and
    raises when there is no such cell. *)
Lemma CountOpenings_spec w h (s : Session) :
  match Maze s !! (w, h) with
  | Some c =>
      CountOpenings w h s = Ret (Z.of_nat (length (filter (λ i, wall c i = 0) (upto 4)))) s
  | None => CountOpenings w h s = Throw s
  end.
Proof.
  destruct (Maze s !! (w, h)) as [c|] eqn:Hc.
  - unfold CountOpenings. by rewrite (CountOpenings_from_spec w h s c).
  - unfold CountOpenings. change (upto 4) with [0; 1; 2; 3]. simpl. unfold bind.
    by rewrite cell_at_missing.
Qed.

(** On a generated maze [CountOpenings] returns on every cell of the
    grid, whatever was played before, the number of its open sides, which
    is at least 1 and at most 4: no cell is walled in.  Off the grid it
    raises. *)
Theorem every_cell_has_an_opening
    (R : nat → nat) (fuel : nat) (f : MazeJS.Form) (g : MazeJS.Globals) :
  let c := MazeJS.config_read f (MazeJS.config g) in
  can_generate c →
  MazeJS.WIDTH c * MazeJS.HEIGHT c <= Z.of_nat fuel →
  ∃ g', MazeJS.LoadMaze R fuel f g = Ret tt g' ∧
        ∀ inputs w h,
          let s := play (session g') inputs in
          (in_grid (MazeJS.WIDTH c) (MazeJS.HEIGHT c) (w, h) →
           ∃ n, CountOpenings w h s = Ret n s ∧ 1 <= n <= 4 ∧
                n = Z.of_nat (length (filter (open_side (MazeJS.Maze g') (w, h)) (upto 4)))) ∧
          (¬ in_grid (MazeJS.WIDTH c) (MazeJS.HEIGHT c) (w, h) →
           CountOpenings w h s = Throw s).
Proof.
  intros c Hcan Hfuel.
  pose proof Hcan as (Herr & Hent & Hexit & Hout).
  destruct (can_generate_sizes c Hcan) as (_ & _ & Hne).
  destruct (LoadMaze_perfect R fuel f g Hcan Hfuel) as (g' & Hrun & Hp). fold c in Hp.
  exists g'. split; [done|]. intros inputs w h s.
  assert (Ht : touring c g' s).
  { apply (touring_play c g' Hp). by apply touring_page_load. }
  destruct (touring_opener c g' Hp s Ht) as (HW & HH & _).
  destruct Ht as (_ & Hg & Hw & _). unfold on_grid in Hg. rewrite HW, HH in Hg.
  pose proof (CountOpenings_spec w h s) as Hcount. split.
  - intros Hin. destruct (proj2 (Hg (w, h)) Hin) as [c' Hc']. rewrite Hc' in Hcount.
    eexists. split; [exact Hcount|].
    assert (Hsame : filter (λ i, wall c' i = 0) (upto 4)
                    = filter (open_side (MazeJS.Maze g') (w, h)) (upto 4)).
    { apply filter_agree. intros i _. rewrite (same_walls_open _ _ _ _ Hw).
      by rewrite (open_side_lookup _ _ _ c'). }
    rewrite Hsame. split; [|done]. split.
    + assert (∃ q, in_grid (MazeJS.WIDTH c) (MazeJS.HEIGHT c) q ∧ q ≠ (w, h))
        as (q & Hq & Hqne).
      { destruct (decide (entrance_cell c = (w, h))) as [Heq|Hn].
        - exists (exit_cell c). split; [done|]. congruence.
        - by exists (entrance_cell c). }
      destruct (perfect_paths _ _ Hp (w, h) q Hin Hq) as (l & [Hl _] & _).
      inversion Hl as [|? x l' ? (k & Hk & _ & Ho & _) Hl']; subst; [done|].
      assert (Hin' : k ∈ filter (open_side (MazeJS.Maze g') (w, h)) (upto 4)).
      { apply list_elem_of_filter. split; [done|]. apply elem_of_seqZ. lia. }
      apply list_elem_of_split in Hin' as (l1 & l2 & ->).
      rewrite length_app. simpl. lia.
    + pose proof (length_filter (open_side (MazeJS.Maze g') (w, h)) (upto 4)) as Hle.
      change (length (upto 4)) with 4%nat in Hle. lia.
  - intros Hout'. destruct (Maze s !! (w, h)) as [c'|] eqn:Hc'; [|done].
    destruct Hout'. apply Hg. by rewrite Hc'.
Qed.

Lemma every_cell_has_an_opening_witness :
  let c := MazeJS.config_read form_2x1 (MazeJS.config (page form_2x1)) in
  ∃ g', MazeJS.LoadMaze always_first 2 form_2x1 (page form_2x1) = Ret tt g' ∧
        ∀ inputs w h,
          let s := play (session g') inputs in
          (in_grid (MazeJS.WIDTH c) (MazeJS.HEIGHT c) (w, h) →
           ∃ n, CountOpenings w h s = Ret n s ∧ 1 <= n <= 4 ∧
                n = Z.of_nat (length (filter (open_side (MazeJS.Maze g') (w, h)) (upto 4)))) ∧
          (¬ in_grid (MazeJS.WIDTH c) (MazeJS.HEIGHT c) (w, h) →
           CountOpenings w h s = Throw s).
Proof.
  refine (every_cell_has_an_opening always_first 2 form_2x1 (page form_2x1) _ _);
    compute_done.
Defined.

Lemma IsAnswer_in_spec l x y : MazePage.IsAnswer_in l x y = true ↔ (x, y) ∈ l.
Proof.
  induction l as [|[a b] l IH]; simpl.
  - split; [done|]. by intros ?%elem_of_nil.
  - rewrite elem_of_cons. destruct (bool_decide (a = x) && bool_decide (b = y)) eqn:Hab.
    + apply andb_prop in Hab as [?%bool_decide_eq_true_1 ?%bool_decide_eq_true_1].
      subst. naive_solver.
    + rewrite IH. split; [by right|]. intros [[= -> ->]|?]; [|done].
      by rewrite !bool_decide_eq_true_2 in Hab.
Qed.

Lemma walk_cells_in_grid width height m p l q :
  grid_array width height m → in_grid width height p →
  walk (passage m) p l q → ∀ x, x ∈ l → in_grid width height x.
Proof.
  intros Hg Hp Hw. induction Hw as [p|p y l q (k & _ & _ & _ & Ho) Hw IH].
  - by intros x ->%list_elem_of_singleton.
  - intros x [->|Hx]%elem_of_cons; [done|]. apply IH; [|done].
    apply Hg. by eapply open_side_is_Some.
Qed.

(** On a generated maze [IsAnswer] is true exactly on the cells of the
    solution list: on the entrance, on the exit, and on [Steps_to_Solve]
    plus 1 cells in all, every one a cell of the grid; the play page's
    [IsAnswer] gives the same answers at every point of a session. *)
Theorem IsAnswer_marks_the_solution
    (R : nat → nat) (fuel : nat) (f : MazeJS.Form) (g : MazeJS.Globals) :
  let c := MazeJS.config_read f (MazeJS.config g) in
  can_generate c →
  MazeJS.WIDTH c * MazeJS.HEIGHT c <= Z.of_nat fuel →
  ∃ g', MazeJS.LoadMaze R fuel f g = Ret tt g' ∧
        (∀ x y, ∃ b, MazePage.IsAnswer x y g' = Ret b g' ∧
                     (b = true ↔ (x, y) ∈ MazeJS.Solution_List g') ∧
                     (b = true → in_grid (MazeJS.WIDTH c) (MazeJS.HEIGHT c) (x, y)) ∧
                     ∀ inputs, IsAnswer x y (play (session g') inputs)
                               = Ret b (play (session g') inputs)) ∧
        MazePage.IsAnswer (MazeJS.ENTRANCE_X c) (MazeJS.ENTRANCE_Y c) g' = Ret true g' ∧
        MazePage.IsAnswer (MazeJS.STARTING_X c) (MazeJS.STARTING_Y c) g' = Ret true g' ∧
        Z.of_nat (length (filter (λ p, MazePage.IsAnswer_in (MazeJS.Solution_List g') p.1 p.2 = true)
                                 (cells (MazeJS.WIDTH c) (MazeJS.HEIGHT c))))
          = MazeJS.Steps_to_Solve g' + 1.
Proof.
  intros c Hcan Hfuel.
  pose proof Hcan as (Herr & Hent & Hexit & Hout).
  destruct (LoadMaze_perfect R fuel f g Hcan Hfuel) as (g' & Hrun & Hp). fold c in Hp.
  exists g'. split; [done|].
  pose proof (perfect_walk _ _ Hp) as Hwalk.
  assert (Hgrid : ∀ x, x ∈ MazeJS.Solution_List g' →
            in_grid (MazeJS.WIDTH c) (MazeJS.HEIGHT c) x).
  { eapply walk_cells_in_grid; [apply Hp| |exact Hwalk]. done. }
  split; [|split; [|split]].
  - intros x y. eexists. split; [done|]. split; [apply IsAnswer_in_spec|].
    split; [by intros ?%IsAnswer_in_spec%Hgrid|].
    intros inputs. unfold IsAnswer, bind, get, ret. do 2 f_equal.
    assert (Ht : touring c g' (play (session g') inputs)).
    { apply (touring_play c g' Hp). by apply touring_page_load. }
    destruct Ht as (-> & _). done.
  - unfold MazePage.IsAnswer, bind, get, ret. f_equal. apply IsAnswer_in_spec.
    by eapply walk_last_in.
  - unfold MazePage.IsAnswer, bind, get, ret. f_equal. apply IsAnswer_in_spec.
    by eapply walk_first_in.
  - rewrite (perfect_steps _ _ Hp).
    assert (length (filter (λ p, MazePage.IsAnswer_in (MazeJS.Solution_List g') p.1 p.2 = true)
                      (cells (MazeJS.WIDTH c) (MazeJS.HEIGHT c)))
            = length (MazeJS.Solution_List g')) as ->; [|lia].
    apply Permutation_length, NoDup_Permutation.
    + apply NoDup_filter, NoDup_cells.
    + apply Hp.
    + intros [x y]. rewrite list_elem_of_filter, elem_of_cells. simpl.
      rewrite IsAnswer_in_spec. split; [by intros [? _]|]. intros Hx. split; [done|].
      by apply Hgrid.
Qed.

Lemma IsAnswer_marks_the_solution_witness :
  let c := MazeJS.config_read form_2x1 (MazeJS.config (page form_2x1)) in
  ∃ g', MazeJS.LoadMaze always_first 2 form_2x1 (page form_2x1) = Ret tt g' ∧
        (∀ x y, ∃ b, MazePage.IsAnswer x y g' = Ret b g' ∧
                     (b = true ↔ (x, y) ∈ MazeJS.Solution_List g') ∧
                     (b = true → in_grid (MazeJS.WIDTH c) (MazeJS.HEIGHT c) (x, y)) ∧
                     ∀ inputs, IsAnswer x y (play (session g') inputs)
                               = Ret b (play (session g') inputs)) ∧
        MazePage.IsAnswer (MazeJS.ENTRANCE_X c) (MazeJS.ENTRANCE_Y c) g' = Ret true g' ∧
        MazePage.IsAnswer (MazeJS.STARTING_X c) (MazeJS.STARTING_Y c) g' = Ret true g' ∧
        Z.of_nat (length (filter (λ p, MazePage.IsAnswer_in (MazeJS.Solution_List g') p.1 p.2 = true)
                                 (cells (MazeJS.WIDTH c) (MazeJS.HEIGHT c))))
          = MazeJS.Steps_to_Solve g' + 1.
Proof.
  refine (IsAnswer_marks_the_solution always_first 2 form_2x1 (page form_2x1) _ _);
    compute_done.
Defined.

(** [keyDown] turns the code it reads into a one-character string before
    the [switch], so only the letters w, s, a and d move the player; the
    numbers 38, 40, 37 and 39 among the case labels never match, and a key
    with one of these codes, or an event with no code, does nothing. *)
Theorem keyDown_moves_on_w_a_s_d_only
    (window_event : bool) (event : KeyEvent) (s : Session) :
  let read :=
    if window_event then Some (keyCode event)
    else if bool_decide (which event ≠ 0) then Some (which event)
    else None in
  let code := match read with Some n => n mod 65536 | None => 0 end in
  keyDown window_event event s =
    (if decide (code = 119) then MoveUp s
     else if decide (code = 115) then MoveDown s
     else if decide (code = 97) then MoveLeft s
     else if decide (code = 100) then MoveRight s
     else Ret tt s) ∧
  (code ∈ [37; 38; 39; 40] → keyDown window_event event s = Ret tt s) ∧
  (read = None → keyDown window_event event s = Ret tt s).
Proof.
  intros read code.
  assert (Hkey : keyDown window_event event s =
    (if decide (code = 119) then MoveUp s
     else if decide (code = 115) then MoveDown s
     else if decide (code = 97) then MoveLeft s
     else if decide (code = 100) then MoveRight s
     else Ret tt s)).
  { unfold keyDown. fold read.
    assert (String_fromCharCode read = Text [code]) as -> by (by destruct read).
    unfold strict_equal.
    rewrite !(bool_decide_eq_false_2 (Text [code] = Number _)) by done. cbn [orb].
    clearbody code.
    repeat case_decide; repeat case_bool_decide; simplify_eq; try done; congruence. }
  split; [done|]. split.
  - intros Hc. rewrite Hkey.
    repeat (apply elem_of_cons in Hc as [->|Hc]); [..|by apply elem_of_nil in Hc]; done.
  - intros Hr. rewrite Hkey. subst code. by rewrite Hr.
Qed.

End PlayPageExtras.
